(** * Temporal benchmark stacks: configuration resolution and manifest transformations

    A shallow embedding of the Pulumi program that provisions a Temporal
    benchmark cluster.  Two parts of the program are modelled:

    - the manifest transformations ([scaleDeployment], [setLimits],
      [tolerateDedicated], [configureAWSDatasource], [configureExternalGrafana],
      [configureRemoteWrite]), which mutate YAML-decoded JavaScript objects in
      place; the mutation is modelled as state passing over a tree of values,
      and a JavaScript [TypeError] as a thrown exception;
    - the configuration resolution ([createCluster], [createPersistence],
      [rdsPersistence], [cassandraPersistence], [createAdvancedVisibility])
      together with the sizing arithmetic of the soak-test config map, in
      double precision as the program computes it; the registration of cloud
      resources is modelled as a log that the functions extend. *)

From stdpp Require Import gmap strings list fin_maps pretty.
From Stdlib Require Import ZArith QArith Qround Qabs Lqa.
Close Scope Q_scope.

Set Warnings "-register-all".
Set Default Proof Using "Type".

(** ** Exceptions *)

(** The program throws bare strings from its configuration checks (["invalid
    cluster config"], ["invalid persistence config"], ["invalid RDS config"]);
    these are the [InvalidConfiguration] errors.  Reading or writing a property
    of [undefined] or [null], or writing a property of a primitive in a module
    (strict mode), raises a JavaScript [TypeError]. *)
Inductive exn :=
| InvalidConfiguration (msg : string)
| TypeError.

Inductive result (A : Type) :=
| Ok (a : A)
| Throw (e : exn).
Arguments Ok {A} a.
Arguments Throw {A} e.

#[export] Instance result_ret : MRet result := fun A a => Ok a.
#[export] Instance result_bind : MBind result := fun A B f r =>
  match r with
  | Ok a => f a
  | Throw e => Throw e
  end.

(** ** Structured objects *)

(** A decoded manifest document: the JavaScript value that the YAML decoder
    builds.  Numbers are integer valued in this development (replica counts,
    queue sizes).  An array carries, next to its elements, the named properties
    that an assignment [arr.k = v] would attach to it. *)
Inductive value :=
| VUndef
| VNull
| VBool (b : bool)
| VNum (n : Z)
| VStr (s : string)
| VArr (elems : list value) (props : gmap string value)
| VObj (fields : gmap string value).

(** A property selector: [v.k] or [v[n]]. *)
Inductive sel :=
| Field (k : string)
| Index (n : nat).

#[export] Instance sel_eq_dec : EqDecision sel.
Proof. solve_decision. Defined.

Definition path := list sel.

(** The property key under which a plain object stores a selector. *)
Definition sel_key (s : sel) : string :=
  match s with
  | Field k => k
  | Index n => pretty n
  end.

(** [get v s] is the JavaScript read [v.k] / [v[n]]: a [TypeError] on
    [undefined] and [null], the stored value or [undefined] on objects and
    arrays, the n-th character on strings, [undefined] on other primitives.
    Field names are those of the program, all of them data fields. *)
Definition get (v : value) (s : sel) : result value :=
  match v with
  | VUndef | VNull => Throw TypeError
  | VObj m => Ok (default VUndef (m !! sel_key s))
  | VArr l p =>
      match s with
      | Index n => Ok (default VUndef (l !! n))
      | Field k => Ok (default VUndef (p !! k))
      end
  | VStr str =>
      match s with
      | Index n =>
          Ok (match String.get n str with
              | Some c => VStr (String c EmptyString)
              | None => VUndef
              end)
      | Field _ => Ok VUndef
      end
  | VBool _ | VNum _ => Ok VUndef
  end.

(** [put v s x] is the JavaScript write [v.k = x] / [v[n] = x], returning the
    mutated holder: objects and arrays take the property (an array grows, with
    holes, when written past its end), anything else raises a [TypeError]. *)
Definition put (v : value) (s : sel) (x : value) : result value :=
  match v with
  | VObj m => Ok (VObj (<[sel_key s := x]> m))
  | VArr l p =>
      match s with
      | Field k => Ok (VArr l (<[k := x]> p))
      | Index n =>
          Ok (VArr (if decide (n < length l) then <[n := x]> l
                    else l ++ replicate (n - length l) VUndef ++ [x]) p)
      end
  | _ => Throw TypeError
  end.

(** [get_path v p] reads along a chain of selectors, [v.a.b[0].c]. *)
Fixpoint get_path (v : value) (p : path) : result value :=
  match p with
  | [] => Ok v
  | s :: r => c ← get v s; get_path c r
  end.

(** [set_path v p x] is the assignment [v.a.b.c = x] seen from the root [v]:
    the chain is read down to the holder of the last selector, the holder is
    written, and every object on the way, mutated in place by the program,
    is stored back under the selector it was read from. *)
Fixpoint set_path (v : value) (p : path) (x : value) : result value :=
  match p with
  | [] => Ok x
  | s :: r => c ← get v s; c' ← set_path c r x; put v s c'
  end.

(** Objects and arrays: the values that hold properties. *)
Definition is_ref (v : value) : bool :=
  match v with
  | VObj _ | VArr _ _ => true
  | _ => false
  end.

(** Two paths diverge when, after a common prefix, they continue with two
    different field names. *)
Fixpoint diverge (p q : path) : bool :=
  match p, q with
  | s :: p', s' :: q' =>
      if decide (s = s') then diverge p' q'
      else
        match s, s' with
        | Field _, Field _ => true
        | _, _ => false
        end
  | _, _ => false
  end.

(** [v === s] for a string [s]. *)
Definition strict_eq_str (v : value) (s : string) : bool :=
  match v with
  | VStr t => String.eqb t s
  | _ => false
  end.

(** ** Limits *)

Module CPULimits.
Record t := mk { request : option string; limit : option string }.
End CPULimits.

Module MemoryLimits.
Record t := mk { request : option string; limit : option string }.
End MemoryLimits.

(** Truthiness of an optional string: defined and not empty. *)
Definition truthy (s : option string) : bool :=
  match s with
  | Some t => negb (String.eqb t "")
  | None => false
  end.

(** ** Transformations *)

(** A transformation mutates the object it is given, or throws; the options
    that the provider library passes next to the object are used by none of
    the transformations of the program. *)
Definition transformation := value → result value.

(** The guard [obj.kind === kind && obj.metadata.name === name]. *)
Definition is_target (obj : value) (kind name : string) : result bool :=
  k ← get obj (Field "kind");
  if strict_eq_str k kind then
    (md ← get obj (Field "metadata");
     n ← get md (Field "name");
     Ok (strict_eq_str n name))
  else Ok false.

Definition datasource_url : path :=
  [Field "spec"; Field "datasource"; Field "url"].
Definition datasource_jsonData : path :=
  [Field "spec"; Field "datasource"; Field "jsonData"].

Definition jsonData (region : string) : value :=
  VObj (<["sigV4Region" := VStr region]>
       (<["sigV4AuthType" := VStr "ec2_iam_role"]>
       (<["sigV4Auth" := VBool true]> ∅))).

Definition configureAWSDatasource (name region endpoint : string) : transformation :=
  fun obj =>
    b ← is_target obj "GrafanaDatasource" name;
    if (b : bool) then
      (obj ← (if negb (String.eqb endpoint "")
              then set_path obj datasource_url (VStr endpoint)
              else Ok obj);
       set_path obj datasource_jsonData (jsonData region))
    else Ok obj.

Definition external_url : path :=
  [Field "spec"; Field "external"; Field "url"].

Definition configureExternalGrafana (name endpoint : string) : transformation :=
  fun obj =>
    b ← is_target obj "Grafana" name;
    if (b : bool) then set_path obj external_url (VStr ("https://" +:+ endpoint))
    else Ok obj.

Definition spec_replicas : path := [Field "spec"; Field "replicas"].
Definition spec_replicaExternalLabelName : path :=
  [Field "spec"; Field "replicaExternalLabelName"].
Definition spec_remoteWrite : path := [Field "spec"; Field "remoteWrite"].

Definition writeRelabelConfigs : value :=
  VArr [ VObj (<["targetLabel" := VStr "namespace"]>
              (<["regex" := VStr "(.+)"]>
              (<["sourceLabels" := VArr [VStr "exported_namespace"] ∅]> ∅)));
         VObj (<["action" := VStr "labeldrop"]>
              (<["regex" := VStr "exported_namespace"]> ∅)) ] ∅.

Definition queue_config : value :=
  VObj (<["capacity" := VNum 2500]>
       (<["max_shards" := VNum 200]>
       (<["max_samples_per_send" := VNum 1000]> ∅))).

Definition remoteWriteEntry (region endpoint : string) : value :=
  VObj (<["writeRelabelConfigs" := writeRelabelConfigs]>
       (<["queue_config" := queue_config]>
       (<["sigv4" := VObj (<["region" := VStr region]> ∅)]>
       (<["url" := VStr (endpoint +:+ "api/v1/remote_write")]> ∅)))).

Definition configureRemoteWrite (name region endpoint : string) : transformation :=
  fun obj =>
    b ← is_target obj "Prometheus" name;
    if (b : bool) then
      (obj ← set_path obj spec_replicas (VNum 1);
       obj ← set_path obj spec_replicaExternalLabelName (VStr "");
       set_path obj spec_remoteWrite (VArr [remoteWriteEntry region endpoint] ∅))
    else Ok obj.

Definition scaleDeployment (name : string) (replicas : Z) : transformation :=
  fun obj =>
    b ← is_target obj "Deployment" name;
    if (b : bool) then set_path obj spec_replicas (VNum replicas)
    else Ok obj.

(** [obj.spec.template.spec.containers[0]], bound to [container] by
    [setLimits]; the four resource fields are reached through it. *)
Definition container : path :=
  [Field "spec"; Field "template"; Field "spec"; Field "containers"; Index 0].
Definition requests_cpu : path :=
  container ++ [Field "resources"; Field "requests"; Field "cpu"].
Definition limits_cpu : path :=
  container ++ [Field "resources"; Field "limits"; Field "cpu"].
Definition requests_memory : path :=
  container ++ [Field "resources"; Field "requests"; Field "memory"].
Definition limits_memory : path :=
  container ++ [Field "resources"; Field "limits"; Field "memory"].

(** [if (src) { obj.<p> = src }] *)
Definition assign_if (src : option string) (p : path) (obj : value) : result value :=
  match src with
  | Some s => if truthy src then set_path obj p (VStr s) else Ok obj
  | None => Ok obj
  end.

Definition setLimits (name : string)
    (cpu : option CPULimits.t) (memory : option MemoryLimits.t) : transformation :=
  fun obj =>
    b ← is_target obj "Deployment" name;
    if (b : bool) then
      (_ ← get_path obj container;
       obj ← assign_if (cpu ≫= CPULimits.request) requests_cpu obj;
       obj ← assign_if (cpu ≫= CPULimits.limit) limits_cpu obj;
       obj ← assign_if (memory ≫= MemoryLimits.request) requests_memory obj;
       assign_if (memory ≫= MemoryLimits.limit) limits_memory obj)
    else Ok obj.

Definition tolerations : path :=
  [Field "spec"; Field "template"; Field "spec"; Field "tolerations"].

Definition toleration (dedicatedValue : string) : value :=
  VObj (<["effect" := VStr "NoSchedule"]>
       (<["value" := VStr dedicatedValue]>
       (<["operator" := VStr "Equal"]>
       (<["key" := VStr "dedicated"]> ∅)))).

Definition tolerateDedicated (dedicatedValue : string) : transformation :=
  fun obj =>
    k ← get obj (Field "kind");
    if strict_eq_str k "Deployment"
    then set_path obj tolerations (VArr [toleration dedicatedValue] ∅)
    else Ok obj.

(** ** The transformation pipeline *)

(** Modelled from the spec: the inner loop of the pipeline, one transformation
    over every object of a manifest group, in the group's stored order.  An
    exception aborts the run. *)
Fixpoint for_each (t : transformation) (group : list value) : result (list value) :=
  match group with
  | [] => Ok []
  | obj :: rest => obj' ← t obj; rest' ← for_each t rest; Ok (obj' :: rest')
  end.

(** Modelled from the spec: the loop that applies the [transformations] of a
    [kustomize.Directory] belongs to the provider library, not to the
    program; section 4.2 gives it as: for each transformation in the given
    order, for each object of the group in the group's stored order, invoke
    the transformation. *)
Fixpoint apply (group : list value) (transforms : list transformation)
  : result (list value) :=
  match transforms with
  | [] => Ok group
  | t :: rest => group' ← for_each t group; apply group' rest
  end.

(** One object through a list of transformations, in order. *)
Fixpoint apply_obj (transforms : list transformation) (obj : value) : result value :=
  match transforms with
  | [] => Ok obj
  | t :: rest => obj' ← t obj; apply_obj rest obj'
  end.

(** ** Configuration *)

Module FrontendConfig.
Record t := mk {
  Pods : Z;
  CPU : option CPULimits.t;
  Memory : option MemoryLimits.t }.
End FrontendConfig.

Module HistoryConfig.
Record t := mk {
  Shards : Z;
  Pods : Z;
  CPU : option CPULimits.t;
  Memory : option MemoryLimits.t }.
End HistoryConfig.

Module MatchingConfig.
Record t := mk {
  TaskQueuePartitions : Z;
  Pods : Z;
  CPU : option CPULimits.t;
  Memory : option MemoryLimits.t }.
End MatchingConfig.

Module WorkerConfig.
Record t := mk {
  Pods : Z;
  WorkflowPollers : Z;
  ActivityPollers : Z;
  CPU : option CPULimits.t;
  Memory : option MemoryLimits.t }.
End WorkerConfig.

Module SoakTestConfig.
Record t := mk { ConcurrentWorkflows : Z }.
End SoakTestConfig.

Module TemporalConfig.
Record t := mk {
  Frontend : FrontendConfig.t;
  History : HistoryConfig.t;
  Matching : MatchingConfig.t;
  Workers : WorkerConfig.t;
  SoakTest : SoakTestConfig.t }.
End TemporalConfig.

Module EKSClusterConfig.
Record t := mk {
  EnvironmentStackName : string;
  NodeType : string;
  NodeCount : Z }.
End EKSClusterConfig.

Module ClusterConfig.
Record t := mk { EKS : option EKSClusterConfig.t }.
End ClusterConfig.

Module OpenSearchConfig.
Record t := mk {
  InstanceType : string;
  EngineVersion : string }.
End OpenSearchConfig.

Module VisibilityConfig.
Record t := mk { OpenSearch : option OpenSearchConfig.t }.
End VisibilityConfig.

Module RDSPersistenceConfig.
Record t := mk {
  EnvironmentStackName : string;
  Engine : string;
  EngineVersion : string;
  InstanceType : string;
  SingleAZ : bool }.
End RDSPersistenceConfig.

Module CassandraPersistenceConfig.
Record t := mk {
  NodeType : string;
  NodeCount : Z;
  ReplicaCount : Z }.
End CassandraPersistenceConfig.

Module PersistenceConfig.
Record t := mk {
  RDS : option RDSPersistenceConfig.t;
  Cassandra : option CassandraPersistenceConfig.t;
  Visibility : option VisibilityConfig.t }.
End PersistenceConfig.

(** ** Cloud resources *)

(** A value that is known once a resource is provisioned. *)
Inductive Output :=
| OutputOf (resource attribute : string).

(** A string, or the promise of one. *)
Inductive Input :=
| Lit (s : string)
| Deferred (o : Output).

(** The data of a Kubernetes config map. *)
Abbreviation ConfigMapData := (gmap string Input).

Record Resource := { rtype : string; rname : string }.

Module Cluster.
Record t := mk {
  name : Output;
  kubeconfig : Output;
  provider : Output;
  securityGroup : Output;
  instanceRoles : Output }.
End Cluster.

(** The program registers resources as it runs: a computation takes the
    resources registered so far and returns its result, or the exception it
    throws, with the extended registry.  Callbacks handed to [Output.apply]
    run at provisioning time and are outside of it. *)
Definition Pulumi (A : Type) : Type := list Resource → result A * list Resource.

#[export] Instance Pulumi_ret : MRet Pulumi := fun A a rs => (Ok a, rs).
#[export] Instance Pulumi_bind : MBind Pulumi := fun A B f m rs =>
  match m rs with
  | (Ok a, rs') => f a rs'
  | (Throw e, rs') => (Throw e, rs')
  end.

Definition throw {A} (e : exn) : Pulumi A := fun rs => (Throw e, rs).

(** [new T(name, ...)] *)
Definition register (T name : string) : Pulumi () :=
  fun rs => (Ok (), rs ++ [{| rtype := T; rname := name |}]).

(** ** Numbers *)

(** A JavaScript number is a double: a finite value, an infinity or NaN.
    The finite values are carried here as the rationals, or the integers, that
    they are.  The two zeros are not told apart: the program prints its
    numbers, and both zeros print as [0]. *)
Inductive number (A : Type) :=
| Num (a : A)
| Infinity
| NegInfinity
| NaN.
Arguments Num {A} a.
Arguments Infinity {A}.
Arguments NegInfinity {A}.
Arguments NaN {A}.

(** [2^e] *)
Definition pow2 (e : Z) : Q :=
  if (0 <=? e)%Z then inject_Z (2 ^ e) else / inject_Z (2 ^ (- e)).

(** The integer part of the binary logarithm of the magnitude of a rational
    that is not zero: the [e] with [2^e <= |q| < 2^(e+1)]. *)
Definition ilog2 (q : Q) : Z :=
  let n := Z.abs (Qnum q) in
  let d := Zpos (Qden q) in
  let e := (Z.log2 n - Z.log2 d)%Z in
  if (if (0 <=? e)%Z then (2 ^ e * d <=? n)%Z else (d <=? n * 2 ^ (- e))%Z)
  then e else (e - 1)%Z.

(** The nearest integer, the even one of two that are equally near. *)
Definition round_even (q : Q) : Z :=
  let f := Qfloor q in
  match (q - inject_Z f ?= 1 # 2)%Q with
  | Lt => f
  | Gt => (f + 1)%Z
  | Eq => if Z.even f then f else (f + 1)%Z
  end.

(** The double that a real number is rounded to: 53 significant bits, the
    last of them not below [2^-1074], ties to even, and an infinity from
    [2^1024] on. *)
Definition binary64 (q : Q) : number Q :=
  if Qeq_bool q 0 then Num 0%Q
  else
    let e := Z.max (ilog2 q - 52) (-1074) in
    let r := (inject_Z (round_even (q / pow2 e)) * pow2 e)%Q in
    if Qle_bool (pow2 1024) (Qabs r)
    then (if Qle_bool 0 q then Infinity else NegInfinity)
    else Num (Qred r).

(** [a / b] for two numbers of the configuration.  The configuration gives
    them as integers, the program holds each as the double nearest to it, and
    the quotient of two doubles is the double nearest to their quotient. *)
Definition div (a b : Z) : number Q :=
  match binary64 (inject_Z a), binary64 (inject_Z b) with
  | Num x, Num y =>
      if Qeq_bool y 0 then
        if Qeq_bool x 0 then NaN
        else if Qle_bool 0 x then Infinity else NegInfinity
      else binary64 (x / y)
  | Num _, (Infinity | NegInfinity) => Num 0%Q
  | Infinity, Num y => if Qle_bool 0 y then Infinity else NegInfinity
  | NegInfinity, Num y => if Qle_bool 0 y then NegInfinity else Infinity
  | _, _ => NaN
  end.

Definition Math_ceil (x : number Q) : number Z :=
  match x with
  | Num q => Num (Qceiling q)
  | Infinity => Infinity
  | NegInfinity => NegInfinity
  | NaN => NaN
  end.

(** [v], read as a number, is the double [x]. *)
Definition reads_as (v x : Z) : bool :=
  match binary64 (inject_Z v) with
  | Num q => Qeq_bool q (inject_Z x)
  | _ => false
  end.

(** The decimal of [k] significant digits, for an integer [x] of [n] digits,
    that reads as [x]: the one nearer to [x] of the two around it, when it
    does. *)
Definition shortest_at (x : Z) (n k : nat) : option Z :=
  let p := (10 ^ Z.of_nat (n - k))%Z in
  let lo := (x / p * p)%Z in
  let hi := (lo + p)%Z in
  match reads_as lo x, reads_as hi x with
  | true, true =>
      match (x - lo ?= hi - x)%Z with
      | Lt => Some lo
      | Gt => Some hi
      | Eq => Some (if Z.even (x / p) then lo else hi)
      end
  | true, false => Some lo
  | false, true => Some hi
  | false, false => None
  end.

(** The decimal with the fewest significant digits that reads as the double
    [x], a positive integer; seventeen digits always do. *)
Definition shortest (x : Z) : Z :=
  let n := String.length (pretty x) in
  default x (list_find (λ o : option Z, is_Some o) (shortest_at x n <$> seq 1 17)
             ≫= λ '(_, o), o).

Fixpoint strip_zeros (s : string) : string :=
  match s with
  | EmptyString => EmptyString
  | String c r =>
      match strip_zeros r with
      | EmptyString =>
          if String.eqb (String c EmptyString) "0" then EmptyString
          else String c EmptyString
      | r' => String c r'
      end
  end.

(** [d.ddde+n], or [de+n] for a single digit. *)
Definition exponent_form (v : Z) : string :=
  let d := pretty v in
  let e := "e+" +:+ pretty (String.length d - 1) in
  match strip_zeros d with
  | String c EmptyString => String c e
  | String c r => String c ("." +:+ r +:+ e)
  | EmptyString => d
  end.

(** The digits of a double that is a positive integer: the shortest decimal
    that reads as it, written out below [10^21] and in exponent form from
    there on. *)
Definition digits (x : Z) : string :=
  if (x <=? 2 ^ 53)%Z then pretty x
  else
    let v := shortest x in
    if (v <? 10 ^ 21)%Z then pretty v else exponent_form v.

(** [toString] of a number that is an integer, held as the double nearest to
    it.  Up to [2^53] every integer is a double and prints as its decimal
    digits; above, the double prints as the shortest decimal that reads as
    it. *)
Definition toString (x : number Z) : string :=
  match x with
  | Num z =>
      if (Z.abs z <=? 2 ^ 53)%Z then pretty z
      else
        match binary64 (inject_Z z) with
        | Num q =>
            (if (z <? 0)%Z then "-" else EmptyString) +:+ digits (Z.abs (Qfloor q))
        | Infinity => "Infinity"
        | NegInfinity => "-Infinity"
        | NaN => "NaN"
        end
  | Infinity => "Infinity"
  | NegInfinity => "-Infinity"
  | NaN => "NaN"
  end.

Arguments binary64 : simpl never.
Arguments div : simpl never.
Arguments toString : simpl never.

(** ** The program *)

Section Program.

(** [pulumi.getStack()] *)
Variable stack : string.

(** [config.requireObject<TemporalConfig>('Temporal')] *)
Variable temporalConfig : TemporalConfig.t.

Definition eksCluster (name : string) (config : EKSClusterConfig.t)
    (persistenceConfig : PersistenceConfig.t) : Pulumi Cluster.t :=
  _ ← register "eks:index:Cluster" name;
  _ ← register "eks:index:NodeGroup" (name +:+ "-temporal");
  _ ← match PersistenceConfig.Cassandra persistenceConfig with
      | Some cassandraConfig => register "eks:index:NodeGroup" (name +:+ "-cassandra")
      | None => mret ()
      end;
  mret {| Cluster.name := OutputOf name "eksCluster.name";
          Cluster.kubeconfig := OutputOf name "kubeconfig";
          Cluster.provider := OutputOf name "provider";
          Cluster.securityGroup := OutputOf name "nodeSecurityGroup.id";
          Cluster.instanceRoles := OutputOf name "instanceRoles" |}.

Definition createCluster (clusterConfig : ClusterConfig.t)
    (persistenceConfig : PersistenceConfig.t) : Pulumi Cluster.t :=
  match ClusterConfig.EKS clusterConfig with
  | Some eks => eksCluster stack eks persistenceConfig
  | None => throw (InvalidConfiguration "invalid cluster config")
  end.

(** The engine dispatch that opens [rdsPersistence]: the protocol name, the
    port, the prefix of the configuration keys and the extra entries. *)
Definition engineSettings (Engine : string)
  : result (string * Z * string * ConfigMapData) :=
  if String.eqb Engine "postgres" || String.eqb Engine "aurora-postgresql" then
    Ok ("postgresql", 5432%Z, "POSTGRES", ∅)
  else if String.eqb Engine "mysql" || String.eqb Engine "aurora-mysql" then
    Ok ("mysql", 3306%Z, "MYSQL", {["MYSQL_TX_ISOLATION_COMPAT" := Lit "true"]})
  else Throw (InvalidConfiguration "invalid RDS config").

Definition rdsPersistence (name : string) (config : RDSPersistenceConfig.t)
    (securityGroup : Output) : Pulumi ConfigMapData :=
  match engineSettings (RDSPersistenceConfig.Engine config) with
  | Throw e => throw e
  | Ok (dbType, dbPort, dbPrefix, dbExtras) =>
      _ ← register "aws:ec2:SecurityGroup" (name +:+ "-rds");
      _ ← register "aws:ec2:SecurityGroupRule" (name +:+ "-rds");
      endpoint ←
        (if String.eqb (RDSPersistenceConfig.Engine config) "aurora-postgresql"
            || String.eqb (RDSPersistenceConfig.Engine config) "aurora-mysql"
         then
           (_ ← register "aws:rds:Cluster" name;
            mret (OutputOf name "endpoint"))
         else if RDSPersistenceConfig.SingleAZ config then
           (_ ← register "aws:rds:Instance" name;
            mret (OutputOf name "address"))
         else
           (_ ← register "aws:rds:Cluster" name;
            mret (OutputOf name "endpoint")));
      mret (dbExtras ∪
            (<["DBNAME" := Lit "temporal_persistence"]>
            (<[dbPrefix +:+ "_PWD" := Lit "temporal"]>
            (<[dbPrefix +:+ "_USER" := Lit "temporal"]>
            (<[dbPrefix +:+ "_SEEDS" := Deferred endpoint]>
            (<["DB_PORT" := Lit (toString (Num dbPort))]>
            (<["DB" := Lit dbType]>
            (<["NUM_HISTORY_SHARDS" :=
                 Lit (toString (Num (HistoryConfig.Shards
                                       (TemporalConfig.History temporalConfig))))]>
             ∅))))))))
  end.

Definition cassandraPersistence (name : string)
    (config : CassandraPersistenceConfig.t) (cluster : Cluster.t)
  : Pulumi ConfigMapData :=
  _ ← register "kubernetes:core/v1:Namespace" "cassandra";
  _ ← register "aws:eks:Addon" "aws-ebs-csi-driver";
  _ ← register "kubernetes:helm.sh/v3:Chart" "cassandra";
  mret (<["DBNAME" := Lit "temporal_persistence"]>
       (<["CASSANDRA_REPLICATION_FACTOR" := Lit "3"]>
       (<["CASSANDRA_PASSWORD" := Lit "temporal"]>
       (<["CASSANDRA_USER" := Lit "temporal"]>
       (<["CASSANDRA_SEEDS" := Lit "cassandra.cassandra.svc.cluster.local"]>
       (<["DB_PORT" := Lit "9042"]>
       (<["DB" := Lit "cassandra"]>
       (<["NUM_HISTORY_SHARDS" :=
            Lit (toString (Num (HistoryConfig.Shards
                                  (TemporalConfig.History temporalConfig))))]>
        ∅)))))))).

Definition opensearchVisibility (name : string) (config : OpenSearchConfig.t)
    (cluster : Cluster.t) : Pulumi ConfigMapData :=
  _ ← register "aws:ec2:SecurityGroup" (name +:+ "-opensearch");
  _ ← register "aws:ec2:SecurityGroupRule" (name +:+ "-opensearch");
  _ ← register "aws:opensearch:Domain" name;
  _ ← register "aws:iam:Policy" "opensearch-access";
  _ ← register "kubernetes:apps/v1:Deployment" "opensearch-proxy";
  _ ← register "kubernetes:core/v1:Service" "opensearch-proxy";
  mret (<["ES_PORT" := Lit "80"]>
       (<["ES_SEEDS" := Deferred (OutputOf "opensearch-proxy" "all")]>
       (<["ES_SCHEMA" := Lit "http"]>
       (<["ENABLE_ES" := Lit "true"]> ∅)))).

Definition createAdvancedVisibility (config : option VisibilityConfig.t)
    (cluster : Cluster.t) : Pulumi ConfigMapData :=
  match config ≫= VisibilityConfig.OpenSearch with
  | Some opensearch => opensearchVisibility "temporal-visibility" opensearch cluster
  | None => mret ∅
  end.

Definition createPersistence (config : PersistenceConfig.t) (cluster : Cluster.t)
  : Pulumi ConfigMapData :=
  persistence ←
    match PersistenceConfig.RDS config with
    | Some rds =>
        (p ← rdsPersistence stack rds (Cluster.securityGroup cluster);
         mret (Some p))
    | None =>
        match PersistenceConfig.Cassandra config with
        | Some cassandra =>
            (p ← cassandraPersistence stack cassandra cluster;
             mret (Some p))
        | None => mret None
        end
    end;
  match persistence with
  | None => throw (InvalidConfiguration "invalid persistence config")
  | Some persistence =>
      visibility ← createAdvancedVisibility (PersistenceConfig.Visibility config) cluster;
      mret (visibility ∪ persistence)
  end.

(** The resolution of the two choices, as the program runs it:
    [createCluster] and then [createPersistence] on its cluster. *)
Definition resolve (clusterConfig : ClusterConfig.t)
    (persistenceConfig : PersistenceConfig.t) : Pulumi ConfigMapData :=
  cluster ← createCluster clusterConfig persistenceConfig;
  createPersistence persistenceConfig cluster.

(** The data of the [benchmark-soaktest-env] config map. *)
Definition soakTestConfig : ConfigMapData :=
  {[ "CONCURRENT_WORKFLOWS" :=
       Lit (toString (Math_ceil (div
         (SoakTestConfig.ConcurrentWorkflows (TemporalConfig.SoakTest temporalConfig))
         (FrontendConfig.Pods (TemporalConfig.Frontend temporalConfig))))) ]}.

(** The transformations of the [temporal] and [benchmark] manifest groups. *)
Definition temporalTransformations : list transformation :=
  let Frontend := TemporalConfig.Frontend temporalConfig in
  let History := TemporalConfig.History temporalConfig in
  let Matching := TemporalConfig.Matching temporalConfig in
  [ scaleDeployment "temporal-frontend" (FrontendConfig.Pods Frontend);
    setLimits "temporal-frontend" (FrontendConfig.CPU Frontend) (FrontendConfig.Memory Frontend);
    scaleDeployment "temporal-history" (HistoryConfig.Pods History);
    setLimits "temporal-history" (HistoryConfig.CPU History) (HistoryConfig.Memory History);
    scaleDeployment "temporal-matching" (MatchingConfig.Pods Matching);
    setLimits "temporal-matching" (MatchingConfig.CPU Matching) (MatchingConfig.Memory Matching);
    tolerateDedicated "temporal" ].

Definition benchmarkTransformations : list transformation :=
  let Workers := TemporalConfig.Workers temporalConfig in
  [ scaleDeployment "benchmark-workers" (WorkerConfig.Pods Workers);
    setLimits "benchmark-workers" (WorkerConfig.CPU Workers) (WorkerConfig.Memory Workers);
    scaleDeployment "benchmark-soak-test"
      (FrontendConfig.Pods (TemporalConfig.Frontend temporalConfig)) ].

End Program.

(** ** Vocabulary of the statements *)

(** The number of populated branches of the two choices. *)
Definition populated {A} (branch : option A) : nat :=
  match branch with
  | Some _ => 1
  | None => 0
  end.

Definition cluster_branches (c : ClusterConfig.t) : nat :=
  populated (ClusterConfig.EKS c).

Definition persistence_branches (p : PersistenceConfig.t) : nat :=
  populated (PersistenceConfig.RDS p) + populated (PersistenceConfig.Cassandra p).

(** The engine identifiers that [rdsPersistence] recognises. *)
Definition postgres_engine (Engine : string) : Prop :=
  Engine = "postgres" ∨ Engine = "aurora-postgresql".

Definition mysql_engine (Engine : string) : Prop :=
  Engine = "mysql" ∨ Engine = "aurora-mysql".

#[export] Instance postgres_engine_dec e : Decision (postgres_engine e).
Proof. unfold postgres_engine. apply _. Defined.

#[export] Instance mysql_engine_dec e : Decision (mysql_engine e).
Proof. unfold mysql_engine. apply _. Defined.

(** The database families and the prefix of their configuration keys. *)
Inductive family := Postgres | MySQL | Cassandra.

Definition family_prefix (f : family) : string :=
  match f with
  | Postgres => "POSTGRES_"
  | MySQL => "MYSQL_"
  | Cassandra => "CASSANDRA_"
  end.

(** The family that a persistence configuration selects: that of the engine
    of the relational variant when it is populated, the wide-column one
    otherwise. *)
Definition selected_family (p : PersistenceConfig.t) : option family :=
  match PersistenceConfig.RDS p with
  | Some rds =>
      if decide (postgres_engine (RDSPersistenceConfig.Engine rds)) then Some Postgres
      else if decide (mysql_engine (RDSPersistenceConfig.Engine rds)) then Some MySQL
      else None
  | None =>
      match PersistenceConfig.Cassandra p with
      | Some _ => Some Cassandra
      | None => None
      end
  end.

(** The name of the password key of a family, after its prefix. *)
Definition password_suffix (f : family) : string :=
  match f with
  | Postgres | MySQL => "PWD"
  | Cassandra => "PASSWORD"
  end.

(** The ceiling of the quotient [a / b] for a positive [b], in the words of
    the specification: the least integer that is not below the quotient. *)
Definition is_ceiling (a b k : Z) : Prop :=
  (a ≤ k * b)%Z ∧ ∀ j : Z, (a ≤ j * b)%Z → (k ≤ j)%Z.

(** [obj.kind === kind], [false] where the read throws. *)
Definition kind_is (obj : value) (kind : string) : bool :=
  match get obj (Field "kind") with
  | Ok k => strict_eq_str k kind
  | Throw _ => false
  end.

(** [obj.spec.template.spec], the holder of the tolerations. *)
Definition pod_spec : path := [Field "spec"; Field "template"; Field "spec"].

(** [container.resources.requests] and [container.resources.limits], the
    holders of the four resource fields. *)
Definition requests : path := container ++ [Field "resources"; Field "requests"].
Definition limits : path := container ++ [Field "resources"; Field "limits"].

(** [obj.spec.datasource], the holder of the data source settings. *)
Definition spec_datasource : path := [Field "spec"; Field "datasource"].

(** A path leads to an object or an array. *)
Definition holds_ref (obj : value) (p : path) : Prop :=
  ∃ h, get_path obj p = Ok h ∧ is_ref h = true.

(** Two paths are apart when, after a common prefix, they continue with two
    selectors that name different properties: two field names, two indices,
    or a field name and an index that is not written like it. *)
Fixpoint apart (p q : path) : bool :=
  match p, q with
  | s :: p', s' :: q' =>
      if decide (s = s') then apart p' q'
      else bool_decide (sel_key s ≠ sel_key s')
  | _, _ => false
  end.

(** ** Sample configurations and manifests *)

Module Sample.

Definition temporalConfig : TemporalConfig.t :=
  {| TemporalConfig.Frontend :=
       FrontendConfig.mk 3
         (Some (CPULimits.mk (Some "500m") None))
         (Some (MemoryLimits.mk (Some "1Gi") (Some "2Gi")));
     TemporalConfig.History := HistoryConfig.mk 512 2 None None;
     TemporalConfig.Matching := MatchingConfig.mk 4 2 None None;
     TemporalConfig.Workers := WorkerConfig.mk 2 10 10 None None;
     TemporalConfig.SoakTest := SoakTestConfig.mk 10 |}.

Definition eks : EKSClusterConfig.t :=
  EKSClusterConfig.mk "environment" "m5.2xlarge" 3.

Definition rds (Engine : string) : RDSPersistenceConfig.t :=
  RDSPersistenceConfig.mk "environment" Engine "14" "db.m6i.2xlarge" true.

Definition cassandra : CassandraPersistenceConfig.t :=
  CassandraPersistenceConfig.mk "m5.2xlarge" 3 3.

Definition cluster : Cluster.t :=
  {| Cluster.name := OutputOf "benchmark" "eksCluster.name";
     Cluster.kubeconfig := OutputOf "benchmark" "kubeconfig";
     Cluster.provider := OutputOf "benchmark" "provider";
     Cluster.securityGroup := OutputOf "benchmark" "nodeSecurityGroup.id";
     Cluster.instanceRoles := OutputOf "benchmark" "instanceRoles" |}.

(** Manifest documents. *)
Definition obj (fields : list (string * value)) : value :=
  VObj (list_to_map fields).

Definition deployment (name : string) : value :=
  obj [("kind", VStr "Deployment");
       ("metadata", obj [("name", VStr name)]);
       ("spec", obj [
          ("replicas", VNum 1);
          ("template", obj [
             ("spec", obj [
                ("containers", VArr [
                   obj [("name", VStr name);
                        ("resources", obj [
                           ("requests", obj [("cpu", VStr "100m");
                                             ("memory", VStr "128Mi")]);
                           ("limits", obj [("cpu", VStr "1");
                                           ("memory", VStr "1Gi")])])]] ∅)])])])].

Definition service (name : string) : value :=
  obj [("kind", VStr "Service");
       ("metadata", obj [("name", VStr name)]);
       ("spec", obj [("ports", VArr [obj [("port", VNum 7233)]] ∅)])].

Definition prometheus : value :=
  obj [("kind", VStr "Prometheus");
       ("metadata", obj [("name", VStr "k8s")]);
       ("spec", obj [
          ("replicas", VNum 2);
          ("replicaExternalLabelName", VStr "replica");
          ("remoteWrite", VArr [obj [("url", VStr "http://old.example/write")];
                                obj [("url", VStr "http://older.example/write")]] ∅)])].

Definition datasource (name : string) : value :=
  obj [("kind", VStr "GrafanaDatasource");
       ("metadata", obj [("name", VStr name)]);
       ("spec", obj [
          ("datasource", obj [("type", VStr "prometheus");
                              ("url", VStr "http://localhost:9090")])])].

Definition group : list value :=
  [deployment "temporal-frontend"; deployment "temporal-history";
   service "temporal-frontend"; deployment "temporal-matching"].

End Sample.

(** ** Generators and their actions *)

(** The three generators of the [temporal] and [benchmark] groups, as syntax:
    a list of these is a configured transformation list. *)
Inductive generator :=
| ScaleDeployment (name : string) (replicas : Z)
| SetLimits (name : string) (cpu : option CPULimits.t) (memory : option MemoryLimits.t)
| TolerateDedicated (dedicatedValue : string).

Definition build (g : generator) : transformation :=
  match g with
  | ScaleDeployment name replicas => scaleDeployment name replicas
  | SetLimits name cpu memory => setLimits name cpu memory
  | TolerateDedicated dedicatedValue => tolerateDedicated dedicatedValue
  end.

(** What a transformation does to an object that passes its guard: it reads
    a path, or assigns a value to one. *)
Inductive action :=
| Touch (p : path)
| Assign (p : path) (v : value).

Definition run (a : action) (obj : value) : result value :=
  match a with
  | Touch p => _ ← get_path obj p; Ok obj
  | Assign p v => set_path obj p v
  end.

Fixpoint exec (acts : list action) (obj : value) : result value :=
  match acts with
  | [] => Ok obj
  | a :: rest => obj' ← run a obj; exec rest obj'
  end.

Definition guard (g : generator) (obj : value) : result bool :=
  match g with
  | ScaleDeployment name _ | SetLimits name _ _ => is_target obj "Deployment" name
  | TolerateDedicated _ =>
      k ← get obj (Field "kind"); Ok (strict_eq_str k "Deployment")
  end.

Definition assign_action (src : option string) (p : path) : list action :=
  match src with
  | Some s => if truthy src then [Assign p (VStr s)] else []
  | None => []
  end.

Definition actions (g : generator) : list action :=
  match g with
  | ScaleDeployment _ replicas => [Assign spec_replicas (VNum replicas)]
  | SetLimits _ cpu memory =>
      Touch container
      :: assign_action (cpu ≫= CPULimits.request) requests_cpu
      ++ assign_action (cpu ≫= CPULimits.limit) limits_cpu
      ++ assign_action (memory ≫= MemoryLimits.request) requests_memory
      ++ assign_action (memory ≫= MemoryLimits.limit) limits_memory
  | TolerateDedicated dedicatedValue =>
      [Assign tolerations (VArr [toleration dedicatedValue] ∅)]
  end.

(** The actions that a list of generators performs on an object, decided by
    the guards on that object. *)
Fixpoint plan (gs : list generator) (obj : value) : result (list action) :=
  match gs with
  | [] => Ok []
  | g :: rest =>
      b ← guard g obj;
      acts ← plan rest obj;
      Ok ((if (b : bool) then actions g else []) ++ acts)
  end.

(** The paths that the three generators assign to. *)
Definition written_paths : list path :=
  [spec_replicas; requests_cpu; limits_cpu; requests_memory; limits_memory; tolerations].

Definition allowed (a : action) : Prop :=
  match a with
  | Touch p => p = container
  | Assign p _ => p ∈ written_paths
  end.

(** The resource fields that [setLimits] assigns to for given limits: those
    whose source value is present and not empty. *)
Definition assigned (cpu : option CPULimits.t) (memory : option MemoryLimits.t)
  : list path :=
  (if truthy (cpu ≫= CPULimits.request) then [requests_cpu] else [])
  ++ (if truthy (cpu ≫= CPULimits.limit) then [limits_cpu] else [])
  ++ (if truthy (memory ≫= MemoryLimits.request) then [requests_memory] else [])
  ++ (if truthy (memory ≫= MemoryLimits.limit) then [limits_memory] else []).

(** ** The monitoring and dashboards groups *)

(** [obj.spec.template.spec.containers[0].image] *)
Definition container_image : path := container ++ [Field "image"].

(** The transformation that the dashboards group declares in place, after
    its three generated ones: it sets the image of the Grafana operator. *)
Definition grafanaOperatorImage : transformation :=
  fun obj =>
    b ← is_target obj "Deployment" "grafana-operator-controller-manager";
    if (b : bool)
    then set_path obj container_image
           (VStr "ghcr.io/grafana-operator/grafana-operator:v5.0.0-rc0")
    else Ok obj.

(** The transformations of the [monitoring] and [dashboards] groups of
    [createMonitoring], for the region and the endpoints that the provider
    resolves. *)
Definition monitoringTransformations (region endpoint : string)
  : list transformation :=
  [ configureRemoteWrite "k8s" region endpoint ].

Definition dashboardsTransformations (region grafanaEndpoint prometheusEndpoint : string)
  : list transformation :=
  [ configureExternalGrafana "external-grafana" grafanaEndpoint;
    configureAWSDatasource "external-prometheus" region prometheusEndpoint;
    configureAWSDatasource "cloudwatch" region "";
    grafanaOperatorImage ].

(** Every transformation of the program, as syntax. *)
Inductive transformer :=
| Generated (g : generator)
| ConfigureAWSDatasource (name region endpoint : string)
| ConfigureExternalGrafana (name endpoint : string)
| ConfigureRemoteWrite (name region endpoint : string)
| GrafanaOperatorImage.

Definition transform (t : transformer) : transformation :=
  match t with
  | Generated g => build g
  | ConfigureAWSDatasource name region endpoint =>
      configureAWSDatasource name region endpoint
  | ConfigureExternalGrafana name endpoint => configureExternalGrafana name endpoint
  | ConfigureRemoteWrite name region endpoint =>
      configureRemoteWrite name region endpoint
  | GrafanaOperatorImage => grafanaOperatorImage
  end.

Definition transformer_guard (t : transformer) (obj : value) : result bool :=
  match t with
  | Generated g => guard g obj
  | ConfigureAWSDatasource name _ _ => is_target obj "GrafanaDatasource" name
  | ConfigureExternalGrafana name _ => is_target obj "Grafana" name
  | ConfigureRemoteWrite name _ _ => is_target obj "Prometheus" name
  | GrafanaOperatorImage =>
      is_target obj "Deployment" "grafana-operator-controller-manager"
  end.

Definition transformer_actions (t : transformer) : list action :=
  match t with
  | Generated g => actions g
  | ConfigureAWSDatasource _ region endpoint =>
      (if negb (String.eqb endpoint "")
       then [Assign datasource_url (VStr endpoint)] else [])
      ++ [Assign datasource_jsonData (jsonData region)]
  | ConfigureExternalGrafana _ endpoint =>
      [Assign external_url (VStr ("https://" +:+ endpoint))]
  | ConfigureRemoteWrite _ region endpoint =>
      [ Assign spec_replicas (VNum 1);
        Assign spec_replicaExternalLabelName (VStr "");
        Assign spec_remoteWrite (VArr [remoteWriteEntry region endpoint] ∅) ]
  | GrafanaOperatorImage =>
      [Assign container_image
         (VStr "ghcr.io/grafana-operator/grafana-operator:v5.0.0-rc0")]
  end.

(** The paths that the transformations of the program assign to. *)
Definition assigned_paths : list path :=
  written_paths
  ++ [ datasource_url; datasource_jsonData; external_url;
       spec_replicaExternalLabelName; spec_remoteWrite; container_image ].

Definition permitted (a : action) : Prop :=
  match a with
  | Touch p => p = container
  | Assign p _ => p ∈ assigned_paths
  end.

(** The actions that a list of guarded transformations performs on an
    object, for any syntax of transformations with guards and actions. *)
Fixpoint plan_with {G : Type} (guard_of : G → value → result bool)
    (actions_of : G → list action) (gs : list G) (obj : value)
  : result (list action) :=
  match gs with
  | [] => Ok []
  | g :: rest =>
      b ← guard_of g obj;
      acts ← plan_with guard_of actions_of rest obj;
      Ok ((if (b : bool) then actions_of g else []) ++ acts)
  end.

(** Two actions are separate when they cannot interfere: two assignments to
    diverging paths, a read and an assignment to a path that diverges from
    the read one or extends it, or two reads. *)
Definition separate (a b : action) : Prop :=
  match a, b with
  | Touch _, Touch _ => True
  | Touch p, Assign q _ | Assign q _, Touch p =>
      diverge q p = true ∨ ∃ s r, q = p ++ s :: r
  | Assign p _, Assign q _ => diverge p q = true
  end.

(** [obj.metadata.name] *)
Definition metadata_name : path := [Field "metadata"; Field "name"].

(** ** The dynamic configuration *)

(** The two entries that [dynamicConfig] derives from the matching
    configuration, each a list with one [{ value: ... }] record. *)
Definition matchingConfig (Matching : MatchingConfig.t) : gmap string value :=
  let partitions :=
    VArr [VObj {[ "value" := VNum (MatchingConfig.TaskQueuePartitions Matching) ]}] ∅ in
  <["matching.numTaskqueueWritePartitions" := partitions]>
  (<["matching.numTaskqueueReadPartitions" := partitions]> ∅).

(** [dynamicConfig]: the [DynamicConfig] object of the Temporal
    configuration, or the empty object when there is none, overlaid with the
    matching entries.  The object is passed beside the configuration record,
    which does not carry it. *)
Definition dynamicConfig (DynamicConfig : option (gmap string value))
    (config : TemporalConfig.t) : gmap string value :=
  let dc := default ∅ DynamicConfig in
  matchingConfig (TemporalConfig.Matching config) ∪ dc.

(** Two transformations conflict when the same generator made them for the
    same target: they assign to the same paths of the same objects. *)
Definition conflict (t1 t2 : transformer) : Prop :=
  match t1, t2 with
  | Generated (ScaleDeployment n1 _), Generated (ScaleDeployment n2 _)
  | Generated (SetLimits n1 _ _), Generated (SetLimits n2 _ _)
  | ConfigureAWSDatasource n1 _ _, ConfigureAWSDatasource n2 _ _
  | ConfigureExternalGrafana n1 _, ConfigureExternalGrafana n2 _
  | ConfigureRemoteWrite n1 _ _, ConfigureRemoteWrite n2 _ _ => n1 = n2
  | Generated (TolerateDedicated _), Generated (TolerateDedicated _) => True
  | _, _ => False
  end.

(** The kind that a transformation is bound to, and the name when it is
    bound to one. *)
Definition target_kind (t : transformer) : string :=
  match t with
  | Generated _ | GrafanaOperatorImage => "Deployment"
  | ConfigureAWSDatasource _ _ _ => "GrafanaDatasource"
  | ConfigureExternalGrafana _ _ => "Grafana"
  | ConfigureRemoteWrite _ _ _ => "Prometheus"
  end.

Definition target_name (t : transformer) : option string :=
  match t with
  | Generated (ScaleDeployment name _) | Generated (SetLimits name _ _)
  | ConfigureAWSDatasource name _ _ | ConfigureExternalGrafana name _
  | ConfigureRemoteWrite name _ _ => Some name
  | Generated (TolerateDedicated _) => None
  | GrafanaOperatorImage => Some "grafana-operator-controller-manager"
  end.

(** More sample manifests. *)
Module Manifest.

Definition grafana : value :=
  Sample.obj [("kind", VStr "Grafana");
              ("metadata", Sample.obj [("name", VStr "external-grafana")]);
              ("spec", Sample.obj [
                 ("external", Sample.obj [("url", VStr "http://localhost:3000");
                                          ("apiKey", VStr "key")])])].

(** A Deployment with no [metadata]. *)
Definition anonymous : value :=
  Sample.obj [("kind", VStr "Deployment");
              ("spec", Sample.obj [("replicas", VNum 1)])].

(** A Deployment whose pod spec has no [containers]. *)
Definition hollow (name : string) : value :=
  Sample.obj [("kind", VStr "Deployment");
              ("metadata", Sample.obj [("name", VStr name)]);
              ("spec", Sample.obj [
                 ("replicas", VNum 1);
                 ("template", Sample.obj [("spec", Sample.obj [])])])].

(** A Deployment with a second container beside the first. *)
Definition sidecar (name : string) : value :=
  Sample.obj [("kind", VStr "Deployment");
              ("metadata", Sample.obj [("name", VStr name)]);
              ("spec", Sample.obj [
                 ("replicas", VNum 1);
                 ("template", Sample.obj [
                    ("spec", Sample.obj [
                       ("containers", VArr [
                          Sample.obj [("name", VStr name);
                                      ("resources", Sample.obj [
                                         ("requests", Sample.obj [("cpu", VStr "100m");
                                                                  ("memory", VStr "128Mi")]);
                                         ("limits", Sample.obj [("cpu", VStr "1");
                                                                ("memory", VStr "1Gi")])])];
                          Sample.obj [("name", VStr "proxy");
                                      ("resources", Sample.obj [
                                         ("requests", Sample.obj [("cpu", VStr "50m")]);
                                         ("limits", Sample.obj [("cpu", VStr "200m")])])]]
                          ∅)])])])].

End Manifest.

(** [obj.spec.template.spec.containers] *)
Definition pod_containers : path := pod_spec ++ [Field "containers"].

(** [obj.spec.external], the holder of the URL of an external Grafana. *)
Definition spec_external : path := [Field "spec"; Field "external"].

(** A Deployment of the given name whose first container holds
    [resources.requests] and [resources.limits]: the objects that the three
    generators can write to. *)
Definition workload (name : string) (obj : value) : Prop :=
  is_target obj "Deployment" name = Ok true
  ∧ holds_ref obj requests ∧ holds_ref obj limits.

(** The test of [rdsPersistence] for an Aurora engine. *)
Definition aurora (Engine : string) : bool :=
  String.eqb Engine "aurora-postgresql" || String.eqb Engine "aurora-mysql".
(** ** Reasoning about exceptions *)

Lemma bind_Ok {A B} (m : result A) (f : A → result B) (b : B) :
  m ≫= f = Ok b ↔ ∃ a, m = Ok a ∧ f a = Ok b.
Proof.
  destruct m as [a|e]; simpl; split.
  - intros H. by exists a.
  - by intros (a' & [= <-] & H).
  - intros [=].
  - by intros (a' & [=] & _).
Qed.

Lemma bind_Ok_l {A B} (m : result A) (f : A → result B) (a : A) :
  m = Ok a → m ≫= f = f a.
Proof. by intros ->. Qed.

Lemma bind_Ok_r {A} (m : result A) : m ≫= Ok = m.
Proof. by destruct m. Qed.

(** Reduces the sequencing of exceptions and nothing else. *)
Ltac bsimpl := cbn [mbind result_bind mret result_ret].

(** Splits every successful sequence among the hypotheses into its steps. *)
Ltac inv_ok :=
  repeat match goal with
    | H : _ ≫= _ = Ok _ |- _ =>
        let a := fresh "a" in
        let Ha := fresh "Ha" in
        apply bind_Ok in H as (a & Ha & H)
    | H : Ok _ = Ok _ |- _ => injection H as H
    | H : Throw _ = Ok _ |- _ => discriminate H
    end.

(** ** Reading and writing properties *)

Lemma put_is_ref x s c y : put x s c = Ok y → is_ref x = true ∧ is_ref y = true.
Proof. destruct x, s; simpl; intros [=]; subst; done. Qed.

Lemma put_is_ref_Ok x s c : is_ref x = true → ∃ y, put x s c = Ok y.
Proof. destruct x, s; simpl; try done; eauto. Qed.

Lemma get_put_eq x s c y : put x s c = Ok y → get y s = Ok c.
Proof.
  destruct x as [| |b0|z0|str|l p|m], s as [k|n]; simpl; intros [=]; subst; simpl.
  - by rewrite lookup_insert_eq.
  - case_decide as Hn.
    + by rewrite list_lookup_insert_eq.
    + rewrite lookup_app_r by lia.
      rewrite lookup_app_r; rewrite length_replicate; [|lia].
      by replace (n - length l - (n - length l)) with 0 by lia.
  - by rewrite lookup_insert_eq.
  - by rewrite lookup_insert_eq.
Qed.

Lemma get_put_ne x k c y k' :
  put x (Field k) c = Ok y → k ≠ k' → get y (Field k') = get x (Field k').
Proof.
  destruct x as [| |b0|z0|str|l p|m]; simpl; intros [=] Hne; subst; simpl.
  - by rewrite lookup_insert_ne.
  - by rewrite lookup_insert_ne.
Qed.

Lemma put_put_eq x s c y c' : put x s c = Ok y → put y s c' = put x s c'.
Proof.
  destruct x as [| |b0|z0|str|l p|m], s as [k|n]; simpl; intros [=]; subst; simpl.
  - by rewrite insert_insert_eq.
  - do 2 f_equal. destruct (decide (n < length l)) as [Hn|Hn].
    + rewrite length_insert. rewrite decide_True by done.
      by rewrite list_insert_insert_eq.
    + rewrite !length_app, length_replicate. simpl.
      rewrite decide_True by lia.
      rewrite insert_app_r_alt by lia.
      rewrite insert_app_r_alt; rewrite length_replicate; [|lia].
      by replace (n - length l - (n - length l)) with 0 by lia.
  - by rewrite insert_insert_eq.
  - by rewrite insert_insert_eq.
Qed.

Lemma put_put_comm x k c y k' c' x' :
  put x (Field k) c = Ok y → put x (Field k') c' = Ok x' → k ≠ k' →
  ∃ y', put y (Field k') c' = Ok y' ∧ put x' (Field k) c = Ok y'.
Proof.
  destruct x as [| |b0|z0|str|l p|m]; simpl; intros [=] [=] Hne; subst; simpl.
  - eexists; split; [done|]. by rewrite insert_insert_ne.
  - eexists; split; [done|]. by rewrite insert_insert_ne.
Qed.

(** A read that yields an object or an array is a read of a stored property:
    writing the same property afterwards cannot fail. *)
Lemma get_ref_put x s c c' :
  get x s = Ok c → is_ref c = true → ∃ y, put x s c' = Ok y.
Proof.
  intros Hg Hc. apply put_is_ref_Ok.
  destruct x as [| |b0|z0|str|l p|m], s as [k|n]; simpl in *; try done;
    injection Hg as <-; try done.
  by destruct (String.get n str).
Qed.

(** ** Reading and writing along paths *)

Lemma set_path_cons x s r v y :
  set_path x (s :: r) v = Ok y ↔
  ∃ c c', get x s = Ok c ∧ set_path c r v = Ok c' ∧ put x s c' = Ok y.
Proof.
  simpl. rewrite bind_Ok. split.
  - intros (c & Hc & H). apply bind_Ok in H as (c' & Hc' & H). eauto.
  - intros (c & c' & Hc & Hc' & H). exists c. split; [done|].
    apply bind_Ok. eauto.
Qed.

Lemma set_path_singleton x s v : set_path x [s] v = put x s v.
Proof. destruct x, s; reflexivity. Qed.

Lemma set_path_is_ref x s r v y :
  set_path x (s :: r) v = Ok y → is_ref x = true ∧ is_ref y = true.
Proof.
  rewrite set_path_cons. intros (c & c' & _ & _ & H). by eapply put_is_ref.
Qed.

(** What was written is read back. *)
Lemma get_path_set_path_eq x p v y :
  set_path x p v = Ok y → get_path y p = Ok v.
Proof.
  revert x y. induction p as [|s r IH]; intros x y.
  - simpl. by intros [= ->].
  - rewrite set_path_cons. intros (c & c' & Hc & Hc' & H). simpl.
    rewrite (get_put_eq _ _ _ _ H). simpl. eauto.
Qed.

(** After a write, every proper prefix of the written path still leads to an
    object or an array. *)
Lemma get_path_set_path_prefix x p s r v y :
  set_path x (p ++ s :: r) v = Ok y →
  ∃ c, get_path y p = Ok c ∧ is_ref c = true.
Proof.
  revert x y. induction p as [|s0 p IH]; intros x y.
  - rewrite app_nil_l. intros H. exists y. split; [done|].
    by destruct (set_path_is_ref _ _ _ _ _ H).
  - rewrite <-app_comm_cons, set_path_cons.
    intros (c & c' & Hc & Hc' & H). simpl.
    rewrite (get_put_eq _ _ _ _ H). simpl. eauto.
Qed.

Lemma diverge_sym p q : diverge p q = diverge q p.
Proof.
  revert q. induction p as [|s p IH]; intros [|s' q]; simpl; try done.
  destruct (decide (s = s')) as [->|Hne].
  - rewrite decide_True by done. apply IH.
  - rewrite decide_False by done. by destruct s, s'.
Qed.

(** Frame: a write leaves every diverging path as it was. *)
Lemma get_path_set_path_diverge x p v y q :
  set_path x p v = Ok y → diverge p q = true → get_path y q = get_path x q.
Proof.
  revert x y q. induction p as [|s r IH]; intros x y [|s' r']; simpl; try done.
  intros H Hd. apply set_path_cons in H as (c & c' & Hc & Hc' & H).
  destruct (decide (s = s')) as [<-|Hne].
  - rewrite (get_put_eq _ _ _ _ H), Hc. simpl. eauto.
  - destruct s as [k|], s' as [k'|]; try done.
    rewrite (get_put_ne _ _ _ _ k' H) by congruence. done.
Qed.

(** A second write to the same path overrides the first. *)
Lemma set_path_set_path_eq x p v y v' :
  set_path x p v = Ok y → set_path y p v' = set_path x p v'.
Proof.
  revert x y. induction p as [|s r IH]; intros x y; [done|].
  rewrite set_path_cons. intros (c & c' & Hc & Hc' & H). simpl.
  rewrite (get_put_eq _ _ _ _ H), Hc. simpl.
  rewrite (IH _ _ Hc'). destruct (set_path c r v'); simpl; [|done].
  by eapply put_put_eq.
Qed.

Lemma set_path_idem x p v y : set_path x p v = Ok y → set_path y p v = Ok y.
Proof. intros H. by rewrite (set_path_set_path_eq _ _ _ _ _ H). Qed.

(** Writes to diverging paths commute. *)
Lemma set_path_set_path_diverge x p v y q u x' :
  set_path x p v = Ok y → set_path x q u = Ok x' → diverge p q = true →
  ∃ y', set_path y q u = Ok y' ∧ set_path x' p v = Ok y'.
Proof.
  revert x y q x'. induction p as [|s r IH]; intros x y [|s' r'] x'; simpl diverge; try done.
  rewrite !set_path_cons.
  intros (c & cy & Hc & Hcy & Hy) (d & dx & Hd & Hdx & Hx) Hdiv.
  destruct (decide (s = s')) as [<-|Hne].
  - assert (d = c) as -> by congruence.
    destruct (IH _ _ _ _ Hcy Hdx Hdiv) as (e & He1 & He2).
    destruct (put_is_ref_Ok x s e) as [y' Hy']; [by destruct (put_is_ref _ _ _ _ Hy)|].
    exists y'. split; apply set_path_cons.
    + exists cy, e. split_and!; [by eapply get_put_eq|done|].
      by rewrite (put_put_eq _ _ _ _ _ Hy).
    + exists dx, e. split_and!; [by eapply get_put_eq|done|].
      by rewrite (put_put_eq _ _ _ _ _ Hx).
  - destruct s as [k|], s' as [k'|]; try done.
    assert (k ≠ k') by congruence.
    destruct (put_put_comm _ _ _ _ _ _ _ Hy Hx) as (y' & Hy1 & Hy2); [done|].
    exists y'. split; apply set_path_cons.
    + exists d, dx. split_and!; [|done..].
      by rewrite (get_put_ne _ _ _ _ _ Hy).
    + exists c, cy. split_and!; [|done..].
      by rewrite (get_put_ne _ _ _ _ _ Hx).
Qed.

(** ** Double precision *)

(** [round_even] is the integer part or the integer after it. *)
Lemma round_even_floor q : (Qfloor q ≤ round_even q ≤ Qfloor q + 1)%Z.
Proof.
  unfold round_even. destruct (_ ?= _)%Q; [destruct (Z.even _)|..]; lia.
Qed.

(** Rounding to the nearest integer does not cross an integer. *)
Lemma round_even_ge q N : (inject_Z N <= q)%Q → (N ≤ round_even q)%Z.
Proof.
  intros H. apply Qfloor_resp_le in H. rewrite Qfloor_Z in H.
  pose proof (round_even_floor q). lia.
Qed.

Lemma round_even_le q N : (q <= inject_Z N)%Q → (round_even q ≤ N)%Z.
Proof.
  intros H. pose proof (round_even_floor q) as Hf.
  destruct (decide (Qfloor q + 1 ≤ N)%Z) as [|Hn]; [lia|].
  assert (Qfloor q = N) as Hq.
  { apply Qfloor_resp_le in H. rewrite Qfloor_Z in H. lia. }
  unfold round_even. rewrite Hq.
  assert ((q - inject_Z N ?= 1 # 2)%Q = Lt) as -> by (apply (proj1 (Qlt_alt _ _)); lra). done.
Qed.

(** More than a half above an integer rounds above it. *)
Lemma round_even_gt q N : (inject_Z N + (1 # 2) < q)%Q → (N + 1 ≤ round_even q)%Z.
Proof.
  intros H. pose proof (round_even_floor q) as Hf.
  assert (N ≤ Qfloor q)%Z as Hn.
  { rewrite <-(Qfloor_Z N). apply Qfloor_resp_le. lra. }
  destruct (decide (N + 1 ≤ Qfloor q)%Z) as [|Hn']; [lia|].
  assert (Qfloor q = N) as Hq by lia.
  unfold round_even. rewrite Hq.
  assert ((q - inject_Z N ?= 1 # 2)%Q = Gt) as -> by (apply (proj1 (Qgt_alt _ _)); lra). lia.
Qed.

Lemma pow2_pos e : (0 < pow2 e)%Q.
Proof.
  unfold pow2. destruct (0 <=? e)%Z eqn:He.
  - rewrite <-(Zlt_Qlt 0). apply Z.pow_pos_nonneg; lia.
  - apply Qinv_lt_0_compat. rewrite <-(Zlt_Qlt 0). apply Z.pow_pos_nonneg; lia.
Qed.

Lemma pow2_neg s : (0 ≤ s)%Z → (pow2 (- s) * inject_Z (2 ^ s) == 1)%Q.
Proof.
  intros Hs. unfold pow2. destruct (0 <=? - s)%Z eqn:He.
  - assert (s = 0%Z) as -> by lia. reflexivity.
  - rewrite Z.opp_involutive. rewrite Qmult_comm. apply Qmult_inv_r.
    assert (0 < 2 ^ s)%Z as H by (apply Z.pow_pos_nonneg; lia).
    rewrite (Zlt_Qlt 0) in H. intros Hz. rewrite Hz in H. by apply Qlt_irrefl in H.
Qed.

(** The lower bound of [ilog2], where the logarithm is not negative. *)
Lemma ilog2_lower q :
  (0 ≤ ilog2 q)%Z → (inject_Z (2 ^ ilog2 q) <= Qabs q)%Q.
Proof.
  destruct q as [n d]. unfold ilog2, Qabs, Qle. cbn [Qnum Qden inject_Z].
  remember (Z.log2 (Z.abs n) - Z.log2 (Z.pos d))%Z as e eqn:Ee.
  rewrite Z.mul_1_r.
  destruct (if (0 <=? e)%Z then _ else _) eqn:Ht.
  - intros He. destruct (Z.leb_spec 0 e). 2: lia. by apply Z.leb_le in Ht.
  - intros He.
    assert (0 < Z.abs n)%Z as Hn.
    { destruct (decide (Z.abs n = 0)%Z) as [Hz|]; [|lia].
      rewrite Hz in *. rewrite (Z.log2_nonpos 0) in Ee by lia. pose proof (Z.log2_nonneg (Z.pos d)). lia. }
    pose proof (Z.log2_spec (Z.abs n) Hn) as [Hn1 _].
    pose proof (Z.log2_spec (Z.pos d) eq_refl) as [_ Hd2].
    pose proof (Z.log2_nonneg (Z.pos d)) as Hd0.
    assert (2 ^ (e - 1) * 2 ^ Z.succ (Z.log2 (Z.pos d)) = 2 ^ Z.log2 (Z.abs n))%Z as Hp.
    { rewrite <-Z.pow_add_r by lia. f_equal. lia. }
    assert (0 < 2 ^ (e - 1))%Z by (apply Z.pow_pos_nonneg; lia).
    nia.
Qed.

Lemma Qdiv_pow2 q e P : (pow2 e * P == 1)%Q → (q / pow2 e == q * P)%Q.
Proof.
  intros H. pose proof (pow2_pos e) as Hu.
  unfold Qdiv. apply Qmult_comp; [reflexivity|].
  apply (Qmult_inj_l _ _ (pow2 e)); [lra|].
  rewrite Qmult_inv_r by lra. by symmetry.
Qed.

(** Rounding a number of magnitude below [2^53] to a double: the double is on
    the same side of every integer, and strictly above an integer that the
    number exceeds by [1 / B], for a [B] that keeps the product of the
    magnitude and [B] below [2^53]. *)
Lemma binary64_near (q : Q) (B : Z) :
  ¬ (q == 0)%Q → (0 < B ≤ 2 ^ 53)%Z →
  (Qabs q * inject_Z B < inject_Z (2 ^ 53))%Q →
  ∃ r, binary64 q = Num (Qred r)
       ∧ (∀ N : Z, (inject_Z N <= q)%Q → (inject_Z N <= r)%Q)
       ∧ (∀ N : Z, (q <= inject_Z N)%Q → (r <= inject_Z N)%Q)
       ∧ (∀ N : Z, (inject_Z N + / inject_Z B <= q)%Q → (inject_Z N < r)%Q).
Proof.
  intros Hq [HB HB53] Hbound.
  assert (0 <= Qabs q)%Q as Habs0 by apply Qabs_nonneg.
  assert (1 <= inject_Z B)%Q as HB1 by (rewrite <-(Zle_Qle 1); lia).
  assert (Qabs q < inject_Z (2 ^ 53))%Q as Hq53 by nra.
  set (el := ilog2 q).
  assert (0 ≤ el → el ≤ 52 ∧ B < 2 ^ (53 - el))%Z as Hel.
  { intros H0. pose proof (ilog2_lower q H0) as Hl. fold el in Hl.
    assert (inject_Z (2 ^ el) < inject_Z (2 ^ 53))%Q as H1 by lra.
    rewrite <-Zlt_Qlt in H1. apply Z.pow_lt_mono_r_iff in H1; [|lia..].
    split; [lia|].
    assert (inject_Z (2 ^ el) * inject_Z B < inject_Z (2 ^ 53))%Q as H2 by nra.
    rewrite <-inject_Z_mult, <-Zlt_Qlt in H2.
    replace (2 ^ 53)%Z with (2 ^ el * 2 ^ (53 - el))%Z in H2
      by (rewrite <-Z.pow_add_r by lia; f_equal; lia).
    assert (0 < 2 ^ el)%Z by (apply Z.pow_pos_nonneg; lia). nia. }
  set (eu := Z.max (el - 52) (-1074)).
  set (s := (- eu)%Z).
  assert (0 ≤ s ∧ B < 2 ^ (s + 1))%Z as [Hs HBs].
  { subst s eu. destruct (Z.max_spec (el - 52) (-1074)) as [[? ->]|[? ->]].
    - split; [lia|]. eapply Z.le_lt_trans; [exact HB53|].
      apply Z.pow_lt_mono_r; lia.
    - destruct (decide (0 ≤ el)%Z) as [H0|H0].
      + destruct (Hel H0). split; [lia|]. by replace (- (el - 52) + 1)%Z with (53 - el)%Z by lia.
      + split; [lia|]. eapply Z.le_lt_trans; [exact HB53|].
        apply Z.pow_lt_mono_r; lia. }
  set (P := inject_Z (2 ^ s)).
  assert (pow2 eu * P == 1)%Q as HuP.
  { replace eu with (- s)%Z by (subst s; lia). by apply pow2_neg. }
  pose proof (pow2_pos eu) as Hu.
  assert (1 <= P)%Q as HP.
  { subst P. rewrite <-(Zle_Qle 1). pose proof (Z.pow_pos_nonneg 2 s). lia. }
  assert (inject_Z B < 2 * P)%Q as HBP.
  { subst P. change 2%Q with (inject_Z 2). rewrite <-inject_Z_mult, <-Zlt_Qlt.
    rewrite Z.pow_add_r, Z.pow_1_r in HBs by lia. lia. }
  pose proof (Qdiv_pow2 q eu P HuP) as Ht.
  set (M := round_even (q / pow2 eu)).
  assert (∀ N : Z, (inject_Z N <= q)%Q → (inject_Z N <= inject_Z M * pow2 eu)%Q) as H1.
  { intros N HN.
    assert (N * 2 ^ s ≤ M)%Z as HM.
    { apply round_even_ge. rewrite Ht, inject_Z_mult. fold P. nra. }
    rewrite Zle_Qle, inject_Z_mult in HM. fold P in HM. nra. }
  assert (∀ N : Z, (q <= inject_Z N)%Q → (inject_Z M * pow2 eu <= inject_Z N)%Q) as H2.
  { intros N HN.
    assert (M ≤ N * 2 ^ s)%Z as HM.
    { apply round_even_le. rewrite Ht, inject_Z_mult. fold P. nra. }
    rewrite Zle_Qle, inject_Z_mult in HM. fold P in HM. nra. }
  exists (inject_Z M * pow2 eu)%Q. split_and!; [|done..|].
  - unfold binary64. destruct (Qeq_bool q 0) eqn:E; [by apply Qeq_bool_eq in E|].
    fold el eu M.
    destruct (Qle_bool _ _) eqn:Ho; [|done].
    apply Qle_bool_imp_le in Ho. exfalso.
    assert (q <= inject_Z (2 ^ 53))%Q as Hhi.
    { eapply Qle_trans; [apply Qle_Qabs|]. lra. }
    assert (inject_Z (- 2 ^ 53) <= q)%Q as Hlo.
    { rewrite inject_Z_opp. pose proof (Qle_Qabs (- q)) as H. rewrite Qabs_opp in H. lra. }
    apply H2 in Hhi. apply H1 in Hlo. rewrite inject_Z_opp in Hlo.
    assert (Qabs (inject_Z M * pow2 eu) <= inject_Z (2 ^ 53))%Q as Hr
      by (apply Qabs_Qle_condition; split; lra).
    assert (inject_Z (2 ^ 53) < pow2 1024)%Q as Hlt.
    { unfold pow2. cbn [Z.leb Z.compare]. rewrite <-Zlt_Qlt. apply Z.pow_lt_mono_r; lia. }
    lra.
  - intros N HN.
    assert (N * 2 ^ s + 1 ≤ M)%Z as HM.
    { apply round_even_gt. rewrite Ht, inject_Z_mult. fold P.
      assert (0 < inject_Z B)%Q as HB0 by lra.
      assert (inject_Z B * / inject_Z B == 1)%Q as Hinv by (apply Qmult_inv_r; lra).
      assert (0 < / inject_Z B)%Q as Hi by (by apply Qinv_lt_0_compat).
      nra. }
    rewrite Zle_Qle, inject_Z_plus, inject_Z_mult in HM. fold P in HM.
    change (inject_Z 1) with 1%Q in HM.
    assert (inject_Z N * P * pow2 eu == inject_Z N)%Q as HN'
      by (rewrite <-Qmult_assoc, (Qmult_comm P), HuP; ring).
    assert (0 <= (inject_Z M - (inject_Z N * P + 1)) * pow2 eu)%Q as Hprod
      by (apply Qmult_le_0_compat; lra).
    nra.
Qed.

(** Every integer below [2^53] in magnitude is a double. *)
Lemma binary64_integer z :
  (Z.abs z < 2 ^ 53)%Z → binary64 (inject_Z z) = Num (inject_Z z).
Proof.
  intros Hz. destruct (decide (z = 0%Z)) as [->|Hz0]; [done|].
  destruct (binary64_near (inject_Z z) 1) as (r & -> & H1 & H2 & _).
  - change 0%Q with (inject_Z 0). rewrite inject_Z_injective. done.
  - lia.
  - change (Qabs (inject_Z z)) with (inject_Z (Z.abs z)).
    rewrite <-inject_Z_mult, <-Zlt_Qlt. lia.
  - f_equal. rewrite <-(inject_Z_Qred z). apply Qred_complete.
    apply Qle_antisym; [apply H2|apply H1]; apply Qle_refl.
Qed.

Lemma Qceiling_unique (x : Q) (k : Z) :
  (inject_Z (k - 1) < x)%Q → (x <= inject_Z k)%Q → Qceiling x = k.
Proof.
  intros Hlo Hhi.
  apply Qceiling_resp_le in Hhi. rewrite Qceiling_Z in Hhi.
  pose proof (Qle_ceiling x) as Hc.
  assert (inject_Z (k - 1) < inject_Z (Qceiling x))%Q as H by lra.
  rewrite <-Zlt_Qlt in H. lia.
Qed.

(** The ceiling of the double quotient of two integers below [2^53] is the
    ceiling of their quotient. *)
Lemma div_ceiling a b k :
  (0 < b < 2 ^ 53)%Z → (Z.abs a < 2 ^ 53)%Z → ((k - 1) * b < a ≤ k * b)%Z →
  Math_ceil (div a b) = Num k.
Proof.
  intros Hb Ha Hk. unfold div.
  rewrite (binary64_integer a), (binary64_integer b) by lia.
  assert (0 < inject_Z b)%Q as Hb0 by (rewrite <-(Zlt_Qlt 0); lia).
  destruct (Qeq_bool (inject_Z b) 0) eqn:E; [apply Qeq_bool_eq in E; lra|].
  assert (inject_Z a / inject_Z b * inject_Z b == inject_Z a)%Q as Hq
    by (rewrite Qmult_comm; apply Qmult_div_r; lra).
  assert (inject_Z b * / inject_Z b == 1)%Q as Hinv by (apply Qmult_inv_r; lra).
  destruct (decide (a = 0%Z)) as [->|Ha0].
  - assert (k = 0%Z) as -> by nia.
    unfold binary64.
    assert (Qeq_bool (inject_Z 0 / inject_Z b) 0 = true) as ->; [|done].
    apply Qeq_eq_bool. unfold Qdiv. apply Qmult_0_l.
  - destruct (binary64_near (inject_Z a / inject_Z b) b) as (r & -> & _ & H2 & H3).
    + intros H0. rewrite H0, Qmult_0_l in Hq.
      change 0%Q with (inject_Z 0) in Hq. rewrite inject_Z_injective in Hq. congruence.
    + lia.
    + rewrite <-(Qabs_pos (inject_Z b)) at 2 by lra.
      rewrite <-Qabs_Qmult, Hq.
      change (Qabs (inject_Z a)) with (inject_Z (Z.abs a)). rewrite <-Zlt_Qlt. lia.
    + cbn [Math_ceil]. f_equal. rewrite (Qceiling_comp _ _ (Qred_correct r)).
      apply Qceiling_unique.
      * apply H3. apply Qle_shift_div_l; [done|].
        rewrite Qmult_plus_distr_l, (Qmult_comm (/ _)), Hinv, <-inject_Z_mult.
        change 1%Q with (inject_Z 1). rewrite <-inject_Z_plus, <-Zle_Qle. lia.
      * apply H2. apply Qle_shift_div_r; [done|].
        rewrite <-inject_Z_mult, <-Zle_Qle. lia.
Qed.

Lemma pow2_le_1 e : (e ≤ 0)%Z → (pow2 e <= 1)%Q.
Proof.
  intros He. pose proof (pow2_neg (- e) ltac:(lia)) as H.
  rewrite Z.opp_involutive in H. pose proof (pow2_pos e) as Hu.
  assert (1 <= inject_Z (2 ^ (- e)))%Q as HP.
  { rewrite <-(Zle_Qle 1). pose proof (Z.pow_pos_nonneg 2 (- e)). lia. }
  nra.
Qed.

Lemma pow2_le_abs q :
  (1 <= Qabs q)%Q → (pow2 (Z.max (ilog2 q - 52) (-1074)) <= Qabs q)%Q.
Proof.
  intros Hq. set (eu := Z.max _ _).
  destruct (decide (eu ≤ 0)%Z) as [He|He].
  - pose proof (pow2_le_1 eu He). lra.
  - assert (eu = ilog2 q - 52)%Z as Heu by lia.
    pose proof (ilog2_lower q ltac:(lia)) as Hl.
    eapply Qle_trans; [|exact Hl].
    unfold pow2. destruct (Z.leb_spec 0 eu); [|lia].
    rewrite <-Zle_Qle. apply Z.pow_le_mono_r; lia.
Qed.

(** Rounding keeps the sign of a number of magnitude one or more. *)
Lemma binary64_positive q :
  (1 <= q)%Q →
  binary64 q = Infinity ∨ ∃ x, binary64 q = Num x ∧ (0 < x)%Q.
Proof.
  intros Hq. unfold binary64.
  destruct (Qeq_bool q 0) eqn:E; [apply Qeq_bool_eq in E; lra|].
  set (eu := Z.max _ _).
  pose proof (pow2_le_abs q) as Hu. fold eu in Hu.
  rewrite Qabs_pos in Hu by lra. specialize (Hu Hq).
  pose proof (pow2_pos eu) as Hu0.
  assert (1 ≤ round_even (q / pow2 eu))%Z as HM.
  { apply round_even_ge. apply Qle_shift_div_l; [done|].
    change (inject_Z 1) with 1%Q. lra. }
  destruct (Qle_bool _ _).
  - left. destruct (Qle_bool 0 q) eqn:E0; [done|].
    assert (Qle_bool 0 q = true) by (apply Qle_bool_iff; lra). congruence.
  - right. eexists. split; [done|].
    rewrite Qred_correct.
    rewrite Zle_Qle in HM. change (inject_Z 1) with 1%Q in HM. nra.
Qed.

Lemma binary64_negative q :
  (q <= - (1))%Q →
  binary64 q = NegInfinity ∨ ∃ x, binary64 q = Num x ∧ (x < 0)%Q.
Proof.
  intros Hq. unfold binary64.
  destruct (Qeq_bool q 0) eqn:E; [apply Qeq_bool_eq in E; lra|].
  set (eu := Z.max _ _).
  pose proof (pow2_le_abs q) as Hu. fold eu in Hu.
  rewrite Qabs_neg in Hu by lra. specialize (Hu ltac:(lra)).
  pose proof (pow2_pos eu) as Hu0.
  assert (round_even (q / pow2 eu) ≤ -1)%Z as HM.
  { apply round_even_le. apply Qle_shift_div_r; [done|].
    change (inject_Z (-1)) with (- (1))%Q. lra. }
  destruct (Qle_bool _ _).
  - left. destruct (Qle_bool 0 q) eqn:E0; [|done].
    apply Qle_bool_imp_le in E0. lra.
  - right. eexists. split; [done|].
    rewrite Qred_correct.
    rewrite Zle_Qle in HM. change (inject_Z (-1)) with (- (1))%Q in HM. nra.
Qed.

(** Division by zero. *)
Lemma div_zero a :
  div a 0 = if decide (a = 0%Z) then NaN
            else if decide (0 < a)%Z then Infinity else NegInfinity.
Proof.
  unfold div. change (binary64 (inject_Z 0)) with (@Num Q 0%Q).
  destruct (decide (a = 0%Z)) as [->|Ha]; [done|].
  destruct (decide (0 < a)%Z) as [Hp|Hp].
  - destruct (binary64_positive (inject_Z a)) as [->|(x & -> & Hx)].
    + rewrite <-(Zle_Qle 1). lia.
    + done.
    + change (Qeq_bool 0%Q 0%Q) with true. cbn match.
      destruct (Qeq_bool x 0) eqn:E; [apply Qeq_bool_eq in E; lra|].
      destruct (Qle_bool 0 x) eqn:E0; [done|].
      assert (Qle_bool 0 x = true) by (apply Qle_bool_iff; lra). congruence.
  - destruct (binary64_negative (inject_Z a)) as [->|(x & -> & Hx)].
    + change (- (1))%Q with (inject_Z (-1)). rewrite <-Zle_Qle. lia.
    + done.
    + change (Qeq_bool 0%Q 0%Q) with true. cbn match.
      destruct (Qeq_bool x 0) eqn:E; [apply Qeq_bool_eq in E; lra|].
      destruct (Qle_bool 0 x) eqn:E0; [|done].
      apply Qle_bool_imp_le in E0. lra.
Qed.

(** Up to [2^53] an integer prints as its decimal digits. *)
Lemma toString_safe z : (Z.abs z ≤ 2 ^ 53)%Z → toString (Num z) = pretty z.
Proof.
  intros Hz. unfold toString. by destruct (Z.leb_spec (Z.abs z) (2 ^ 53)); [|lia].
Qed.

(** The model on doubles that are known: a tenth, the third of
    13510798882111492, which is rounded down to an integer, the largest double
    and the first number that overflows, and the printed forms of [2^53 + 1],
    [2^64], [10^21] and [2^70]. *)
Example div_tenth : div 1 10 = Num (3602879701896397 # 36028797018963968)%Q.
Proof. by vm_compute. Qed.

Example div_third : div 13510798882111492 3 = Num (inject_Z 4503599627370497).
Proof. by vm_compute. Qed.

Example binary64_largest :
  binary64 (inject_Z (2 ^ 1024 - 2 ^ 970 - 1))
  = Num (inject_Z (2 ^ 1024 - 2 ^ 971))
  ∧ binary64 (inject_Z (2 ^ 1024 - 2 ^ 970)) = Infinity.
Proof. split; by vm_compute. Qed.

Example toString_large :
  toString (Num (2 ^ 53 + 1)%Z) = "9007199254740992"
  ∧ toString (Num (2 ^ 64)%Z) = "18446744073709552000"
  ∧ toString (Num (10 ^ 21)%Z) = "1e+21"
  ∧ toString (Num (- 2 ^ 70)%Z) = "-1.1805916207174113e+21".
Proof. split_and!; by vm_compute. Qed.

(** ** Configuration resolution *)

Section Resolution.

Variable stack : string.
Variable temporalConfig : TemporalConfig.t.

Lemma engineSettings_postgres e :
  postgres_engine e → engineSettings e = Ok ("postgresql", 5432%Z, "POSTGRES", ∅).
Proof. by intros [-> | ->]. Qed.

Lemma engineSettings_mysql e :
  mysql_engine e →
  engineSettings e
  = Ok ("mysql", 3306%Z, "MYSQL", {["MYSQL_TX_ISOLATION_COMPAT" := Lit "true"]}).
Proof. by intros [-> | ->]. Qed.

Lemma engineSettings_other e :
  ¬ postgres_engine e → ¬ mysql_engine e →
  engineSettings e = Throw (InvalidConfiguration "invalid RDS config").
Proof.
  unfold postgres_engine, mysql_engine, engineSettings. intros Hp Hm.
  destruct (String.eqb_spec e "postgres"); [tauto|].
  destruct (String.eqb_spec e "aurora-postgresql"); [tauto|].
  destruct (String.eqb_spec e "mysql"); [tauto|].
  destruct (String.eqb_spec e "aurora-mysql"); [tauto|]. done.
Qed.

Lemma rdsPersistence_invalid name config securityGroup rs :
  ¬ postgres_engine (RDSPersistenceConfig.Engine config) →
  ¬ mysql_engine (RDSPersistenceConfig.Engine config) →
  rdsPersistence temporalConfig name config securityGroup rs
  = (Throw (InvalidConfiguration "invalid RDS config"), rs).
Proof.
  intros Hp Hm. unfold rdsPersistence.
  by rewrite engineSettings_other.
Qed.

(** The entries of a relational persistence, by engine family. *)
Lemma rdsPersistence_postgres name config securityGroup rs :
  postgres_engine (RDSPersistenceConfig.Engine config) →
  ∃ m rs' endpoint,
    rdsPersistence temporalConfig name config securityGroup rs = (Ok m, rs') ∧
    m = <["DBNAME" := Lit "temporal_persistence"]>
        (<["POSTGRES_PWD" := Lit "temporal"]>
        (<["POSTGRES_USER" := Lit "temporal"]>
        (<["POSTGRES_SEEDS" := Deferred endpoint]>
        (<["DB_PORT" := Lit "5432"]>
        (<["DB" := Lit "postgresql"]>
        (<["NUM_HISTORY_SHARDS" :=
             Lit (toString (Num (HistoryConfig.Shards
                                   (TemporalConfig.History temporalConfig))))]>
         ∅)))))).
Proof.
  intros He. unfold rdsPersistence. rewrite engineSettings_postgres by done.
  unfold mbind, Pulumi_bind, mret, Pulumi_ret, register. simpl.
  repeat match goal with |- context [if ?b then _ else _] => destruct b end;
    simpl; do 3 eexists; (split; [reflexivity|]); by rewrite (left_id_L ∅ (∪)).
Qed.

Lemma rdsPersistence_mysql name config securityGroup rs :
  mysql_engine (RDSPersistenceConfig.Engine config) →
  ∃ m rs' endpoint,
    rdsPersistence temporalConfig name config securityGroup rs = (Ok m, rs') ∧
    m = <["MYSQL_TX_ISOLATION_COMPAT" := Lit "true"]>
        (<["DBNAME" := Lit "temporal_persistence"]>
        (<["MYSQL_PWD" := Lit "temporal"]>
        (<["MYSQL_USER" := Lit "temporal"]>
        (<["MYSQL_SEEDS" := Deferred endpoint]>
        (<["DB_PORT" := Lit "3306"]>
        (<["DB" := Lit "mysql"]>
        (<["NUM_HISTORY_SHARDS" :=
             Lit (toString (Num (HistoryConfig.Shards
                                   (TemporalConfig.History temporalConfig))))]>
         ∅))))))).
Proof.
  intros He. unfold rdsPersistence. rewrite engineSettings_mysql by done.
  unfold mbind, Pulumi_bind, mret, Pulumi_ret, register. simpl.
  repeat match goal with |- context [if ?b then _ else _] => destruct b end;
    simpl; do 3 eexists; (split; [reflexivity|]);
    by rewrite <-insert_union_singleton_l.
Qed.

Lemma createAdvancedVisibility_Ok config cluster rs :
  ∃ visibility rs',
    createAdvancedVisibility config cluster rs = (Ok visibility, rs').
Proof.
  unfold createAdvancedVisibility.
  destruct (config ≫= VisibilityConfig.OpenSearch); by do 2 eexists.
Qed.

(** [createPersistence] on a populated relational variant: the entries of
    [rdsPersistence], completed by those of the visibility. *)
Lemma createPersistence_RDS rds cassandra visibility cluster rs :
  createPersistence stack temporalConfig
    (PersistenceConfig.mk (Some rds) cassandra visibility) cluster rs
  = match rdsPersistence temporalConfig stack rds (Cluster.securityGroup cluster) rs with
    | (Ok persistence, rs') =>
        match createAdvancedVisibility visibility cluster rs' with
        | (Ok vis, rs'') => (Ok (vis ∪ persistence), rs'')
        | (Throw e, rs'') => (Throw e, rs'')
        end
    | (Throw e, rs') => (Throw e, rs')
    end.
Proof.
  unfold createPersistence, mbind, Pulumi_bind, mret, Pulumi_ret. simpl.
  by destruct (rdsPersistence _ _ _ _ _) as [[p|e] rs'].
Qed.

Lemma createPersistence_Cassandra cassandra visibility cluster rs :
  createPersistence stack temporalConfig
    (PersistenceConfig.mk None (Some cassandra) visibility) cluster rs
  = match cassandraPersistence temporalConfig stack cassandra cluster rs with
    | (Ok persistence, rs') =>
        match createAdvancedVisibility visibility cluster rs' with
        | (Ok vis, rs'') => (Ok (vis ∪ persistence), rs'')
        | (Throw e, rs'') => (Throw e, rs'')
        end
    | (Throw e, rs') => (Throw e, rs')
    end.
Proof. reflexivity. Qed.

Lemma createPersistence_none visibility cluster rs :
  createPersistence stack temporalConfig
    (PersistenceConfig.mk None None visibility) cluster rs
  = (Throw (InvalidConfiguration "invalid persistence config"), rs).
Proof. reflexivity. Qed.

Lemma createCluster_none persistenceConfig rs :
  createCluster stack (ClusterConfig.mk None) persistenceConfig rs
  = (Throw (InvalidConfiguration "invalid cluster config"), rs).
Proof. reflexivity. Qed.

Lemma createCluster_EKS eks persistenceConfig rs :
  ∃ cluster rs',
    createCluster stack (ClusterConfig.mk (Some eks)) persistenceConfig rs
    = (Ok cluster, rs').
Proof.
  unfold createCluster, eksCluster, mbind, Pulumi_bind. simpl.
  destruct (PersistenceConfig.Cassandra persistenceConfig); by do 2 eexists.
Qed.

End Resolution.

(** ** The soak-test sizing *)

(** The ceiling of a quotient of integers, in integers. *)
Lemma ceiling_quotient (a b : Z) :
  (0 < b)%Z →
  let k := ((a + b - 1) / b)%Z in
  ((k - 1) * b < a ≤ k * b)%Z ∧ (Z.abs k ≤ Z.abs a)%Z.
Proof.
  intros Hb k.
  pose proof (Z.div_mod (a + b - 1) b ltac:(lia)) as Hdiv.
  pose proof (Z.mod_pos_bound (a + b - 1) b Hb) as Hmod.
  fold k in Hdiv. split; nia.
Qed.

(** Within the integers that doubles hold exactly, the division and the
    ceiling of [soakTestConfig] lose nothing, and the result prints as its
    decimal digits. *)
Lemma soakTestConfig_entry temporalConfig (k : Z) :
  let ConcurrentWorkflows :=
    SoakTestConfig.ConcurrentWorkflows (TemporalConfig.SoakTest temporalConfig) in
  let Pods := FrontendConfig.Pods (TemporalConfig.Frontend temporalConfig) in
  (0 < Pods < 2 ^ 53)%Z → (Z.abs ConcurrentWorkflows < 2 ^ 53)%Z →
  ((k - 1) * Pods < ConcurrentWorkflows ≤ k * Pods)%Z →
  soakTestConfig temporalConfig !! "CONCURRENT_WORKFLOWS" = Some (Lit (pretty k)).
Proof.
  intros a b Hb Ha Hk. unfold soakTestConfig. fold a b.
  rewrite lookup_singleton, (div_ceiling a b k) by done.
  rewrite toString_safe; [done|]. nia.
Qed.

(** ** Transformations as guarded actions *)

Lemma get_path_singleton x s : get_path x [s] = get x s.
Proof. simpl. by destruct (get x s). Qed.

Lemma get_path_app x p q :
  get_path x (p ++ q) = get_path x p ≫= λ c, get_path c q.
Proof.
  revert x. induction p as [|s p IH]; intros x; [done|].
  simpl. destruct (get x s); simpl; [apply IH|done].
Qed.

Lemma exec_app acts acts' obj :
  exec (acts ++ acts') obj = exec acts obj ≫= exec acts'.
Proof.
  revert obj. induction acts as [|a acts IH]; intros obj; [done|].
  simpl. destruct (run a obj); simpl; [apply IH|done].
Qed.

Lemma assign_if_actions src p obj :
  assign_if src p obj = exec (assign_action src p) obj.
Proof.
  unfold assign_if, assign_action. destruct src as [s|]; [|done].
  destruct (truthy (Some s)); [|done]. cbn [exec run]. by rewrite bind_Ok_r.
Qed.

(** Each generated transformation checks its guard and then performs its
    actions. *)
Lemma build_guard_actions g obj :
  build g obj = guard g obj ≫= λ b : bool, if b then exec (actions g) obj else Ok obj.
Proof.
  destruct g as [name replicas|name cpu memory|dedicatedValue]; cbn [build guard actions].
  - unfold scaleDeployment.
    destruct (is_target obj "Deployment" name) as [[]|]; bsimpl; [|done..].
    cbn [exec run]. by rewrite bind_Ok_r.
  - unfold setLimits.
    destruct (is_target obj "Deployment" name) as [[]|]; bsimpl; [|done..].
    cbn [exec run]. destruct (get_path obj container); bsimpl; [|done].
    rewrite exec_app, assign_if_actions.
    destruct (exec (assign_action (cpu ≫= CPULimits.request) requests_cpu) obj) as [o1|];
      bsimpl; [|done].
    rewrite exec_app, assign_if_actions.
    destruct (exec (assign_action (cpu ≫= CPULimits.limit) limits_cpu) o1) as [o2|];
      bsimpl; [|done].
    rewrite exec_app, assign_if_actions.
    destruct (exec (assign_action (memory ≫= MemoryLimits.request) requests_memory) o2)
      as [o3|]; bsimpl; [|done].
    by rewrite assign_if_actions.
  - unfold tolerateDedicated. destruct (get obj (Field "kind")) as [k|]; bsimpl; [|done].
    destruct (strict_eq_str k "Deployment"); [|done].
    cbn [exec run]. by rewrite bind_Ok_r.
Qed.

Lemma assign_action_allowed src p :
  p ∈ written_paths → Forall allowed (assign_action src p).
Proof.
  intros Hp. unfold assign_action. destruct src as [s|]; [|done].
  destruct (truthy (Some s)); [|done]. by apply Forall_singleton.
Qed.

Lemma actions_allowed g : Forall allowed (actions g).
Proof.
  destruct g as [name replicas|name cpu memory|dedicatedValue]; simpl.
  - apply Forall_singleton. unfold allowed, written_paths. set_solver.
  - apply Forall_cons; split; [done|].
    repeat apply Forall_app_2; apply assign_action_allowed;
      unfold written_paths; set_solver.
  - apply Forall_singleton. unfold allowed, written_paths. set_solver.
Qed.

Lemma plan_allowed gs obj acts : plan gs obj = Ok acts → Forall allowed acts.
Proof.
  revert acts. induction gs as [|g gs IH]; intros acts; simpl.
  - by intros [= <-].
  - intros H. inv_ok. subst. apply Forall_app_2; [|by apply IH].
    destruct a; [apply actions_allowed|done].
Qed.

(** Any two written paths are the same path or diverge, and each of them
    diverges from [container] or extends it. *)
Lemma written_paths_related p q :
  p ∈ written_paths → q ∈ written_paths → p = q ∨ diverge p q = true.
Proof.
  unfold written_paths. intros Hp Hq.
  repeat (apply elem_of_cons in Hp as [->|Hp]); [..|by apply elem_of_nil in Hp];
    repeat (apply elem_of_cons in Hq as [->|Hq]); try (by apply elem_of_nil in Hq);
    first [by left | by right].
Qed.

Lemma written_paths_container p :
  p ∈ written_paths → diverge p container = true ∨ ∃ s r, p = container ++ s :: r.
Proof.
  unfold written_paths. intros Hp.
  repeat (apply elem_of_cons in Hp as [->|Hp]); [..|by apply elem_of_nil in Hp];
    first [by left | by right; do 2 eexists].
Qed.

Lemma written_paths_guard p :
  p ∈ written_paths →
  diverge p [Field "kind"] = true ∧ diverge p [Field "metadata"] = true.
Proof.
  unfold written_paths. intros Hp.
  repeat (apply elem_of_cons in Hp as [->|Hp]); [..|by apply elem_of_nil in Hp];
    by split.
Qed.

(** *** Actions commute or override one another *)

Lemma run_idem a x y : run a x = Ok y → run a y = Ok y.
Proof.
  destruct a as [p|p v]; cbn [run].
  - intros H. inv_ok. subst. by rewrite Ha.
  - apply set_path_idem.
Qed.

(** An action [a] followed by an action [b]: when both can run on an object,
    [b] can run after [a], and either overrides it or commutes with it. *)
Lemma run_run a b x y x' :
  allowed a → allowed b → run a x = Ok y → run b x = Ok x' →
  ∃ y', run b y = Ok y' ∧ (y' = x' ∨ run a x' = Ok y').
Proof.
  destruct a as [p|p v], b as [q|q u]; cbn [allowed run]; intros Ha Hb Hy Hx.
  - inv_ok. subst. rewrite Ha1. eauto.
  - inv_ok. subst. eauto.
  - subst q. apply bind_Ok in Hx as (c & Hc & [= <-]).
    assert (∃ c', get_path y container = Ok c') as [c' Hc'].
    { destruct (written_paths_container _ Ha) as [Hd|(s & r & ->)].
      - rewrite (get_path_set_path_diverge _ _ _ _ _ Hy Hd). eauto.
      - destruct (get_path_set_path_prefix _ _ _ _ _ _ Hy) as (c' & Hc' & _). eauto. }
    rewrite Hc'. eauto.
  - destruct (written_paths_related _ _ Ha Hb) as [->|Hd].
    + exists x'. split; [|by left]. by rewrite (set_path_set_path_eq _ _ _ _ _ Hy).
    + destruct (set_path_set_path_diverge _ _ _ _ _ _ _ Hy Hx Hd) as (y' & H1 & H2).
      eauto.
Qed.

(** An action that already ran has the same effect at the end of a list of
    actions whether or not it also runs at its start. *)
Lemma run_exec_run a acts x y z w :
  allowed a → Forall allowed acts →
  run a x = Ok y → exec acts x = Ok z → run a z = Ok w →
  ∃ z', exec acts y = Ok z' ∧ run a z' = Ok w.
Proof.
  intros Ha Hacts. revert x y z. induction Hacts as [|b acts Hb _ IH]; intros x y z.
  - cbn [exec]. intros Hy [= <-] Hw.
    assert (w = y) as -> by congruence.
    exists y. split; [done|]. by eapply run_idem.
  - cbn [exec]. intros Hy Hz Hw. apply bind_Ok in Hz as (x' & Hx' & Hz).
    destruct (run_run a b x y x' Ha Hb Hy Hx') as (y' & Hy' & [->|Hc]).
    + exists z. rewrite Hy'. by split.
    + destruct (IH x' y' z Hc Hz Hw) as (z' & Hz' & Hw').
      exists z'. rewrite Hy'. by split.
Qed.

(** Running a list of actions a second time changes nothing. *)
Lemma exec_idem acts x z :
  Forall allowed acts → exec acts x = Ok z → exec acts z = Ok z.
Proof.
  revert x z. induction acts as [|a acts IH] using rev_ind; intros x z Hall.
  - done.
  - apply Forall_app in Hall as [Hacts Ha]. rewrite Forall_singleton in Ha.
    rewrite !exec_app. intros H. apply bind_Ok in H as (y & Hy & Hz).
    cbn [exec] in Hz. rewrite bind_Ok_r in Hz.
    pose proof (IH x y Hacts Hy) as Hfix.
    destruct (run_exec_run a acts y z y z Ha Hacts Hz Hfix Hz) as (z' & Hz' & Hw).
    rewrite Hz'. cbn [mbind result_bind exec]. by rewrite Hw.
Qed.

(** *** Actions leave the guards alone *)

Lemma run_guard_frame a x y :
  allowed a → run a x = Ok y →
  get y (Field "kind") = get x (Field "kind")
  ∧ get y (Field "metadata") = get x (Field "metadata").
Proof.
  destruct a as [p|p v]; cbn [allowed run]; intros Ha H.
  - inv_ok. by subst.
  - destruct (written_paths_guard _ Ha) as [Hk Hm].
    rewrite <-!get_path_singleton.
    by rewrite (get_path_set_path_diverge _ _ _ _ _ H Hk),
               (get_path_set_path_diverge _ _ _ _ _ H Hm).
Qed.

Lemma exec_guard_frame acts x y :
  Forall allowed acts → exec acts x = Ok y →
  get y (Field "kind") = get x (Field "kind")
  ∧ get y (Field "metadata") = get x (Field "metadata").
Proof.
  intros Hall. revert x. induction Hall as [|a acts Ha _ IH]; intros x; cbn [exec].
  - by intros [= <-].
  - intros H. apply bind_Ok in H as (x' & Hx' & H).
    destruct (run_guard_frame _ _ _ Ha Hx') as [<- <-]. by apply IH.
Qed.

Lemma guard_frame g x y :
  get y (Field "kind") = get x (Field "kind") →
  get y (Field "metadata") = get x (Field "metadata") →
  guard g y = guard g x.
Proof.
  intros Hk Hm. destruct g; cbn [guard]; unfold is_target; by rewrite Hk, ?Hm.
Qed.

Lemma plan_frame gs x y :
  get y (Field "kind") = get x (Field "kind") →
  get y (Field "metadata") = get x (Field "metadata") →
  plan gs y = plan gs x.
Proof.
  intros Hk Hm. induction gs as [|g gs IH]; [done|].
  cbn [plan]. by rewrite (guard_frame g x y), IH.
Qed.

(** *** One object through a list of generated transformations *)

Lemma apply_obj_plan gs obj obj' :
  apply_obj (build <$> gs) obj = Ok obj' ↔
  ∃ acts, plan gs obj = Ok acts ∧ exec acts obj = Ok obj'.
Proof.
  revert obj. induction gs as [|g gs IH]; intros obj.
  - cbn. split; [intros [= <-]; by eexists|]. by intros (acts & [= <-] & H).
  - cbn [fmap list_fmap apply_obj plan]. rewrite build_guard_actions. split.
    + intros H. apply bind_Ok in H as (o1 & Ho1 & H).
      apply bind_Ok in Ho1 as (b & Hb & Ho1). rewrite Hb. bsimpl.
      apply IH in H as (acts & Hacts & H).
      assert (Forall allowed (if b then actions g else [])) as Hall
        by (destruct b; [apply actions_allowed|done]).
      assert (exec (if b then actions g else []) obj = Ok o1) as Hex
        by (by destruct b).
      destruct (exec_guard_frame _ _ _ Hall Hex) as [Hk Hm].
      rewrite <-(plan_frame gs obj o1 Hk Hm), Hacts. bsimpl.
      eexists. split; [done|]. rewrite exec_app, Hex. done.
    + intros (acts & Hp & H).
      apply bind_Ok in Hp as (b & Hb & Hp). apply bind_Ok in Hp as (rest & Hrest & [= <-]).
      rewrite Hb. bsimpl. rewrite exec_app in H.
      apply bind_Ok in H as (o1 & Hex & H).
      assert (Forall allowed (if b then actions g else [])) as Hall
        by (destruct b; [apply actions_allowed|done]).
      destruct (exec_guard_frame _ _ _ Hall Hex) as [Hk Hm].
      assert ((if b then exec (actions g) obj else Ok obj) = Ok o1) as ->
        by (by destruct b).
      bsimpl. apply IH. exists rest. split; [|done].
      by rewrite (plan_frame gs obj o1 Hk Hm).
Qed.

Lemma apply_obj_idem gs obj obj' :
  apply_obj (build <$> gs) obj = Ok obj' → apply_obj (build <$> gs) obj' = Ok obj'.
Proof.
  rewrite !apply_obj_plan. intros (acts & Hp & H).
  pose proof (plan_allowed _ _ _ Hp) as Hall.
  destruct (exec_guard_frame _ _ _ Hall H) as [Hk Hm].
  exists acts. split.
  - by rewrite (plan_frame gs obj obj' Hk Hm).
  - by eapply exec_idem.
Qed.

(** *** A group through the pipeline *)

Lemma for_each_Ok t group group' :
  for_each t group = Ok group' ↔ Forall2 (λ obj obj', t obj = Ok obj') group group'.
Proof.
  revert group'. induction group as [|obj group IH]; intros group'; cbn [for_each].
  - split; [intros [= <-]; constructor|]. by intros ->%Forall2_nil_inv_l.
  - split.
    + intros H. inv_ok. subst. constructor; [done|]. by apply IH.
    + intros (obj' & rest' & Hobj & Hrest & ->)%Forall2_cons_inv_l.
      rewrite Hobj. bsimpl. apply IH in Hrest. by rewrite Hrest.
Qed.

(** The pipeline takes every object through the transformations in order. *)
Lemma apply_Ok group transforms group' :
  apply group transforms = Ok group' ↔
  Forall2 (λ obj obj', apply_obj transforms obj = Ok obj') group group'.
Proof.
  revert group group'. induction transforms as [|t transforms IH]; intros group group';
    cbn [apply apply_obj].
  - split.
    + intros [= <-]. by apply Forall_Forall2_diag, Forall_true.
    + intros H. f_equal. apply list_eq_Forall2. eapply Forall2_impl; [done|].
      simpl. congruence.
  - rewrite bind_Ok. split.
    + intros (g1 & Hg1 & H). apply for_each_Ok in Hg1. apply IH in H.
      clear IH. revert group' H.
      induction Hg1 as [|o o1 g g1 Ho _ IHg]; intros group' H.
      * by apply Forall2_nil_inv_l in H as ->.
      * apply Forall2_cons_inv_l in H as (o' & g' & Ho' & Hg' & ->).
        constructor; [|by apply IHg]. by rewrite Ho.
    + intros H.
      assert (∃ g1, Forall2 (λ obj obj', t obj = Ok obj') group g1
                    ∧ Forall2 (λ obj obj', apply_obj transforms obj = Ok obj') g1 group')
        as (g1 & Hg1 & Hg').
      { induction H as [|o o' g g' Ho _ (g1 & Hg1 & Hg')].
        - exists []. by split.
        - apply bind_Ok in Ho as (o1 & Ho1 & Ho').
          exists (o1 :: g1). by split; constructor. }
      exists g1. split; [by apply for_each_Ok|by apply IH].
Qed.

(** ** Where the transformations succeed *)

Lemma is_target_is_ref obj kind name : is_target obj kind name = Ok true → is_ref obj = true.
Proof.
  unfold is_target. destruct obj; try done; simpl; by destruct (strict_eq_str _ _).
Qed.

Lemma is_target_kind_is obj kind name :
  is_target obj kind name = Ok true → kind_is obj kind = true.
Proof.
  unfold is_target, kind_is. destruct (get obj (Field "kind")) as [k|]; [|done].
  bsimpl. by destruct (strict_eq_str k kind).
Qed.

Lemma get_is_ref obj s : is_ref obj = true → ∃ v, get obj s = Ok v.
Proof. destruct obj, s; try done; simpl; eauto. Qed.

(** A write succeeds when the holder of its last selector is an object or an
    array. *)
Lemma set_path_snoc_Ok x p s v :
  holds_ref x p → ∃ y, set_path x (p ++ [s]) v = Ok y.
Proof.
  intros (h & Hh & Href). revert x Hh. induction p as [|s0 p IH]; intros x.
  - intros [= ->]. rewrite app_nil_l, set_path_singleton. by apply put_is_ref_Ok.
  - cbn [get_path]. intros H. apply bind_Ok in H as (c & Hc & H).
    destruct (IH c H) as (c' & Hc').
    assert (is_ref c = true) as Hcref.
    { destruct (p ++ [s]) as [|s1 r] eqn:Hp; [by destruct p|].
      by destruct (set_path_is_ref _ _ _ _ _ Hc'). }
    destruct (get_ref_put x s0 c c' Hc Hcref) as (y & Hy).
    exists y. rewrite <-app_comm_cons. apply set_path_cons. eauto.
Qed.

Lemma get_path_prefix x p q h :
  get_path x (p ++ q) = Ok h → ∃ c, get_path x p = Ok c.
Proof.
  rewrite get_path_app. intros H. apply bind_Ok in H as (c & Hc & _). eauto.
Qed.

(** A write that succeeds on an object still succeeds after a write to a
    diverging path. *)
Lemma set_path_after x p v y q u :
  set_path x p v = Ok y → (∃ x', set_path x q u = Ok x') → diverge p q = true →
  ∃ y', set_path y q u = Ok y'.
Proof.
  intros Hy [x' Hx'] Hd.
  destruct (set_path_set_path_diverge _ _ _ _ _ _ _ Hy Hx' Hd) as (y' & H & _). eauto.
Qed.

(** *** The steps of [setLimits] *)

Lemma assign_if_absent src p obj : truthy src = false → assign_if src p obj = Ok obj.
Proof. unfold assign_if. destruct src; [by intros ->|done]. Qed.

Lemma assign_if_present s p obj :
  truthy (Some s) = true → assign_if (Some s) p obj = set_path obj p (VStr s).
Proof. unfold assign_if. by intros ->. Qed.

Lemma assign_if_frame src p obj obj' q :
  assign_if src p obj = Ok obj' → diverge p q = true →
  get_path obj' q = get_path obj q.
Proof.
  unfold assign_if. destruct src as [s|]; [|by intros [= ->]].
  destruct (truthy (Some s)); [|by intros [= ->]].
  apply get_path_set_path_diverge.
Qed.

Lemma assign_if_Ok src p s obj :
  holds_ref obj p → ∃ obj', assign_if src (p ++ [s]) obj = Ok obj'.
Proof.
  intros H. unfold assign_if. destruct src as [t|]; [|by eexists].
  destruct (truthy (Some t)); [|by eexists]. by apply set_path_snoc_Ok.
Qed.

Lemma assign_if_holds_ref src p obj obj' q :
  assign_if src p obj = Ok obj' → diverge p q = true →
  holds_ref obj q → holds_ref obj' q.
Proof.
  intros H Hd (h & Hh & Href). exists h.
  by rewrite (assign_if_frame _ _ _ _ _ H Hd).
Qed.

Lemma assign_if_holds_ref_holder src p s obj obj' :
  assign_if src (p ++ [s]) obj = Ok obj' → holds_ref obj p → holds_ref obj' p.
Proof.
  unfold assign_if. destruct src as [t|]; [|by intros [= ->]].
  destruct (truthy (Some t)); [|by intros [= ->]].
  intros H _. by eapply get_path_set_path_prefix.
Qed.

(** [setLimits] succeeds on an object whose first container holds
    [resources.requests] and [resources.limits]. *)
Lemma setLimits_Ok name cpu memory obj b :
  is_target obj "Deployment" name = Ok b →
  holds_ref obj requests → holds_ref obj limits →
  ∃ obj', setLimits name cpu memory obj = Ok obj'.
Proof.
  intros Ht Hr Hl. unfold setLimits. rewrite Ht. bsimpl.
  destruct b; [|by eexists].
  destruct Hr as (h & Hh & Href).
  destruct (get_path_prefix obj container _ _ Hh) as [c ->]. bsimpl.
  assert (holds_ref obj requests) as Hr by (by exists h). clear h Hh Href.
  destruct (assign_if_Ok (cpu ≫= CPULimits.request) requests (Field "cpu") obj Hr)
    as [o1 H1].
  pose proof (assign_if_holds_ref _ _ _ _ limits H1 eq_refl Hl) as Hl1.
  pose proof (assign_if_holds_ref_holder _ _ _ _ _ H1 Hr) as Hr1.
  change (requests ++ [Field "cpu"]) with requests_cpu in H1. rewrite H1. bsimpl.
  destruct (assign_if_Ok (cpu ≫= CPULimits.limit) limits (Field "cpu") o1 Hl1)
    as [o2 H2].
  pose proof (assign_if_holds_ref _ _ _ _ requests H2 eq_refl Hr1) as Hr2.
  pose proof (assign_if_holds_ref_holder _ _ _ _ _ H2 Hl1) as Hl2.
  change (limits ++ [Field "cpu"]) with limits_cpu in H2. rewrite H2. bsimpl.
  destruct (assign_if_Ok (memory ≫= MemoryLimits.request) requests (Field "memory") o2 Hr2)
    as [o3 H3].
  pose proof (assign_if_holds_ref _ _ _ _ limits H3 eq_refl Hl2) as Hl3.
  change (requests ++ [Field "memory"]) with requests_memory in H3. rewrite H3. bsimpl.
  apply (assign_if_Ok (memory ≫= MemoryLimits.limit) limits (Field "memory") o3 Hl3).
Qed.

(** What [setLimits] writes: each resource field whose source value is
    present and not empty reads as that value after the call. *)
Lemma setLimits_written name cpu memory obj obj' :
  is_target obj "Deployment" name = Ok true →
  setLimits name cpu memory obj = Ok obj' →
  (∀ s, cpu ≫= CPULimits.request = Some s → s ≠ "" →
        get_path obj' requests_cpu = Ok (VStr s)) ∧
  (∀ s, cpu ≫= CPULimits.limit = Some s → s ≠ "" →
        get_path obj' limits_cpu = Ok (VStr s)) ∧
  (∀ s, memory ≫= MemoryLimits.request = Some s → s ≠ "" →
        get_path obj' requests_memory = Ok (VStr s)) ∧
  (∀ s, memory ≫= MemoryLimits.limit = Some s → s ≠ "" →
        get_path obj' limits_memory = Ok (VStr s)).
Proof.
  intros Ht. unfold setLimits. rewrite Ht. bsimpl. intros H.
  apply bind_Ok in H as (c & _ & H).
  apply bind_Ok in H as (o1 & H1 & H).
  apply bind_Ok in H as (o2 & H2 & H).
  apply bind_Ok in H as (o3 & H3 & H4).
  assert (∀ s, s ≠ "" → truthy (Some s) = true) as Htr.
  { intros s Hs. simpl. by destruct (String.eqb_spec s ""). }
  split_and!; intros s Hs Hne; rewrite Hs in *.
  - rewrite assign_if_present in H1 by auto.
    rewrite (assign_if_frame _ _ _ _ requests_cpu H4 eq_refl),
            (assign_if_frame _ _ _ _ requests_cpu H3 eq_refl),
            (assign_if_frame _ _ _ _ requests_cpu H2 eq_refl).
    by eapply get_path_set_path_eq.
  - rewrite assign_if_present in H2 by auto.
    rewrite (assign_if_frame _ _ _ _ limits_cpu H4 eq_refl),
            (assign_if_frame _ _ _ _ limits_cpu H3 eq_refl).
    by eapply get_path_set_path_eq.
  - rewrite assign_if_present in H3 by auto.
    rewrite (assign_if_frame _ _ _ _ requests_memory H4 eq_refl).
    by eapply get_path_set_path_eq.
  - rewrite assign_if_present in H4 by auto.
    by eapply get_path_set_path_eq.
Qed.

(** ** Paths apart *)

(** A write under one key leaves the property under any other key. *)
Lemma get_put_apart x s c y s' :
  put x s c = Ok y → sel_key s ≠ sel_key s' → get y s' = get x s'.
Proof.
  destruct x as [| |b0|z0|str|l p|m], s as [k|n], s' as [k'|n'];
    simpl; intros [=] Hne; subst; simpl; try done;
    try (by rewrite lookup_insert_ne).
  assert (n ≠ n') as Hn by (by intros ->). f_equal.
  destruct (decide (n < length l)) as [Hl|Hl].
  - by rewrite list_lookup_insert_ne.
  - destruct (decide (n' < length l)) as [Hl'|Hl'].
    + by rewrite lookup_app_l.
    + rewrite (lookup_ge_None_2 l n') by lia.
      rewrite lookup_app_r by lia.
      destruct (decide (n' - length l < n - length l)) as [Hlt|Hge].
      * rewrite lookup_app_l by (rewrite length_replicate; lia).
        by rewrite lookup_replicate_2.
      * rewrite lookup_ge_None_2; [done|].
        rewrite length_app, length_replicate. simpl. lia.
Qed.

Lemma diverge_apart p q : diverge p q = true → apart p q = true.
Proof.
  revert q. induction p as [|s p IH]; intros [|s' q]; simpl; try done.
  destruct (decide (s = s')) as [->|Hne]; [apply IH|].
  destruct s as [k|n], s' as [k'|n']; try done. intros _.
  apply bool_decide_eq_true. simpl. congruence.
Qed.

(** Frame: a write leaves every path apart from it as it was. *)
Lemma get_path_set_path_apart x p v y q :
  set_path x p v = Ok y → apart p q = true → get_path y q = get_path x q.
Proof.
  revert x y q. induction p as [|s r IH]; intros x y [|s' r']; simpl; try done.
  intros H Hd. apply set_path_cons in H as (c & c' & Hc & Hc' & H).
  destruct (decide (s = s')) as [<-|Hne].
  - rewrite (get_put_eq _ _ _ _ H), Hc. simpl. eauto.
  - apply bool_decide_eq_true in Hd.
    by rewrite (get_put_apart _ _ _ _ _ H Hd).
Qed.

Lemma assign_if_apart src p obj obj' q :
  assign_if src p obj = Ok obj' →
  Forall (λ p', apart p' q = true) (if truthy src then [p] else []) →
  get_path obj' q = get_path obj q.
Proof.
  intros H Hq. destruct (truthy src) eqn:Ht.
  - rewrite Forall_singleton in Hq. unfold assign_if in H.
    destruct src as [s|]; [|done]. rewrite Ht in H.
    by eapply get_path_set_path_apart.
  - rewrite assign_if_absent in H by done. by injection H as <-.
Qed.

(** What [setLimits] leaves alone: every path apart from the fields it
    assigns to. *)
Lemma setLimits_apart name cpu memory obj obj' q :
  setLimits name cpu memory obj = Ok obj' →
  Forall (λ p, apart p q = true) (assigned cpu memory) →
  get_path obj' q = get_path obj q.
Proof.
  unfold setLimits, assigned. intros H Hq.
  apply bind_Ok in H as ([] & _ & H); [|by injection H as <-].
  apply bind_Ok in H as (c & _ & H).
  apply bind_Ok in H as (o1 & H1 & H).
  apply bind_Ok in H as (o2 & H2 & H).
  apply bind_Ok in H as (o3 & H3 & H4).
  apply Forall_app in Hq as [Hq1 Hq]. apply Forall_app in Hq as [Hq2 Hq].
  apply Forall_app in Hq as [Hq3 Hq4].
  rewrite (assign_if_apart _ _ _ _ _ H4 Hq4),
          (assign_if_apart _ _ _ _ _ H3 Hq3),
          (assign_if_apart _ _ _ _ _ H2 Hq2),
          (assign_if_apart _ _ _ _ _ H1 Hq1).
  done.
Qed.

(** The fields of the first container are apart from everything in any
    other container. *)
Lemma container_apart p i r :
  i ≠ 0 → apart (container ++ p) (pod_containers ++ Index i :: r) = true.
Proof.
  intros Hi. cbn. repeat (rewrite decide_True by done).
  rewrite decide_False by congruence.
  apply bool_decide_eq_true. cbn. intros H. by apply (inj pretty) in H.
Qed.

(** ** Properties of the configuration resolution *)

(** C1, as the code has it: a configuration in which no branch of the cluster
    choice, or no branch of the persistence choice, is populated is rejected:
    resolution throws an [InvalidConfiguration] error and returns no result. *)
Theorem resolve_no_branch stack temporalConfig clusterConfig persistenceConfig rs :
  cluster_branches clusterConfig = 0 ∨ persistence_branches persistenceConfig = 0 →
  ∃ msg rs',
    resolve stack temporalConfig clusterConfig persistenceConfig rs
    = (Throw (InvalidConfiguration msg), rs').
Proof.
  destruct clusterConfig as [[eks|]], persistenceConfig as [[rds|] [cassandra|] visibility];
    unfold cluster_branches, persistence_branches; simpl; intros [?|?]; try lia;
    by do 2 eexists.
Qed.

Lemma resolve_no_branch_witness :
  (cluster_branches (ClusterConfig.mk (Some Sample.eks)) = 0
   ∨ persistence_branches (PersistenceConfig.mk None None None) = 0)
  ∧ ∃ msg rs',
      resolve "benchmark" Sample.temporalConfig (ClusterConfig.mk (Some Sample.eks))
        (PersistenceConfig.mk None None None) []
      = (Throw (InvalidConfiguration msg), rs').
Proof.
  split; [right; reflexivity|].
  apply (resolve_no_branch "benchmark" Sample.temporalConfig).
  right; reflexivity.
Defined.

(** C1 fails where more than one branch is populated: with both persistence
    variants populated the resolution returns the entries of the relational
    variant. *)
Lemma resolve_both_branches_returns :
  persistence_branches
    (PersistenceConfig.mk (Some (Sample.rds "postgres")) (Some Sample.cassandra) None) = 2
  ∧ ∃ m rs',
      resolve "benchmark" Sample.temporalConfig (ClusterConfig.mk (Some Sample.eks))
        (PersistenceConfig.mk (Some (Sample.rds "postgres")) (Some Sample.cassandra) None) []
      = (Ok m, rs')
      ∧ m !! "DB" = Some (Lit "postgresql").
Proof. split; [reflexivity|]. do 2 eexists. split; reflexivity. Qed.

(** C5, as the code has it: the map of a resolved persistence configuration
    holds [DB], [DB_PORT], [DBNAME] and [NUM_HISTORY_SHARDS], and, under the
    prefix of the selected family, [SEEDS], [USER] and the password, which is
    [PWD] for the relational families and [PASSWORD] for Cassandra. *)
Theorem createPersistence_keys stack temporalConfig config cluster rs m rs' :
  createPersistence stack temporalConfig config cluster rs = (Ok m, rs') →
  is_Some (m !! "DB") ∧ is_Some (m !! "DB_PORT") ∧ is_Some (m !! "DBNAME") ∧
  is_Some (m !! "NUM_HISTORY_SHARDS") ∧
  ∃ f, selected_family config = Some f ∧
       is_Some (m !! (family_prefix f +:+ "SEEDS")) ∧
       is_Some (m !! (family_prefix f +:+ "USER")) ∧
       is_Some (m !! (family_prefix f +:+ password_suffix f)).
Proof.
  destruct config as [[rds|] [cassandra|] visibility].
  1,2: rewrite createPersistence_RDS; unfold selected_family; simpl;
    destruct (decide (postgres_engine (RDSPersistenceConfig.Engine rds))) as [Hp|Hp];
    [ destruct (rdsPersistence_postgres temporalConfig stack rds
                  (Cluster.securityGroup cluster) rs Hp) as (p & rs1 & ep & -> & ->)
    | destruct (decide (mysql_engine (RDSPersistenceConfig.Engine rds))) as [Hm|Hm];
      [ destruct (rdsPersistence_mysql temporalConfig stack rds
                    (Cluster.securityGroup cluster) rs Hm) as (p & rs1 & ep & -> & ->)
      | by rewrite rdsPersistence_invalid ] ].
  5: rewrite createPersistence_Cassandra; unfold cassandraPersistence,
       mbind, Pulumi_bind, mret, Pulumi_ret, register; simpl.
  6: by rewrite createPersistence_none.
  all: match goal with
       | |- context [createAdvancedVisibility ?v ?c ?r] =>
           destruct (createAdvancedVisibility v c r) as [[vis|e] rs2]
       end; intros [= <- <-];
       repeat split;
       try (eexists; split; [reflexivity|]; repeat split);
       apply lookup_union_is_Some; right; simpl;
       generalize (toString (Num (HistoryConfig.Shards
                                    (TemporalConfig.History temporalConfig))));
       intros shards; by eexists.
Qed.

Lemma createPersistence_keys_witness :
  ∃ m rs',
    createPersistence "benchmark" Sample.temporalConfig
      (PersistenceConfig.mk None (Some Sample.cassandra) None) Sample.cluster []
    = (Ok m, rs')
    ∧ is_Some (m !! "DB") ∧ is_Some (m !! "DB_PORT") ∧ is_Some (m !! "DBNAME") ∧
      is_Some (m !! "NUM_HISTORY_SHARDS") ∧
      ∃ f, selected_family (PersistenceConfig.mk None (Some Sample.cassandra) None) = Some f ∧
           is_Some (m !! (family_prefix f +:+ "SEEDS")) ∧
           is_Some (m !! (family_prefix f +:+ "USER")) ∧
           is_Some (m !! (family_prefix f +:+ password_suffix f)).
Proof.
  do 2 eexists. split; [reflexivity|].
  apply (createPersistence_keys "benchmark" Sample.temporalConfig
           (PersistenceConfig.mk None (Some Sample.cassandra) None) Sample.cluster []
           _ _ eq_refl).
Defined.

(** C5 fails for Cassandra: its map has no [CASSANDRA_PWD] entry. *)
Lemma createPersistence_Cassandra_no_PWD :
  ∃ m rs',
    createPersistence "benchmark" Sample.temporalConfig
      (PersistenceConfig.mk None (Some Sample.cassandra) None) Sample.cluster []
    = (Ok m, rs')
    ∧ selected_family (PersistenceConfig.mk None (Some Sample.cassandra) None)
      = Some Cassandra
    ∧ m !! (family_prefix Cassandra +:+ "PWD") = None.
Proof. do 2 eexists. split; [reflexivity|]. split; reflexivity. Qed.

(** C8: [rdsPersistence] maps the engine identifier to a fixed protocol name,
    port and key prefix: [postgres] and [aurora-postgresql] to [postgresql],
    5432 and [POSTGRES]; [mysql] and [aurora-mysql] to [mysql], 3306 and
    [MYSQL]; the settings show in the entries it returns.  With any other
    identifier it throws [InvalidConfiguration] before it registers a resource
    or returns an entry. *)
Theorem rdsPersistence_engine temporalConfig name config securityGroup rs :
  let Engine := RDSPersistenceConfig.Engine config in
  (postgres_engine Engine →
     (∃ dbExtras, engineSettings Engine = Ok ("postgresql", 5432%Z, "POSTGRES", dbExtras)) ∧
     ∃ m rs', rdsPersistence temporalConfig name config securityGroup rs = (Ok m, rs') ∧
              m !! "DB" = Some (Lit "postgresql") ∧
              m !! "DB_PORT" = Some (Lit "5432") ∧
              is_Some (m !! "POSTGRES_SEEDS") ∧
              m !! "POSTGRES_USER" = Some (Lit "temporal") ∧
              m !! "POSTGRES_PWD" = Some (Lit "temporal")) ∧
  (mysql_engine Engine →
     (∃ dbExtras, engineSettings Engine = Ok ("mysql", 3306%Z, "MYSQL", dbExtras)) ∧
     ∃ m rs', rdsPersistence temporalConfig name config securityGroup rs = (Ok m, rs') ∧
              m !! "DB" = Some (Lit "mysql") ∧
              m !! "DB_PORT" = Some (Lit "3306") ∧
              is_Some (m !! "MYSQL_SEEDS") ∧
              m !! "MYSQL_USER" = Some (Lit "temporal") ∧
              m !! "MYSQL_PWD" = Some (Lit "temporal")) ∧
  (¬ postgres_engine Engine → ¬ mysql_engine Engine →
     engineSettings Engine = Throw (InvalidConfiguration "invalid RDS config") ∧
     rdsPersistence temporalConfig name config securityGroup rs
     = (Throw (InvalidConfiguration "invalid RDS config"), rs)).
Proof.
  intros Engine. split_and!.
  - intros He. split; [by rewrite engineSettings_postgres; eauto|].
    destruct (rdsPersistence_postgres temporalConfig name config securityGroup rs He)
      as (m & rs' & endpoint & Hm & ->).
    do 2 eexists. split; [exact Hm|].
    generalize (toString (Num (HistoryConfig.Shards
                                 (TemporalConfig.History temporalConfig)))).
    intros shards. split_and!; try reflexivity. by eexists.
  - intros He. split; [by rewrite engineSettings_mysql; eauto|].
    destruct (rdsPersistence_mysql temporalConfig name config securityGroup rs He)
      as (m & rs' & endpoint & Hm & ->).
    do 2 eexists. split; [exact Hm|].
    generalize (toString (Num (HistoryConfig.Shards
                                 (TemporalConfig.History temporalConfig)))).
    intros shards. split_and!; try reflexivity. by eexists.
  - intros Hp Hm. split.
    + by apply engineSettings_other.
    + by apply rdsPersistence_invalid.
Qed.

Lemma rdsPersistence_engine_witness :
  (¬ postgres_engine "sqlserver-ee" ∧ ¬ mysql_engine "sqlserver-ee")
  ∧ rdsPersistence Sample.temporalConfig "benchmark" (Sample.rds "sqlserver-ee")
      (Cluster.securityGroup Sample.cluster) []
    = (Throw (InvalidConfiguration "invalid RDS config"), []).
Proof.
  assert (¬ postgres_engine "sqlserver-ee") as Hp by (intros [?|?]; discriminate).
  assert (¬ mysql_engine "sqlserver-ee") as Hm by (intros [?|?]; discriminate).
  split; [by split|].
  apply (rdsPersistence_engine Sample.temporalConfig "benchmark"
           (Sample.rds "sqlserver-ee") (Cluster.securityGroup Sample.cluster) []);
    assumption.
Defined.

(** C9, as the code has it: with a positive number of frontend pods, and
    with both counts below [2^53], [CONCURRENT_WORKFLOWS] is the decimal form of
    the ceiling of the quotient of the number of concurrent workflows by the
    number of frontend pods.  The bound is needed: the program divides in
    double precision, and beyond it the quotient is rounded before the ceiling
    is taken. *)
Theorem soakTestConfig_ceiling temporalConfig :
  let ConcurrentWorkflows :=
    SoakTestConfig.ConcurrentWorkflows (TemporalConfig.SoakTest temporalConfig) in
  let Pods := FrontendConfig.Pods (TemporalConfig.Frontend temporalConfig) in
  (0 < Pods < 2 ^ 53)%Z → (Z.abs ConcurrentWorkflows < 2 ^ 53)%Z →
  ∃ k, is_ceiling ConcurrentWorkflows Pods k ∧
       soakTestConfig temporalConfig !! "CONCURRENT_WORKFLOWS"
       = Some (Lit (pretty k)).
Proof.
  intros a b Hb Ha.
  destruct (ceiling_quotient a b ltac:(lia)) as [Hk _].
  exists ((a + b - 1) / b)%Z. split.
  - split; [lia|]. intros j Hj. nia.
  - by apply soakTestConfig_entry.
Qed.

Lemma soakTestConfig_ceiling_witness :
  (0 < FrontendConfig.Pods (TemporalConfig.Frontend Sample.temporalConfig) < 2 ^ 53)%Z
  ∧ (Z.abs (SoakTestConfig.ConcurrentWorkflows
              (TemporalConfig.SoakTest Sample.temporalConfig)) < 2 ^ 53)%Z
  ∧ soakTestConfig Sample.temporalConfig !! "CONCURRENT_WORKFLOWS" = Some (Lit "4")
  ∧ ∃ k, is_ceiling 10 3 k ∧
         soakTestConfig Sample.temporalConfig !! "CONCURRENT_WORKFLOWS"
         = Some (Lit (pretty k)).
Proof.
  split; [by vm_compute|]. split; [by vm_compute|]. split; [by vm_compute|].
  apply (soakTestConfig_ceiling Sample.temporalConfig); by vm_compute.
Defined.

(** C9 as the specification has it does not hold: 13510798882111492 is a
    double, a third of it is not, and the double nearest to the third is the
    integer below it, which the ceiling leaves as it is. *)
Lemma soakTestConfig_rounds_below_ceiling :
  let temporalConfig :=
    {| TemporalConfig.Frontend := FrontendConfig.mk 3 None None;
       TemporalConfig.History := HistoryConfig.mk 512 2 None None;
       TemporalConfig.Matching := MatchingConfig.mk 4 2 None None;
       TemporalConfig.Workers := WorkerConfig.mk 2 10 10 None None;
       TemporalConfig.SoakTest := SoakTestConfig.mk 13510798882111492 |} in
  (0 < FrontendConfig.Pods (TemporalConfig.Frontend temporalConfig))%Z
  ∧ soakTestConfig temporalConfig !! "CONCURRENT_WORKFLOWS"
    = Some (Lit "4503599627370497")
  ∧ is_ceiling 13510798882111492 3 4503599627370498
  ∧ ¬ is_ceiling 13510798882111492 3 4503599627370497.
Proof.
  split; [done|]. split; [by vm_compute|]. split.
  - split; [lia|]. intros j Hj. lia.
  - intros [H _]. lia.
Qed.

(** C10, as the code has it: with both persistence variants populated and an
    engine identifier that [rdsPersistence] recognises, [createPersistence]
    returns, and what it returns and registers is what it returns and
    registers for the relational variant alone. *)
Theorem createPersistence_both stack temporalConfig rds cassandra visibility cluster rs :
  postgres_engine (RDSPersistenceConfig.Engine rds)
  ∨ mysql_engine (RDSPersistenceConfig.Engine rds) →
  ∃ m rs',
    createPersistence stack temporalConfig
      (PersistenceConfig.mk (Some rds) (Some cassandra) visibility) cluster rs
    = (Ok m, rs')
    ∧ createPersistence stack temporalConfig
        (PersistenceConfig.mk (Some rds) None visibility) cluster rs
      = (Ok m, rs').
Proof.
  intros He. rewrite !createPersistence_RDS.
  assert (∃ p rs1, rdsPersistence temporalConfig stack rds
                     (Cluster.securityGroup cluster) rs = (Ok p, rs1))
    as (p & rs1 & ->).
  { destruct He as [He|He].
    - destruct (rdsPersistence_postgres temporalConfig stack rds
                  (Cluster.securityGroup cluster) rs He) as (p & rs1 & _ & Hp & _).
      eauto.
    - destruct (rdsPersistence_mysql temporalConfig stack rds
                  (Cluster.securityGroup cluster) rs He) as (p & rs1 & _ & Hp & _).
      eauto. }
  destruct (createAdvancedVisibility_Ok visibility cluster rs1) as (vis & rs2 & ->).
  eauto.
Qed.

Lemma createPersistence_both_witness :
  (postgres_engine "postgres" ∨ mysql_engine "postgres")
  ∧ ∃ m rs',
      createPersistence "benchmark" Sample.temporalConfig
        (PersistenceConfig.mk (Some (Sample.rds "postgres")) (Some Sample.cassandra) None)
        Sample.cluster []
      = (Ok m, rs')
      ∧ createPersistence "benchmark" Sample.temporalConfig
          (PersistenceConfig.mk (Some (Sample.rds "postgres")) None None)
          Sample.cluster []
        = (Ok m, rs').
Proof.
  assert (postgres_engine "postgres" ∨ mysql_engine "postgres") as He
    by (left; left; reflexivity).
  split; [exact He|].
  apply (createPersistence_both "benchmark" Sample.temporalConfig
           (Sample.rds "postgres") Sample.cassandra None Sample.cluster [] He).
Defined.

(** C10 fails for an engine identifier that is not recognised: the resolution
    of a configuration with both variants populated then throws. *)
Lemma createPersistence_both_invalid_engine :
  persistence_branches
    (PersistenceConfig.mk (Some (Sample.rds "sqlserver-ee")) (Some Sample.cassandra) None) = 2
  ∧ createPersistence "benchmark" Sample.temporalConfig
      (PersistenceConfig.mk (Some (Sample.rds "sqlserver-ee")) (Some Sample.cassandra) None)
      Sample.cluster []
    = (Throw (InvalidConfiguration "invalid RDS config"), []).
Proof. split; reflexivity. Qed.

(** ** Properties of the transformations *)

(** C2: [setLimits] writes only the resource fields whose source value is
    present.  Every path apart from those fields reads after the call as it
    did before, and so everything in any container but the first; and each of
    the four resource fields of the first container whose source value is
    absent reads as before.  With only a CPU request, the CPU limit and both
    memory fields are as before the call. *)
Theorem setLimits_writes_only_present name cpu memory obj obj' :
  setLimits name cpu memory obj = Ok obj' →
  (∀ q, Forall (λ p, apart p q = true) (assigned cpu memory) →
        get_path obj' q = get_path obj q) ∧
  (∀ i r, i ≠ 0 →
        get_path obj' (pod_containers ++ Index i :: r)
        = get_path obj (pod_containers ++ Index i :: r)) ∧
  (truthy (cpu ≫= CPULimits.request) = false →
     get_path obj' requests_cpu = get_path obj requests_cpu) ∧
  (truthy (cpu ≫= CPULimits.limit) = false →
     get_path obj' limits_cpu = get_path obj limits_cpu) ∧
  (truthy (memory ≫= MemoryLimits.request) = false →
     get_path obj' requests_memory = get_path obj requests_memory) ∧
  (truthy (memory ≫= MemoryLimits.limit) = false →
     get_path obj' limits_memory = get_path obj limits_memory).
Proof.
  intros H. split; [intros q; by apply (setLimits_apart name)|].
  split.
  { intros i r Hi. apply (setLimits_apart _ _ _ _ _ _ H). unfold assigned.
    repeat (apply Forall_app; split);
      match goal with |- context [truthy ?s] => destruct (truthy s) end;
      try apply Forall_nil_2; apply Forall_singleton;
      by apply (container_apart [Field "resources"; _; _]). }
  split_and!; intros Ht; apply (setLimits_apart _ _ _ _ _ _ H);
    unfold assigned; rewrite Ht;
    repeat match goal with |- context [truthy ?s] => destruct (truthy s) end;
    repeat (apply Forall_app; split);
    try apply Forall_nil_2; apply Forall_singleton; by apply diverge_apart.
Qed.

Lemma setLimits_writes_only_present_witness :
  ∃ obj',
    setLimits "temporal-frontend" (Some (CPULimits.mk (Some "500m") None)) None
      (Manifest.sidecar "temporal-frontend") = Ok obj'
    ∧ get_path obj' requests_cpu = Ok (VStr "500m")
    ∧ get_path obj' limits_cpu
      = get_path (Manifest.sidecar "temporal-frontend") limits_cpu
    ∧ get_path obj' requests_memory
      = get_path (Manifest.sidecar "temporal-frontend") requests_memory
    ∧ get_path obj' limits_memory
      = get_path (Manifest.sidecar "temporal-frontend") limits_memory
    ∧ get_path obj' (pod_containers ++ [Index 1])
      = get_path (Manifest.sidecar "temporal-frontend") (pod_containers ++ [Index 1]).
Proof.
  eexists. split; [reflexivity|]. split; [reflexivity|].
  destruct (setLimits_writes_only_present "temporal-frontend"
              (Some (CPULimits.mk (Some "500m") None)) None
              (Manifest.sidecar "temporal-frontend") _ eq_refl)
    as (_ & Hc & _ & Hlc & Hrm & Hlm).
  split_and!; [apply Hlc|apply Hrm|apply Hlm|apply (Hc 1 [])]; done.
Defined.


(** C3: on an object that is its target and has a [spec], [configureRemoteWrite]
    sets [spec.replicas] to 1 and [spec.replicaExternalLabelName] to the empty
    string, and makes [spec.remoteWrite], whatever it was, a list of exactly
    one entry: the URL is the endpoint followed by [api/v1/remote_write], the
    [sigv4] region is the region, the queue sends at most 1000 samples, has at
    most 200 shards and a capacity of 2500, and of the two relabel rules the
    first copies [exported_namespace] into [namespace] and the second drops
    [exported_namespace]. *)
Theorem configureRemoteWrite_target name region endpoint obj :
  is_target obj "Prometheus" name = Ok true →
  holds_ref obj [Field "spec"] →
  let entry := spec_remoteWrite ++ [Index 0] in
  let rules := entry ++ [Field "writeRelabelConfigs"] in
  ∃ obj',
    configureRemoteWrite name region endpoint obj = Ok obj' ∧
    get_path obj' spec_replicas = Ok (VNum 1) ∧
    get_path obj' spec_replicaExternalLabelName = Ok (VStr "") ∧
    get_path obj' spec_remoteWrite = Ok (VArr [remoteWriteEntry region endpoint] ∅) ∧
    get_path obj' (spec_remoteWrite ++ [Index 1]) = Ok VUndef ∧
    get_path obj' (entry ++ [Field "url"])
    = Ok (VStr (endpoint +:+ "api/v1/remote_write")) ∧
    get_path obj' (entry ++ [Field "sigv4"; Field "region"]) = Ok (VStr region) ∧
    get_path obj' (entry ++ [Field "queue_config"; Field "max_samples_per_send"])
    = Ok (VNum 1000) ∧
    get_path obj' (entry ++ [Field "queue_config"; Field "max_shards"]) = Ok (VNum 200) ∧
    get_path obj' (entry ++ [Field "queue_config"; Field "capacity"]) = Ok (VNum 2500) ∧
    get_path obj' (rules ++ [Index 0; Field "sourceLabels"])
    = Ok (VArr [VStr "exported_namespace"] ∅) ∧
    get_path obj' (rules ++ [Index 0; Field "regex"]) = Ok (VStr "(.+)") ∧
    get_path obj' (rules ++ [Index 0; Field "targetLabel"]) = Ok (VStr "namespace") ∧
    get_path obj' (rules ++ [Index 1; Field "regex"]) = Ok (VStr "exported_namespace") ∧
    get_path obj' (rules ++ [Index 1; Field "action"]) = Ok (VStr "labeldrop") ∧
    get_path obj' (rules ++ [Index 2]) = Ok VUndef.
Proof.
  intros Ht Hspec entry rules. unfold configureRemoteWrite. rewrite Ht. bsimpl.
  destruct (set_path_snoc_Ok obj [Field "spec"] (Field "replicas") (VNum 1) Hspec)
    as [o1 H1].
  destruct (set_path_snoc_Ok obj [Field "spec"] (Field "replicaExternalLabelName")
              (VStr "") Hspec) as [x2 Hx2].
  destruct (set_path_snoc_Ok obj [Field "spec"] (Field "remoteWrite")
              (VArr [remoteWriteEntry region endpoint] ∅) Hspec) as [x3 Hx3].
  cbn [app] in H1, Hx2, Hx3.
  fold spec_replicas in H1. fold spec_replicaExternalLabelName in Hx2.
  fold spec_remoteWrite in Hx3.
  destruct (set_path_after _ _ _ _ _ _ H1 (ex_intro _ x2 Hx2) eq_refl) as [o2 H2].
  destruct (set_path_after _ _ _ _ _ _ H1 (ex_intro _ x3 Hx3) eq_refl) as [y3 Hy3].
  destruct (set_path_after _ _ _ _ _ _ H2 (ex_intro _ y3 Hy3) eq_refl) as [o3 H3].
  exists o3. rewrite H1. bsimpl. rewrite H2. bsimpl.
  assert (get_path o3 spec_remoteWrite = Ok (VArr [remoteWriteEntry region endpoint] ∅))
    as Hrw by (by eapply get_path_set_path_eq).
  split; [done|]. split_and!.
  - rewrite (get_path_set_path_diverge _ _ _ _ spec_replicas H3 eq_refl),
            (get_path_set_path_diverge _ _ _ _ spec_replicas H2 eq_refl).
    by eapply get_path_set_path_eq.
  - rewrite (get_path_set_path_diverge _ _ _ _ spec_replicaExternalLabelName H3 eq_refl).
    by eapply get_path_set_path_eq.
  - done.
  - by rewrite get_path_app, Hrw.
  - unfold entry. by rewrite <-app_assoc, get_path_app, Hrw.
  - unfold entry. by rewrite <-app_assoc, get_path_app, Hrw.
  - unfold entry. by rewrite <-app_assoc, get_path_app, Hrw.
  - unfold entry. by rewrite <-app_assoc, get_path_app, Hrw.
  - unfold entry. by rewrite <-app_assoc, get_path_app, Hrw.
  - unfold rules, entry. by rewrite <-!app_assoc, get_path_app, Hrw.
  - unfold rules, entry. by rewrite <-!app_assoc, get_path_app, Hrw.
  - unfold rules, entry. by rewrite <-!app_assoc, get_path_app, Hrw.
  - unfold rules, entry. by rewrite <-!app_assoc, get_path_app, Hrw.
  - unfold rules, entry. by rewrite <-!app_assoc, get_path_app, Hrw.
  - unfold rules, entry. by rewrite <-!app_assoc, get_path_app, Hrw.
Qed.

Lemma configureRemoteWrite_target_witness :
  is_target Sample.prometheus "Prometheus" "k8s" = Ok true
  ∧ holds_ref Sample.prometheus [Field "spec"]
  ∧ ∃ obj',
      configureRemoteWrite "k8s" "us-west-2" "https://prom.example/" Sample.prometheus
      = Ok obj'
      ∧ get_path obj' spec_replicas = Ok (VNum 1)
      ∧ get_path obj' (spec_remoteWrite ++ [Index 0; Field "url"])
        = Ok (VStr "https://prom.example/api/v1/remote_write")
      ∧ get_path obj' (spec_remoteWrite ++ [Index 0; Field "sigv4"; Field "region"])
        = Ok (VStr "us-west-2")
      ∧ get_path obj' (spec_remoteWrite ++ [Index 1]) = Ok VUndef.
Proof.
  assert (holds_ref Sample.prometheus [Field "spec"]) as Hspec
    by (eexists; split; reflexivity).
  split; [reflexivity|]. split; [exact Hspec|].
  destruct (configureRemoteWrite_target "k8s" "us-west-2" "https://prom.example/"
              Sample.prometheus eq_refl Hspec)
    as (obj' & H & Hrep & _ & _ & Hone & Hurl & Hregion & _).
  exists obj'. split_and!; assumption.
Defined.

(** C7: on an object that is its target and has a [spec.datasource],
    [configureAWSDatasource] overwrites the URL of the data source with the
    endpoint when the endpoint is not empty and leaves it as it was when the
    endpoint is empty; in both cases it overwrites [jsonData] with the
    signature-version-4 settings: enabled, authenticated by the IAM role of
    the instance, in the given region. *)
Theorem configureAWSDatasource_target name region endpoint obj :
  is_target obj "GrafanaDatasource" name = Ok true →
  holds_ref obj spec_datasource →
  ∃ obj',
    configureAWSDatasource name region endpoint obj = Ok obj' ∧
    (endpoint ≠ "" → get_path obj' datasource_url = Ok (VStr endpoint)) ∧
    (endpoint = "" → get_path obj' datasource_url = get_path obj datasource_url) ∧
    get_path obj' datasource_jsonData = Ok (jsonData region) ∧
    get_path obj' (datasource_jsonData ++ [Field "sigV4Auth"]) = Ok (VBool true) ∧
    get_path obj' (datasource_jsonData ++ [Field "sigV4AuthType"])
    = Ok (VStr "ec2_iam_role") ∧
    get_path obj' (datasource_jsonData ++ [Field "sigV4Region"]) = Ok (VStr region).
Proof.
  intros Ht Hds. unfold configureAWSDatasource. rewrite Ht. bsimpl.
  destruct (set_path_snoc_Ok obj spec_datasource (Field "url") (VStr endpoint) Hds)
    as [x1 Hx1].
  destruct (set_path_snoc_Ok obj spec_datasource (Field "jsonData") (jsonData region) Hds)
    as [x2 Hx2].
  cbn [app spec_datasource] in Hx1, Hx2.
  fold datasource_url in Hx1. fold datasource_jsonData in Hx2.
  assert (∃ o1, (if negb (String.eqb endpoint "")
                 then set_path obj datasource_url (VStr endpoint) else Ok obj) = Ok o1
                ∧ (∃ o2, set_path o1 datasource_jsonData (jsonData region) = Ok o2)
                ∧ (endpoint ≠ "" → get_path o1 datasource_url = Ok (VStr endpoint))
                ∧ (endpoint = "" → o1 = obj))
    as (o1 & -> & [o2 H2] & Hne & He).
  { destruct (String.eqb_spec endpoint "") as [->|Hne]; cbn [negb].
    - exists obj. split_and!; eauto. done.
    - exists x1. split_and!; [done| |by intros _; eapply get_path_set_path_eq|done].
      by eapply (set_path_after obj datasource_url); eauto. }
  exists o2. bsimpl.
  assert (get_path o2 datasource_jsonData = Ok (jsonData region)) as Hjs
    by (by eapply get_path_set_path_eq).
  split; [done|]. split_and!.
  - intros H. rewrite (get_path_set_path_diverge _ _ _ _ datasource_url H2 eq_refl). auto.
  - intros H. rewrite (get_path_set_path_diverge _ _ _ _ datasource_url H2 eq_refl).
    by rewrite (He H).
  - done.
  - by rewrite get_path_app, Hjs.
  - by rewrite get_path_app, Hjs.
  - by rewrite get_path_app, Hjs.
Qed.

Lemma configureAWSDatasource_target_witness :
  is_target (Sample.datasource "cloudwatch") "GrafanaDatasource" "cloudwatch" = Ok true
  ∧ holds_ref (Sample.datasource "cloudwatch") spec_datasource
  ∧ ∃ obj',
      configureAWSDatasource "cloudwatch" "us-west-2" "" (Sample.datasource "cloudwatch")
      = Ok obj'
      ∧ get_path obj' datasource_url = Ok (VStr "http://localhost:9090")
      ∧ get_path obj' (datasource_jsonData ++ [Field "sigV4Region"])
        = Ok (VStr "us-west-2").
Proof.
  assert (holds_ref (Sample.datasource "cloudwatch") spec_datasource) as Hds
    by (eexists; split; reflexivity).
  split; [reflexivity|]. split; [exact Hds|].
  destruct (configureAWSDatasource_target "cloudwatch" "us-west-2" ""
              (Sample.datasource "cloudwatch") eq_refl Hds)
    as (obj' & H & _ & Hurl & _ & _ & _ & Hregion).
  exists obj'. split_and!; [assumption| |assumption].
  by rewrite Hurl.
Defined.

(** One object under [tolerateDedicated]. *)
Lemma tolerateDedicated_obj dedicatedValue obj :
  is_ref obj = true →
  (kind_is obj "Deployment" = true → holds_ref obj pod_spec) →
  ∃ obj',
    tolerateDedicated dedicatedValue obj = Ok obj' ∧
    if kind_is obj "Deployment"
    then get_path obj' tolerations = Ok (VArr [toleration dedicatedValue] ∅)
    else obj' = obj.
Proof.
  intros Href Hpod. unfold tolerateDedicated, kind_is in *.
  destruct (get_is_ref obj (Field "kind") Href) as [k Hk]. rewrite Hk in *. bsimpl.
  destruct (strict_eq_str k "Deployment").
  - destruct (set_path_snoc_Ok obj pod_spec (Field "tolerations")
                (VArr [toleration dedicatedValue] ∅) (Hpod eq_refl)) as [obj' H].
    exists obj'. split; [done|]. by eapply (get_path_set_path_eq obj).
  - by exists obj.
Qed.

(** C6: over a group of manifest documents, in which every Deployment has a
    pod [spec] in its template, [tolerateDedicated] gives every object of kind
    [Deployment], whatever its name, the same list of tolerations, with the
    one entry for the key [dedicated], the operator [Equal], the given value
    and the effect [NoSchedule]; every other object comes out as it went in,
    with no tolerations added. *)
Theorem tolerateDedicated_group dedicatedValue group :
  Forall (λ obj, is_ref obj = true
                 ∧ (kind_is obj "Deployment" = true → holds_ref obj pod_spec)) group →
  ∃ group',
    apply group [tolerateDedicated dedicatedValue] = Ok group' ∧
    Forall2 (λ obj obj',
      if kind_is obj "Deployment"
      then get_path obj' tolerations = Ok (VArr [toleration dedicatedValue] ∅)
           ∧ get_path obj' (tolerations ++ [Index 0; Field "key"]) = Ok (VStr "dedicated")
           ∧ get_path obj' (tolerations ++ [Index 0; Field "operator"]) = Ok (VStr "Equal")
           ∧ get_path obj' (tolerations ++ [Index 0; Field "value"])
             = Ok (VStr dedicatedValue)
           ∧ get_path obj' (tolerations ++ [Index 0; Field "effect"])
             = Ok (VStr "NoSchedule")
           ∧ get_path obj' (tolerations ++ [Index 1]) = Ok VUndef
      else obj' = obj) group group'.
Proof.
  intros Hgroup. cbn [apply].
  assert (∃ group', Forall2 (λ obj obj',
            tolerateDedicated dedicatedValue obj = Ok obj' ∧
            if kind_is obj "Deployment"
            then get_path obj' tolerations = Ok (VArr [toleration dedicatedValue] ∅)
            else obj' = obj) group group') as [group' H].
  { induction Hgroup as [|obj group [Href Hpod] _ [group' IH]].
    - by exists [].
    - destruct (tolerateDedicated_obj dedicatedValue obj Href Hpod) as (obj' & Hobj').
      exists (obj' :: group'). by constructor. }
  exists group'. split.
  - assert (for_each (tolerateDedicated dedicatedValue) group = Ok group') as ->; [|done].
    apply for_each_Ok. eapply Forall2_impl; [done|]. by intros ?? [? _].
  - eapply Forall2_impl; [done|]. intros obj obj' [_ Hobj'].
    destruct (kind_is obj "Deployment"); [|done].
    split_and!; [done|by rewrite get_path_app, Hobj'..].
Qed.

Lemma tolerateDedicated_group_witness :
  Forall (λ obj, is_ref obj = true
                 ∧ (kind_is obj "Deployment" = true → holds_ref obj pod_spec))
    Sample.group
  ∧ ∃ group',
      apply Sample.group [tolerateDedicated "temporal"] = Ok group' ∧
      Forall2 (λ obj obj',
        if kind_is obj "Deployment"
        then get_path obj' tolerations = Ok (VArr [toleration "temporal"] ∅)
        else obj' = obj) Sample.group group'.
Proof.
  assert (Forall (λ obj, is_ref obj = true
                         ∧ (kind_is obj "Deployment" = true → holds_ref obj pod_spec))
            Sample.group) as Hgroup.
  { repeat apply Forall_cons_2; [..|apply Forall_nil_2];
      (split; [reflexivity|]); intros Hk;
      first [discriminate Hk | eexists; split; reflexivity]. }
  split; [exact Hgroup|].
  destruct (tolerateDedicated_group "temporal" Sample.group Hgroup) as (group' & H & Hall).
  exists group'. split; [exact H|].
  eapply Forall2_impl; [exact Hall|]. intros obj obj' Hobj. cbv beta in Hobj.
  destruct (kind_is obj "Deployment"); [apply Hobj|exact Hobj].
Defined.

(** C4: applying a list of transformations built from [scaleDeployment],
    [setLimits] and [tolerateDedicated] to a group, and then applying the same
    list to the result, gives what the first application gives. *)
Theorem apply_twice (gs : list generator) (group : list value) :
  apply group (build <$> gs) ≫= (λ group', apply group' (build <$> gs))
  = apply group (build <$> gs).
Proof.
  destruct (apply group (build <$> gs)) as [group'|e] eqn:H; [|done]. bsimpl.
  apply apply_Ok. apply apply_Ok in H.
  induction H as [|obj obj' group group' Hobj _ IH]; constructor; [|done].
  by eapply apply_obj_idem.
Qed.

(** The configured lists of the program are built from the three generators. *)
Lemma temporalTransformations_generated temporalConfig :
  let Frontend := TemporalConfig.Frontend temporalConfig in
  let History := TemporalConfig.History temporalConfig in
  let Matching := TemporalConfig.Matching temporalConfig in
  temporalTransformations temporalConfig
  = build <$>
    [ ScaleDeployment "temporal-frontend" (FrontendConfig.Pods Frontend);
      SetLimits "temporal-frontend" (FrontendConfig.CPU Frontend) (FrontendConfig.Memory Frontend);
      ScaleDeployment "temporal-history" (HistoryConfig.Pods History);
      SetLimits "temporal-history" (HistoryConfig.CPU History) (HistoryConfig.Memory History);
      ScaleDeployment "temporal-matching" (MatchingConfig.Pods Matching);
      SetLimits "temporal-matching" (MatchingConfig.CPU Matching) (MatchingConfig.Memory Matching);
      TolerateDedicated "temporal" ].
Proof. reflexivity. Qed.

Lemma benchmarkTransformations_generated temporalConfig :
  let Workers := TemporalConfig.Workers temporalConfig in
  benchmarkTransformations temporalConfig
  = build <$>
    [ ScaleDeployment "benchmark-workers" (WorkerConfig.Pods Workers);
      SetLimits "benchmark-workers" (WorkerConfig.CPU Workers) (WorkerConfig.Memory Workers);
      ScaleDeployment "benchmark-soak-test"
        (FrontendConfig.Pods (TemporalConfig.Frontend temporalConfig)) ].
Proof. reflexivity. Qed.

(** The [temporal] group of the sample configuration goes through its
    transformations, and a second pass leaves it as the first did. *)
Example temporal_group_twice :
  ∃ group',
    apply Sample.group (temporalTransformations Sample.temporalConfig) = Ok group'
    ∧ apply group' (temporalTransformations Sample.temporalConfig) = Ok group'
    ∧ group' ≠ Sample.group.
Proof.
  eexists. split; [vm_compute; reflexivity|]. split; [vm_compute; reflexivity|].
  vm_compute. discriminate.
Qed.

(** ** More on paths: what is thrown, and writes in either order *)

Lemma get_Throw x s e : get x s = Throw e → e = TypeError.
Proof. destruct x, s; simpl; congruence. Qed.

Lemma put_Throw x s c e : put x s c = Throw e → e = TypeError.
Proof. destruct x, s; simpl; congruence. Qed.

Lemma bind_Throw {A B} (m : result A) (f : A → result B) e :
  m ≫= f = Throw e ↔ m = Throw e ∨ ∃ a, m = Ok a ∧ f a = Throw e.
Proof.
  destruct m as [a|e']; simpl; split.
  - intros H. right. eauto.
  - intros [[=]|(a' & [= <-] & H)]. done.
  - intros [= ->]. by left.
  - intros [[= ->]|(a' & [=] & _)]. done.
Qed.

Lemma bind_assoc {A B C} (m : result A) (f : A → result B) (g : B → result C) :
  (m ≫= f) ≫= g = m ≫= λ a, f a ≫= g.
Proof. by destruct m. Qed.

Lemma get_path_Throw x p e : get_path x p = Throw e → e = TypeError.
Proof.
  revert x. induction p as [|s p IH]; intros x; cbn [get_path]; [done|].
  intros [H|(c & _ & H)]%bind_Throw; [by eapply get_Throw|by eapply IH].
Qed.

Lemma set_path_Throw x p v e : set_path x p v = Throw e → e = TypeError.
Proof.
  revert x. induction p as [|s p IH]; intros x; cbn [set_path]; [done|].
  intros [H|(c & _ & [H|(c' & _ & H)]%bind_Throw)]%bind_Throw.
  - by eapply get_Throw.
  - by eapply IH.
  - by eapply put_Throw.
Qed.

Lemma run_Throw a x e : run a x = Throw e → e = TypeError.
Proof.
  destruct a as [p|p v]; cbn [run].
  - intros [H|(c & _ & [=])]%bind_Throw. by eapply get_path_Throw.
  - apply set_path_Throw.
Qed.

Lemma exec_Throw acts x e : exec acts x = Throw e → e = TypeError.
Proof.
  revert x. induction acts as [|a acts IH]; intros x; cbn [exec]; [done|].
  intros [H|(c & _ & H)]%bind_Throw; [by eapply run_Throw|by eapply IH].
Qed.

Lemma is_target_Throw obj kind name e :
  is_target obj kind name = Throw e → e = TypeError.
Proof.
  unfold is_target. intros [H|(k & _ & H)]%bind_Throw; [by eapply get_Throw|].
  destruct (strict_eq_str k kind); [|done].
  apply bind_Throw in H as [H|(md & _ & [H|(n & _ & [=])]%bind_Throw)];
    by eapply get_Throw.
Qed.

(** A write reaches its holder through what the object already holds. *)
Lemma set_path_get_path_prefix x p s r v y :
  set_path x (p ++ s :: r) v = Ok y → ∃ c, get_path x p = Ok c.
Proof.
  revert x y. induction p as [|s0 p IH]; intros x y.
  - cbn. eauto.
  - rewrite <-app_comm_cons, set_path_cons.
    intros (c & c' & Hc & Hc' & H). cbn [get_path]. rewrite Hc. bsimpl. eauto.
Qed.

(** A write that succeeds after a write to a diverging path succeeds without
    it. *)
Lemma set_path_before x p v y q u y' :
  set_path x p v = Ok y → set_path y q u = Ok y' → diverge p q = true →
  ∃ x', set_path x q u = Ok x'.
Proof.
  revert x y q y'. induction p as [|s r IH]; intros x y [|s' r'] y'; simpl diverge; try done.
  rewrite !set_path_cons.
  intros (c & cy & Hc & Hcy & Hy) (d & dy & Hd & Hdy & Hy') Hdiv.
  destruct (put_is_ref _ _ _ _ Hy) as [Hx _].
  destruct (decide (s = s')) as [<-|Hne].
  - rewrite (get_put_eq _ _ _ _ Hy) in Hd. injection Hd as <-.
    destruct (IH _ _ _ _ Hcy Hdy Hdiv) as (c' & Hc').
    destruct (put_is_ref_Ok x s c' Hx) as [x' Hx'].
    exists x'. apply set_path_cons. eauto.
  - destruct s as [k|], s' as [k'|]; try done.
    assert (k ≠ k') by congruence.
    rewrite (get_put_ne _ _ _ _ _ Hy) in Hd by done.
    destruct (put_is_ref_Ok x (Field k') dy Hx) as [x' Hx'].
    exists x'. apply set_path_cons. eauto.
Qed.

(** Writes to diverging paths, in either order: the same object, or an
    exception in both orders. *)
Lemma set_path_swap x p v q u :
  diverge p q = true →
  set_path x p v ≫= (λ y, set_path y q u) = set_path x q u ≫= (λ y, set_path y p v).
Proof.
  intros Hd. pose proof Hd as Hd'. rewrite diverge_sym in Hd'.
  destruct (set_path x p v) as [y|e1] eqn:Hy, (set_path x q u) as [x'|e2] eqn:Hx'; bsimpl.
  - destruct (set_path_set_path_diverge _ _ _ _ _ _ _ Hy Hx' Hd) as (y' & -> & ->). done.
  - destruct (set_path y q u) as [y'|e] eqn:Hy'.
    + destruct (set_path_before _ _ _ _ _ _ _ Hy Hy' Hd) as [x' Hx]. congruence.
    + by rewrite (set_path_Throw _ _ _ _ Hy'), (set_path_Throw _ _ _ _ Hx').
  - destruct (set_path x' p v) as [y'|e] eqn:Hy'.
    + destruct (set_path_before _ _ _ _ _ _ _ Hx' Hy' Hd') as [y Hx]. congruence.
    + by rewrite (set_path_Throw _ _ _ _ Hy'), (set_path_Throw _ _ _ _ Hy).
  - by rewrite (set_path_Throw _ _ _ _ Hy), (set_path_Throw _ _ _ _ Hx').
Qed.

(** A read and a write that is separate from it, in either order. *)
Lemma touch_set_path_swap x p q u :
  diverge q p = true ∨ (∃ s r, q = p ++ s :: r) →
  run (Touch p) x ≫= (λ y, set_path y q u) = set_path x q u ≫= run (Touch p).
Proof.
  intros Hsep. cbn [run].
  destruct (set_path x q u) as [x'|e2] eqn:Hx'; bsimpl; cbn [run].
  - destruct Hsep as [Hd|(s & r & ->)].
    + rewrite (get_path_set_path_diverge _ _ _ _ _ Hx' Hd).
      destruct (get_path x p) as [c|e]; bsimpl; [by rewrite Hx'|done].
    + destruct (set_path_get_path_prefix _ _ _ _ _ _ Hx') as [c ->].
      destruct (get_path_set_path_prefix _ _ _ _ _ _ Hx') as (c' & -> & _).
      bsimpl. by rewrite Hx'.
  - destruct (get_path x p) as [c|e]eqn:Hc; bsimpl.
    + by rewrite Hx'.
    + by rewrite (get_path_Throw _ _ _ Hc), (set_path_Throw _ _ _ _ Hx').
Qed.

(** ** How the transformations compose *)

Lemma separate_sym a b : separate a b → separate b a.
Proof.
  destruct a as [p|p v], b as [q|q u]; cbn [separate]; try done.
  by rewrite diverge_sym.
Qed.

(** Two separate actions, in either order: the same object, or an exception
    in both orders. *)
Lemma run_swap a b x :
  separate a b → run a x ≫= run b = run b x ≫= run a.
Proof.
  destruct a as [p|p v], b as [q|q u]; cbn [separate]; intros Hsep.
  - cbn [run].
    destruct (get_path x p) as [c|e1] eqn:Hc, (get_path x q) as [d|e2] eqn:Hd;
      bsimpl; cbn [run]; rewrite ?Hc, ?Hd; bsimpl; try done.
    rewrite (get_path_Throw _ _ _ Hc). by rewrite (get_path_Throw _ _ _ Hd).
  - by apply touch_set_path_swap.
  - symmetry. by apply touch_set_path_swap.
  - by apply set_path_swap.
Qed.

Lemma run_exec_swap a acts x :
  Forall (separate a) acts → run a x ≫= exec acts = exec acts x ≫= run a.
Proof.
  intros Hsep. revert x. induction Hsep as [|b acts Hb _ IH]; intros x.
  - cbn [exec]. by rewrite bind_Ok_r.
  - cbn [exec].
    transitivity ((run a x ≫= run b) ≫= exec acts).
    { by rewrite bind_assoc. }
    rewrite (run_swap a b x Hb), !bind_assoc.
    destruct (run b x) as [x'|e]; bsimpl; [apply IH|done].
Qed.

Lemma exec_swap acts acts' x :
  Forall (λ a, Forall (separate a) acts') acts →
  exec (acts ++ acts') x = exec (acts' ++ acts) x.
Proof.
  intros Hsep. revert x. induction Hsep as [|a acts Ha _ IH]; intros x.
  - by rewrite app_nil_r.
  - rewrite <-app_comm_cons. cbn [exec].
    transitivity (run a x ≫= λ y, exec acts' y ≫= exec acts).
    { destruct (run a x) as [y|e]; bsimpl; [|done]. by rewrite IH, exec_app. }
    rewrite <-bind_assoc, (run_exec_swap a acts' x Ha), bind_assoc, exec_app.
    by destruct (exec acts' x).
Qed.

(** *** The transformations of the program as guarded actions *)

Lemma transform_guard_actions t obj :
  transform t obj
  = transformer_guard t obj ≫= λ b : bool,
      if b then exec (transformer_actions t) obj else Ok obj.
Proof.
  destruct t as [g|name region endpoint|name endpoint|name region endpoint|];
    cbn [transform transformer_guard transformer_actions].
  - apply build_guard_actions.
  - unfold configureAWSDatasource.
    destruct (is_target obj "GrafanaDatasource" name) as [[]|]; bsimpl; [|done..].
    destruct (negb (String.eqb endpoint "")); cbn [app exec run]; bsimpl.
    + destruct (set_path obj datasource_url (VStr endpoint)); bsimpl; [|done].
      by rewrite bind_Ok_r.
    + by rewrite bind_Ok_r.
  - unfold configureExternalGrafana.
    destruct (is_target obj "Grafana" name) as [[]|]; bsimpl; [|done..].
    cbn [exec run]. by rewrite bind_Ok_r.
  - unfold configureRemoteWrite.
    destruct (is_target obj "Prometheus" name) as [[]|]; bsimpl; [|done..].
    cbn [exec run].
    destruct (set_path obj spec_replicas (VNum 1)) as [o1|]; bsimpl; [|done].
    destruct (set_path o1 spec_replicaExternalLabelName (VStr "")) as [o2|];
      bsimpl; [|done].
    by rewrite bind_Ok_r.
  - unfold grafanaOperatorImage.
    destruct (is_target obj "Deployment" "grafana-operator-controller-manager")
      as [[]|]; bsimpl; [|done..].
    cbn [exec run]. by rewrite bind_Ok_r.
Qed.

Lemma assigned_paths_written p : p ∈ written_paths → p ∈ assigned_paths.
Proof. unfold assigned_paths. intros H. apply elem_of_app. by left. Qed.

Lemma allowed_permitted a : allowed a → permitted a.
Proof. destruct a; cbn; [done|apply assigned_paths_written]. Qed.

Lemma transformer_actions_permitted t : Forall permitted (transformer_actions t).
Proof.
  destruct t as [g|name region endpoint|name endpoint|name region endpoint|];
    cbn [transformer_actions].
  - eapply Forall_impl; [apply actions_allowed|apply allowed_permitted].
  - apply Forall_app_2.
    + destruct (negb _); [|done]. apply Forall_singleton.
      unfold permitted, assigned_paths, written_paths. set_solver.
    + apply Forall_singleton. unfold permitted, assigned_paths, written_paths. set_solver.
  - apply Forall_singleton. unfold permitted, assigned_paths, written_paths. set_solver.
  - repeat (apply Forall_cons; split; [|]); [..|done];
      unfold permitted, assigned_paths, written_paths; set_solver.
  - apply Forall_singleton. unfold permitted, assigned_paths, written_paths. set_solver.
Qed.

Lemma assigned_paths_related p q :
  p ∈ assigned_paths → q ∈ assigned_paths → p = q ∨ diverge p q = true.
Proof.
  unfold assigned_paths, written_paths. cbn [app]. intros Hp Hq.
  repeat (apply elem_of_cons in Hp as [->|Hp]); [..|by apply elem_of_nil in Hp];
    repeat (apply elem_of_cons in Hq as [->|Hq]); try (by apply elem_of_nil in Hq);
    first [by left | by right].
Qed.

Lemma assigned_paths_container p :
  p ∈ assigned_paths → diverge p container = true ∨ ∃ s r, p = container ++ s :: r.
Proof.
  unfold assigned_paths, written_paths. cbn [app]. intros Hp.
  repeat (apply elem_of_cons in Hp as [->|Hp]); [..|by apply elem_of_nil in Hp];
    first [by left | by right; do 2 eexists].
Qed.

Lemma assigned_paths_guard p :
  p ∈ assigned_paths →
  diverge p [Field "kind"] = true ∧ diverge p [Field "metadata"] = true.
Proof.
  unfold assigned_paths, written_paths. cbn [app]. intros Hp.
  repeat (apply elem_of_cons in Hp as [->|Hp]); [..|by apply elem_of_nil in Hp];
    by split.
Qed.

Lemma permitted_run_run a b x y x' :
  permitted a → permitted b → run a x = Ok y → run b x = Ok x' →
  ∃ y', run b y = Ok y' ∧ (y' = x' ∨ run a x' = Ok y').
Proof.
  destruct a as [p|p v], b as [q|q u]; cbn [permitted run]; intros Ha Hb Hy Hx.
  - inv_ok. subst. rewrite Ha1. eauto.
  - inv_ok. subst. eauto.
  - subst q. apply bind_Ok in Hx as (c & Hc & [= <-]).
    assert (∃ c', get_path y container = Ok c') as [c' Hc'].
    { destruct (assigned_paths_container _ Ha) as [Hd|(s & r & ->)].
      - rewrite (get_path_set_path_diverge _ _ _ _ _ Hy Hd). eauto.
      - destruct (get_path_set_path_prefix _ _ _ _ _ _ Hy) as (c' & Hc' & _). eauto. }
    rewrite Hc'. eauto.
  - destruct (assigned_paths_related _ _ Ha Hb) as [->|Hd].
    + exists x'. split; [|by left]. by rewrite (set_path_set_path_eq _ _ _ _ _ Hy).
    + destruct (set_path_set_path_diverge _ _ _ _ _ _ _ Hy Hx Hd) as (y' & H1 & H2).
      eauto.
Qed.

Lemma permitted_run_frame a x y :
  permitted a → run a x = Ok y →
  get y (Field "kind") = get x (Field "kind")
  ∧ get y (Field "metadata") = get x (Field "metadata").
Proof.
  destruct a as [p|p v]; cbn [permitted run]; intros Ha H.
  - inv_ok. by subst.
  - destruct (assigned_paths_guard _ Ha) as [Hk Hm].
    rewrite <-!get_path_singleton.
    by rewrite (get_path_set_path_diverge _ _ _ _ _ H Hk),
               (get_path_set_path_diverge _ _ _ _ _ H Hm).
Qed.

Lemma transformer_guard_frame t x y :
  get y (Field "kind") = get x (Field "kind") →
  get y (Field "metadata") = get x (Field "metadata") →
  transformer_guard t y = transformer_guard t x.
Proof.
  intros Hk Hm. destruct t; cbn [transformer_guard];
    [by apply guard_frame|unfold is_target; by rewrite Hk, Hm..].
Qed.

(** *** Guarded actions in general *)

Section Guarded.

Variable ok : action → Prop.

Hypothesis ok_run_run : ∀ a b x y x',
  ok a → ok b → run a x = Ok y → run b x = Ok x' →
  ∃ y', run b y = Ok y' ∧ (y' = x' ∨ run a x' = Ok y').

Hypothesis ok_run_frame : ∀ a x y,
  ok a → run a x = Ok y →
  get y (Field "kind") = get x (Field "kind")
  ∧ get y (Field "metadata") = get x (Field "metadata").

Variable G : Type.
Variable transform_of : G → transformation.
Variable guard_of : G → value → result bool.
Variable actions_of : G → list action.

Hypothesis transform_of_guard_actions : ∀ g obj,
  transform_of g obj
  = guard_of g obj ≫= λ b : bool, if b then exec (actions_of g) obj else Ok obj.

Hypothesis actions_of_ok : ∀ g, Forall ok (actions_of g).

Hypothesis guard_of_frame : ∀ g x y,
  get y (Field "kind") = get x (Field "kind") →
  get y (Field "metadata") = get x (Field "metadata") →
  guard_of g y = guard_of g x.

Lemma ok_run_exec_run a acts x y z w :
  ok a → Forall ok acts →
  run a x = Ok y → exec acts x = Ok z → run a z = Ok w →
  ∃ z', exec acts y = Ok z' ∧ run a z' = Ok w.
Proof using ok_run_run.
  intros Ha Hacts. revert x y z. induction Hacts as [|b acts Hb _ IH]; intros x y z.
  - cbn [exec]. intros Hy [= <-] Hw.
    assert (w = y) as -> by congruence.
    exists y. split; [done|]. by eapply run_idem.
  - cbn [exec]. intros Hy Hz Hw. apply bind_Ok in Hz as (x' & Hx' & Hz).
    destruct (ok_run_run a b x y x' Ha Hb Hy Hx') as (y' & Hy' & [->|Hc]).
    + exists z. rewrite Hy'. by split.
    + destruct (IH x' y' z Hc Hz Hw) as (z' & Hz' & Hw').
      exists z'. rewrite Hy'. by split.
Qed.

Lemma ok_exec_idem acts x z :
  Forall ok acts → exec acts x = Ok z → exec acts z = Ok z.
Proof using ok_run_run.
  revert x z. induction acts as [|a acts IH] using rev_ind; intros x z Hall.
  - done.
  - apply Forall_app in Hall as [Hacts Ha]. rewrite Forall_singleton in Ha.
    rewrite !exec_app. intros H. apply bind_Ok in H as (y & Hy & Hz).
    cbn [exec] in Hz. rewrite bind_Ok_r in Hz.
    pose proof (IH x y Hacts Hy) as Hfix.
    destruct (ok_run_exec_run a acts y z y z Ha Hacts Hz Hfix Hz) as (z' & Hz' & Hw).
    rewrite Hz'. cbn [mbind result_bind exec]. by rewrite Hw.
Qed.

Lemma ok_exec_frame acts x y :
  Forall ok acts → exec acts x = Ok y →
  get y (Field "kind") = get x (Field "kind")
  ∧ get y (Field "metadata") = get x (Field "metadata").
Proof using ok_run_frame.
  intros Hall. revert x. induction Hall as [|a acts Ha _ IH]; intros x; cbn [exec].
  - by intros [= <-].
  - intros H. apply bind_Ok in H as (x' & Hx' & H).
    destruct (ok_run_frame _ _ _ Ha Hx') as [<- <-]. by apply IH.
Qed.

Lemma plan_with_ok gs obj acts :
  plan_with guard_of actions_of gs obj = Ok acts → Forall ok acts.
Proof using actions_of_ok.
  revert acts. induction gs as [|g gs IH]; intros acts; cbn [plan_with].
  - by intros [= <-].
  - intros H. inv_ok. subst. apply Forall_app_2; [|by apply IH].
    destruct a; [apply actions_of_ok|done].
Qed.

Lemma plan_with_frame gs x y :
  get y (Field "kind") = get x (Field "kind") →
  get y (Field "metadata") = get x (Field "metadata") →
  plan_with guard_of actions_of gs y = plan_with guard_of actions_of gs x.
Proof using guard_of_frame.
  intros Hk Hm. induction gs as [|g gs IH]; [done|].
  cbn [plan_with]. by rewrite (guard_of_frame g x y), IH.
Qed.

Lemma apply_obj_plan_with gs obj obj' :
  apply_obj (transform_of <$> gs) obj = Ok obj' ↔
  ∃ acts, plan_with guard_of actions_of gs obj = Ok acts ∧ exec acts obj = Ok obj'.
Proof using ok_run_frame transform_of_guard_actions actions_of_ok guard_of_frame.
  revert obj. induction gs as [|g gs IH]; intros obj.
  - cbn. split; [intros [= <-]; by eexists|]. by intros (acts & [= <-] & H).
  - cbn [fmap list_fmap apply_obj plan_with]. rewrite transform_of_guard_actions. split.
    + intros H. apply bind_Ok in H as (o1 & Ho1 & H).
      apply bind_Ok in Ho1 as (b & Hb & Ho1). rewrite Hb. bsimpl.
      apply IH in H as (acts & Hacts & H).
      assert (Forall ok (if b then actions_of g else [])) as Hall
        by (destruct b; [apply actions_of_ok|done]).
      assert (exec (if b then actions_of g else []) obj = Ok o1) as Hex
        by (by destruct b).
      destruct (ok_exec_frame _ _ _ Hall Hex) as [Hk Hm].
      rewrite <-(plan_with_frame gs obj o1 Hk Hm), Hacts. bsimpl.
      eexists. split; [done|]. rewrite exec_app, Hex. done.
    + intros (acts & Hp & H).
      apply bind_Ok in Hp as (b & Hb & Hp).
      apply bind_Ok in Hp as (rest & Hrest & [= <-]).
      rewrite Hb. bsimpl. rewrite exec_app in H.
      apply bind_Ok in H as (o1 & Hex & H).
      assert (Forall ok (if b then actions_of g else [])) as Hall
        by (destruct b; [apply actions_of_ok|done]).
      destruct (ok_exec_frame _ _ _ Hall Hex) as [Hk Hm].
      assert ((if b then exec (actions_of g) obj else Ok obj) = Ok o1) as ->
        by (by destruct b).
      bsimpl. apply IH. exists rest. split; [|done].
      by rewrite (plan_with_frame gs obj o1 Hk Hm).
Qed.

Lemma apply_obj_idem_with gs obj obj' :
  apply_obj (transform_of <$> gs) obj = Ok obj' →
  apply_obj (transform_of <$> gs) obj' = Ok obj'.
Proof using ok_run_run ok_run_frame transform_of_guard_actions actions_of_ok guard_of_frame.
  rewrite !apply_obj_plan_with. intros (acts & Hp & H).
  pose proof (plan_with_ok _ _ _ Hp) as Hall.
  destruct (ok_exec_frame _ _ _ Hall H) as [Hk Hm].
  exists acts. split.
  - by rewrite (plan_with_frame gs obj obj' Hk Hm).
  - by eapply ok_exec_idem.
Qed.

(** A transformation leaves [kind] and [metadata] as they are. *)
Lemma transform_of_frame g obj obj' :
  transform_of g obj = Ok obj' →
  get obj' (Field "kind") = get obj (Field "kind")
  ∧ get obj' (Field "metadata") = get obj (Field "metadata").
Proof using ok_run_frame transform_of_guard_actions actions_of_ok.
  rewrite transform_of_guard_actions. intros H.
  apply bind_Ok in H as ([] & _ & H).
  - by eapply ok_exec_frame.
  - by injection H as <-.
Qed.

Hypothesis guard_of_Throw : ∀ g obj e, guard_of g obj = Throw e → e = TypeError.

Lemma transform_of_Throw g obj e : transform_of g obj = Throw e → e = TypeError.
Proof using transform_of_guard_actions guard_of_Throw.
  rewrite transform_of_guard_actions.
  intros [H|([] & _ & H)]%bind_Throw;
    [by eapply guard_of_Throw|by eapply exec_Throw|done].
Qed.

(** Two transformations in sequence perform the actions of the first and
    then those of the second, each list decided by its guard on the object
    they start from. *)
Lemma transform_of_seq g1 g2 obj b1 b2 :
  guard_of g1 obj = Ok b1 → guard_of g2 obj = Ok b2 →
  transform_of g1 obj ≫= transform_of g2
  = exec ((if b1 then actions_of g1 else []) ++ (if b2 then actions_of g2 else [])) obj.
Proof using ok_run_frame transform_of_guard_actions actions_of_ok guard_of_frame.
  intros H1 H2. rewrite exec_app, transform_of_guard_actions, H1. bsimpl.
  assert ((if b1 then exec (actions_of g1) obj else Ok obj)
          = exec (if b1 then actions_of g1 else []) obj) as -> by (by destruct b1).
  destruct (exec (if b1 then actions_of g1 else []) obj) as [o1|e] eqn:Hex; bsimpl; [|done].
  assert (Forall ok (if b1 then actions_of g1 else [])) as Hall
    by (destruct b1; [apply actions_of_ok|done]).
  destruct (ok_exec_frame _ _ _ Hall Hex) as [Hk Hm].
  rewrite transform_of_guard_actions, (guard_of_frame g2 obj o1 Hk Hm), H2. bsimpl.
  by destruct b2.
Qed.

(** Two transformations commute on an object when the actions they perform
    on it do. *)
Lemma transform_of_swap g1 g2 obj :
  (∀ b1 b2, guard_of g1 obj = Ok b1 → guard_of g2 obj = Ok b2 →
     exec ((if b1 then actions_of g1 else []) ++ (if b2 then actions_of g2 else [])) obj
     = exec ((if b2 then actions_of g2 else []) ++ (if b1 then actions_of g1 else [])) obj) →
  transform_of g1 obj ≫= transform_of g2 = transform_of g2 obj ≫= transform_of g1.
Proof using ok_run_frame transform_of_guard_actions actions_of_ok guard_of_frame guard_of_Throw.
  intros Hswap.
  assert (∀ g g', (∃ e, guard_of g obj = Throw e) →
            transform_of g obj ≫= transform_of g' = Throw TypeError
            ∧ transform_of g' obj ≫= transform_of g = Throw TypeError) as Hfail.
  { intros g g' [e He]. pose proof (guard_of_Throw _ _ _ He) as ->. split.
    - by rewrite transform_of_guard_actions, He.
    - destruct (transform_of g' obj) as [o'|e'] eqn:Ho'; bsimpl.
      + destruct (transform_of_frame _ _ _ Ho') as [Hk Hm].
        by rewrite transform_of_guard_actions, (guard_of_frame g obj o' Hk Hm), He.
      + by rewrite (transform_of_Throw _ _ _ Ho'). }
  destruct (guard_of g1 obj) as [b1|e1] eqn:H1.
  - destruct (guard_of g2 obj) as [b2|e2] eqn:H2.
    + rewrite (transform_of_seq g1 g2 obj b1 b2 H1 H2),
              (transform_of_seq g2 g1 obj b2 b1 H2 H1).
      by apply Hswap.
    + destruct (Hfail g2 g1) as [-> ->]; [by rewrite H2; eauto|done].
  - destruct (Hfail g1 g2) as [-> ->]; [by rewrite H1; eauto|done].
Qed.

End Guarded.

(** *** The transformations of the program *)

Lemma guard_Throw g obj e : guard g obj = Throw e → e = TypeError.
Proof.
  destruct g; cbn [guard]; try apply is_target_Throw.
  intros [H|(k & _ & [=])]%bind_Throw. by eapply get_Throw.
Qed.

Lemma transformer_guard_Throw t obj e :
  transformer_guard t obj = Throw e → e = TypeError.
Proof.
  destruct t; cbn [transformer_guard]; [apply guard_Throw|apply is_target_Throw..].
Qed.

(** The guard passes exactly on the objects of the kind, and of the name,
    that the transformation is bound to. *)
Lemma is_target_true obj kind name :
  is_target obj kind name = Ok true ↔
  get obj (Field "kind") = Ok (VStr kind) ∧ get_path obj metadata_name = Ok (VStr name).
Proof.
  assert (∀ v s, strict_eq_str v s = true ↔ v = VStr s) as Heq.
  { intros v s. destruct v; simpl; try (split; [done|congruence]).
    destruct (String.eqb_spec s0 s); split; congruence. }
  unfold is_target, metadata_name. cbn [get_path]. split.
  - intros H. apply bind_Ok in H as (k & Hk & H).
    destruct (strict_eq_str k kind) eqn:Hkind; [|done].
    apply Heq in Hkind as ->. split; [done|].
    apply bind_Ok in H as (md & Hmd & H). apply bind_Ok in H as (n & Hn & [= H]).
    apply Heq in H as ->. rewrite Hmd. bsimpl. by rewrite Hn.
  - intros [Hk H]. apply bind_Ok in H as (md & Hmd & H).
    apply bind_Ok in H as (n & Hn & [= ->]). rewrite Hk. bsimpl.
    rewrite (proj2 (Heq (VStr kind) kind) eq_refl), Hmd. bsimpl. rewrite Hn. bsimpl.
    by rewrite (proj2 (Heq (VStr name) name) eq_refl).
Qed.

Lemma transformer_guard_true t obj :
  transformer_guard t obj = Ok true →
  get obj (Field "kind") = Ok (VStr (target_kind t))
  ∧ ∀ name, target_name t = Some name → get_path obj metadata_name = Ok (VStr name).
Proof.
  assert (∀ kind name, is_target obj kind name = Ok true →
            get obj (Field "kind") = Ok (VStr kind)
            ∧ ∀ name', Some name = Some name' →
                get_path obj metadata_name = Ok (VStr name')) as Htarget.
  { intros kind name [Hk Hn]%is_target_true. split; [done|]. by intros ? [= <-]. }
  destruct t as [[]| | | |]; cbn [transformer_guard guard target_kind target_name];
    try apply Htarget.
  intros H. apply bind_Ok in H as (k & Hk & [= H]). split; [|done].
  destruct k; try done. simpl in H. by apply String.eqb_eq in H as ->.
Qed.

Lemma transform_frame t obj obj' :
  transform t obj = Ok obj' →
  get obj' (Field "kind") = get obj (Field "kind")
  ∧ get obj' (Field "metadata") = get obj (Field "metadata").
Proof.
  apply (transform_of_frame permitted permitted_run_frame transformer transform
           transformer_guard transformer_actions transform_guard_actions
           transformer_actions_permitted).
Qed.

Lemma transform_swap t1 t2 obj :
  (∀ b1 b2, transformer_guard t1 obj = Ok b1 → transformer_guard t2 obj = Ok b2 →
     exec ((if b1 then transformer_actions t1 else [])
           ++ (if b2 then transformer_actions t2 else [])) obj
     = exec ((if b2 then transformer_actions t2 else [])
             ++ (if b1 then transformer_actions t1 else [])) obj) →
  transform t1 obj ≫= transform t2 = transform t2 obj ≫= transform t1.
Proof.
  apply (transform_of_swap permitted permitted_run_frame transformer transform
           transformer_guard transformer_actions transform_guard_actions
           transformer_actions_permitted transformer_guard_frame
           transformer_guard_Throw).
Qed.

(** Transformations bound to different kinds or names: no object passes the
    guards of both. *)
Lemma transform_swap_exclusive t1 t2 obj :
  (transformer_guard t1 obj = Ok true → transformer_guard t2 obj = Ok true → False) →
  transform t1 obj ≫= transform t2 = transform t2 obj ≫= transform t1.
Proof.
  intros Hex. apply transform_swap. intros [] [] H1 H2; try done.
  - by destruct (Hex H1 H2).
  - by rewrite app_nil_r.
  - by rewrite app_nil_r.
Qed.

Lemma transform_swap_separate t1 t2 obj :
  Forall (λ a, Forall (separate a) (transformer_actions t2)) (transformer_actions t1) →
  transform t1 obj ≫= transform t2 = transform t2 obj ≫= transform t1.
Proof.
  intros Hsep. apply transform_swap. intros [] [] _ _; rewrite ?app_nil_r; try done.
  by apply exec_swap.
Qed.

Lemma transform_swap_kinds t1 t2 obj :
  target_kind t1 ≠ target_kind t2 →
  transform t1 obj ≫= transform t2 = transform t2 obj ≫= transform t1.
Proof.
  intros Hne. apply transform_swap_exclusive.
  intros [H1 _]%transformer_guard_true [H2 _]%transformer_guard_true. congruence.
Qed.

Lemma transform_swap_names t1 t2 obj n1 n2 :
  target_name t1 = Some n1 → target_name t2 = Some n2 → n1 ≠ n2 →
  transform t1 obj ≫= transform t2 = transform t2 obj ≫= transform t1.
Proof.
  intros Hn1 Hn2 Hne. apply transform_swap_exclusive.
  intros [_ H1]%transformer_guard_true [_ H2]%transformer_guard_true.
  specialize (H1 _ Hn1). specialize (H2 _ Hn2). congruence.
Qed.

Lemma assign_action_separate src p src' q :
  diverge p q = true →
  Forall (λ a, Forall (separate a) (assign_action src' q)) (assign_action src p).
Proof.
  intros Hd. unfold assign_action.
  destruct src as [s|]; [|done]. destruct (truthy (Some s)); [|done].
  apply Forall_singleton.
  destruct src' as [s'|]; [|done]. destruct (truthy (Some s')); [|done].
  by apply Forall_singleton.
Qed.

Lemma assign_action_separate_l src p b :
  separate (Assign p (VStr "")) b → Forall (λ a, separate a b) (assign_action src p).
Proof.
  intros Hsep. unfold assign_action.
  destruct src as [s|]; [|done]. destruct (truthy (Some s)); [|done].
  apply Forall_singleton. by destruct b.
Qed.

(** ** Workloads under the generators *)

Lemma is_target_other obj kind name n :
  is_target obj kind name = Ok true → n ≠ name → is_target obj kind n = Ok false.
Proof.
  unfold is_target. destruct (get obj (Field "kind")) as [k|]; [|done]. bsimpl.
  destruct (strict_eq_str k kind); [|done].
  destruct (get obj (Field "metadata")) as [md|]; [|done]. bsimpl.
  destruct (get md (Field "name")) as [v|]; [|done]. bsimpl.
  intros [= Hv] Hn. f_equal. destruct v; try done. simpl in *.
  apply String.eqb_eq in Hv as ->. apply String.eqb_neq. congruence.
Qed.

Lemma scaleDeployment_other n replicas name obj :
  is_target obj "Deployment" name = Ok true → n ≠ name →
  scaleDeployment n replicas obj = Ok obj.
Proof.
  intros Ht Hn. unfold scaleDeployment. by rewrite (is_target_other _ _ _ _ Ht Hn).
Qed.

Lemma setLimits_other n cpu memory name obj :
  is_target obj "Deployment" name = Ok true → n ≠ name →
  setLimits n cpu memory obj = Ok obj.
Proof.
  intros Ht Hn. unfold setLimits. by rewrite (is_target_other _ _ _ _ Ht Hn).
Qed.

(** Reading on from a primitive never reaches an object or an array. *)
Lemma primitive_get_path c q h :
  is_ref c = false → get_path c q = Ok h → is_ref h = false.
Proof.
  revert c. induction q as [|s q IH]; intros c Hc; cbn [get_path].
  - by intros [= <-].
  - intros H. apply bind_Ok in H as (d & Hd & H). apply (IH d); [|done].
    destruct c, s; try done; simpl in Hd; injection Hd as <-; try done.
    by destruct (String.get _ _).
Qed.

Lemma holds_ref_prefix x p q : holds_ref x (p ++ q) → holds_ref x p.
Proof.
  intros (h & Hh & Href). rewrite get_path_app in Hh.
  apply bind_Ok in Hh as (c & Hc & Hh). exists c. split; [done|].
  destruct (is_ref c) eqn:E; [done|].
  by rewrite (primitive_get_path c q h E Hh) in Href.
Qed.

Lemma set_path_holds_ref x p v y q :
  set_path x p v = Ok y → holds_ref x q →
  diverge p q = true ∨ (∃ s r, p = q ++ s :: r) → holds_ref y q.
Proof.
  intros Hy (h & Hh & Href) [Hd|(s & r & ->)].
  - exists h. by rewrite (get_path_set_path_diverge _ _ _ _ _ Hy Hd).
  - by eapply get_path_set_path_prefix.
Qed.

Lemma set_path_is_target x p v y kind name :
  set_path x p v = Ok y →
  diverge p [Field "kind"] = true → diverge p [Field "metadata"] = true →
  is_target y kind name = is_target x kind name.
Proof.
  intros Hy Hk Hm. unfold is_target.
  rewrite <-!get_path_singleton.
  by rewrite (get_path_set_path_diverge _ _ _ _ _ Hy Hk),
    (get_path_set_path_diverge _ _ _ _ _ Hy Hm).
Qed.

Lemma written_paths_holders p :
  p ∈ written_paths →
  (diverge p requests = true ∨ ∃ s r, p = requests ++ s :: r)
  ∧ (diverge p limits = true ∨ ∃ s r, p = limits ++ s :: r).
Proof.
  unfold written_paths. intros Hp.
  repeat (apply elem_of_cons in Hp as [->|Hp]); [..|by apply elem_of_nil in Hp];
    split; first [by left | by right; do 2 eexists].
Qed.

(** An assignment of the generators keeps a workload a workload. *)
Lemma set_path_workload name p v obj obj' :
  p ∈ written_paths → workload name obj → set_path obj p v = Ok obj' →
  workload name obj'.
Proof.
  intros Hp (Ht & Hr & Hl) H.
  destruct (written_paths_guard p Hp) as [Hk Hm].
  destruct (written_paths_holders p Hp) as [Hpr Hpl].
  split_and!.
  - by rewrite (set_path_is_target _ _ _ _ _ _ H Hk Hm).
  - by eapply set_path_holds_ref.
  - by eapply set_path_holds_ref.
Qed.

(** On a workload, every assignment of the generators succeeds. *)
Lemma set_path_workload_Ok name p v obj :
  p ∈ written_paths → workload name obj → ∃ obj', set_path obj p v = Ok obj'.
Proof.
  unfold written_paths. intros Hp (_ & Hr & Hl).
  repeat (apply elem_of_cons in Hp as [->|Hp]); [..|by apply elem_of_nil in Hp].
  - apply (set_path_snoc_Ok obj [Field "spec"] (Field "replicas")).
    by apply (holds_ref_prefix obj [Field "spec"]) in Hr.
  - by apply (set_path_snoc_Ok obj requests (Field "cpu")).
  - by apply (set_path_snoc_Ok obj limits (Field "cpu")).
  - by apply (set_path_snoc_Ok obj requests (Field "memory")).
  - by apply (set_path_snoc_Ok obj limits (Field "memory")).
  - apply (set_path_snoc_Ok obj pod_spec (Field "tolerations")).
    by apply (holds_ref_prefix obj pod_spec) in Hr.
Qed.

Lemma run_workload name a obj :
  allowed a → workload name obj →
  ∃ obj', run a obj = Ok obj' ∧ workload name obj'
          ∧ ∀ q, match a with
                 | Touch _ => True
                 | Assign p _ => diverge p q = true
                 end → get_path obj' q = get_path obj q.
Proof.
  intros Ha Hw. destruct a as [p|p v]; cbn [allowed run] in *.
  - subst p. destruct Hw as (Ht & Hr & Hl).
    destruct (holds_ref_prefix obj container _ Hr) as (c & -> & _).
    exists obj. by split_and!.
  - destruct (set_path_workload_Ok name p v obj Ha Hw) as [obj' H].
    exists obj'. split_and!; [done|by eapply set_path_workload|].
    intros q Hq. by eapply get_path_set_path_diverge.
Qed.

Lemma exec_workload name acts obj :
  Forall allowed acts → workload name obj →
  ∃ obj', exec acts obj = Ok obj' ∧ workload name obj'
          ∧ ∀ q, Forall (λ a, match a with
                              | Touch _ => True
                              | Assign p _ => diverge p q = true
                              end) acts → get_path obj' q = get_path obj q.
Proof.
  intros Hall. revert obj. induction Hall as [|a acts Ha _ IH]; intros obj Hw.
  - exists obj. by split_and!.
  - destruct (run_workload name a obj Ha Hw) as (obj1 & H1 & Hw1 & Hf1).
    destruct (IH obj1 Hw1) as (obj' & H & Hw' & Hf).
    exists obj'. cbn [exec]. rewrite H1. bsimpl. split_and!; [done..|].
    intros q Hq. apply Forall_cons in Hq as [Hq1 Hq].
    by rewrite (Hf q Hq), (Hf1 q Hq1).
Qed.

(** A generator on a workload: it returns a workload, and it changes no path
    that diverges from the paths it assigns to. *)
Lemma build_workload name g obj :
  workload name obj →
  ∃ obj', build g obj = Ok obj' ∧ workload name obj'
          ∧ ∀ q, Forall (λ a, match a with
                              | Touch _ => True
                              | Assign p _ => diverge p q = true
                              end) (actions g) → get_path obj' q = get_path obj q.
Proof.
  intros Hw. rewrite build_guard_actions.
  destruct (guard g obj) as [[]|e] eqn:Hg; bsimpl.
  - apply exec_workload; [apply actions_allowed|done].
  - exists obj. by split_and!.
  - destruct Hw as (Ht & _).
    assert (∀ n, is_target obj "Deployment" n ≠ Throw e) as Hn.
    { intros n. destruct (decide (n = name)) as [->|Hne]; [congruence|].
      by rewrite (is_target_other _ _ _ _ Ht Hne). }
    destruct g as [n ?|n ? ?|?]; cbn [guard] in Hg; [by apply Hn in Hg..|].
    apply is_target_true in Ht as [Hk _]. by rewrite Hk in Hg.
Qed.

(** [scaleDeployment] on a workload. *)
Lemma scaleDeployment_workload n replicas name obj :
  workload name obj →
  ∃ obj', scaleDeployment n replicas obj = Ok obj' ∧ workload name obj'
          ∧ get_path obj' spec_replicas
            = (if decide (n = name) then Ok (VNum replicas)
               else get_path obj spec_replicas)
          ∧ ∀ q, diverge spec_replicas q = true → get_path obj' q = get_path obj q.
Proof.
  intros Hw. pose proof Hw as (Ht & _). unfold scaleDeployment.
  destruct (decide (n = name)) as [->|Hn].
  - rewrite Ht. bsimpl.
    destruct (set_path_workload_Ok name spec_replicas (VNum replicas) obj) as [obj' H];
      [unfold written_paths; set_solver|done|].
    exists obj'. split_and!; [done| |by eapply get_path_set_path_eq|].
    + eapply set_path_workload; [|done..]. unfold written_paths. set_solver.
    + intros q Hq. by eapply get_path_set_path_diverge.
  - rewrite (is_target_other _ _ _ _ Ht Hn). bsimpl. exists obj. by split_and!.
Qed.

(** [setLimits] on a workload leaves the replicas and the tolerations. *)
Lemma setLimits_workload n cpu memory name obj :
  workload name obj →
  ∃ obj', setLimits n cpu memory obj = Ok obj' ∧ workload name obj'
          ∧ get_path obj' spec_replicas = get_path obj spec_replicas
          ∧ get_path obj' tolerations = get_path obj tolerations.
Proof.
  intros Hw.
  destruct (build_workload name (SetLimits n cpu memory) obj Hw)
    as (obj' & H & Hw' & Hf).
  exists obj'. split_and!; [done..| |]; apply Hf; cbn [actions];
    apply Forall_cons; (split; [done|]);
    unfold assign_action;
    repeat (apply Forall_app; split);
    repeat match goal with
           | |- context [match ?o with Some _ => _ | None => _ end] => destruct o
           | |- context [if ?b then _ else _] => destruct b
           end; by repeat constructor.
Qed.

(** [tolerateDedicated] on a workload. *)
Lemma tolerateDedicated_workload dedicatedValue name obj :
  workload name obj →
  ∃ obj', tolerateDedicated dedicatedValue obj = Ok obj' ∧ workload name obj'
          ∧ get_path obj' tolerations = Ok (VArr [toleration dedicatedValue] ∅)
          ∧ ∀ q, diverge tolerations q = true → get_path obj' q = get_path obj q.
Proof.
  intros Hw. pose proof Hw as (Ht & _).
  pose proof (is_target_kind_is _ _ _ Ht) as Hkind.
  unfold tolerateDedicated, kind_is in *.
  destruct (get obj (Field "kind")) as [k|]; [|done]. bsimpl. rewrite Hkind.
  destruct (set_path_workload_Ok name tolerations
              (VArr [toleration dedicatedValue] ∅) obj) as [obj' H];
    [unfold written_paths; set_solver|done|].
  exists obj'. split_and!; [done| |by eapply get_path_set_path_eq|].
  - eapply set_path_workload; [|done..]. unfold written_paths. set_solver.
  - intros q Hq. by eapply get_path_set_path_diverge.
Qed.

(** ** Further properties of the transformations *)

Lemma assign_action_Forall (P : action → Prop) src p :
  (∀ v, P (Assign p v)) → Forall P (assign_action src p).
Proof.
  intros HP. unfold assign_action.
  destruct src as [s|]; [|done]. destruct (truthy (Some s)); [|done].
  by apply Forall_singleton.
Qed.

(** The actions of [setLimits] are separate from an assignment to a path
    that diverges from the four resource fields and from [container]. *)
Lemma setLimits_actions_separate name cpu memory acts :
  Forall (λ b, match b with
               | Touch _ => False
               | Assign q _ =>
                   (diverge q container = true ∨ ∃ s r, q = container ++ s :: r)
                   ∧ Forall (λ p, diverge p q = true)
                       [requests_cpu; limits_cpu; requests_memory; limits_memory]
               end) acts →
  Forall (λ a, Forall (separate a) acts) (actions (SetLimits name cpu memory)).
Proof.
  intros Hacts. cbn [actions].
  assert (∀ p, p ∈ [requests_cpu; limits_cpu; requests_memory; limits_memory] →
            ∃ s r, p = container ++ s :: r) as Hext.
  { intros p Hp.
    repeat (apply elem_of_cons in Hp as [->|Hp]); [..|by apply elem_of_nil in Hp];
      by do 2 eexists. }
  assert (∀ p src, p ∈ [requests_cpu; limits_cpu; requests_memory; limits_memory] →
            Forall (λ a, Forall (separate a) acts) (assign_action src p)) as Hfield.
  { intros p src Hp. apply assign_action_Forall. intros v.
    eapply Forall_impl; [exact Hacts|]. intros [q|q u]; cbn [separate]; [done|].
    intros [_ Hq]. rewrite Forall_forall in Hq. by apply Hq. }
  apply Forall_cons; split.
  - eapply Forall_impl; [exact Hacts|]. intros [q|q u]; cbn [separate]; [done|].
    by intros [Hq _].
  - repeat apply Forall_app_2; apply Hfield; set_solver.
Qed.

(** Decides that the actions of two lists of assignments are separate. *)
Ltac solve_separate :=
  repeat first
    [ apply Forall_nil_2
    | apply Forall_cons_2; lazy beta iota
    | apply Forall_app_2
    | match goal with |- context [negb ?b] => destruct b end
    | split
    | reflexivity
    | left; reflexivity
    | right; by do 2 eexists ].

(** X1: two transformations of the program commute, on every object, unless
    the same generator made them for the same target: in either order they
    give the same object, or throw. *)
Theorem transform_comm t1 t2 obj :
  ¬ conflict t1 t2 →
  transform t1 obj ≫= transform t2 = transform t2 obj ≫= transform t1.
Proof.
  intros Hconf.
  destruct (decide (target_kind t1 = target_kind t2)) as [Hkind|Hkind];
    [|by apply transform_swap_kinds].
  assert (∀ n1 n2, target_name t1 = Some n1 → target_name t2 = Some n2 → n1 ≠ n2 →
            transform t1 obj ≫= transform t2 = transform t2 obj ≫= transform t1)
    as Hnames by (intros; by eapply transform_swap_names).
  destruct t1 as [[n1 r1|n1 c1 m1|v1]|n1 g1 e1|n1 e1|n1 g1 e1|],
           t2 as [[n2 r2|n2 c2 m2|v2]|n2 g2 e2|n2 e2|n2 g2 e2|];
    try discriminate Hkind; cbn [conflict] in Hconf;
    try (by apply (Hnames n1 n2)); try (by destruct Hconf); try reflexivity;
    first
      [ apply transform_swap_separate;
        first [apply setLimits_actions_separate|idtac];
        cbn [transformer_actions actions]; by solve_separate
      | symmetry; apply transform_swap_separate;
        first [apply setLimits_actions_separate|idtac];
        cbn [transformer_actions actions]; by solve_separate ].
Qed.

Lemma transform_comm_witness :
  ¬ conflict (Generated (ScaleDeployment "temporal-frontend" 3))
             (Generated (SetLimits "temporal-frontend"
                           (Some (CPULimits.mk (Some "500m") None)) None))
  ∧ scaleDeployment "temporal-frontend" 3 (Sample.deployment "temporal-frontend")
    ≫= setLimits "temporal-frontend" (Some (CPULimits.mk (Some "500m") None)) None
    = setLimits "temporal-frontend" (Some (CPULimits.mk (Some "500m") None)) None
        (Sample.deployment "temporal-frontend")
      ≫= scaleDeployment "temporal-frontend" 3.
Proof.
  assert (¬ conflict (Generated (ScaleDeployment "temporal-frontend" 3))
                     (Generated (SetLimits "temporal-frontend"
                                   (Some (CPULimits.mk (Some "500m") None)) None)))
    as Hconf by (intros []).
  split; [exact Hconf|].
  apply (transform_comm (Generated (ScaleDeployment "temporal-frontend" 3))
           (Generated (SetLimits "temporal-frontend"
                         (Some (CPULimits.mk (Some "500m") None)) None))
           (Sample.deployment "temporal-frontend") Hconf).
Defined.

(** The lists of [createMonitoring] are lists of transformations of the
    program. *)
Lemma monitoringTransformations_transformers region endpoint :
  monitoringTransformations region endpoint
  = transform <$> [ConfigureRemoteWrite "k8s" region endpoint].
Proof. reflexivity. Qed.

Lemma dashboardsTransformations_transformers region grafanaEndpoint prometheusEndpoint :
  dashboardsTransformations region grafanaEndpoint prometheusEndpoint
  = transform <$>
    [ ConfigureExternalGrafana "external-grafana" grafanaEndpoint;
      ConfigureAWSDatasource "external-prometheus" region prometheusEndpoint;
      ConfigureAWSDatasource "cloudwatch" region "";
      GrafanaOperatorImage ].
Proof. reflexivity. Qed.

(** X2: taking an object through any list of transformations of the program
    a second time gives what the first pass gave; a pass that throws,
    throws. *)
Theorem transform_twice (ts : list transformer) (obj : value) :
  apply_obj (transform <$> ts) obj ≫= apply_obj (transform <$> ts)
  = apply_obj (transform <$> ts) obj.
Proof.
  destruct (apply_obj (transform <$> ts) obj) as [obj'|e] eqn:H; [|done]. bsimpl.
  revert H.
  apply (apply_obj_idem_with permitted permitted_run_run permitted_run_frame
           transformer transform transformer_guard transformer_actions
           transform_guard_actions transformer_actions_permitted
           transformer_guard_frame).
Qed.

(** X3: no transformation of the program changes the [kind] or the
    [metadata] of an object, so that the objects a transformation is bound
    to are the same before and after any other. *)
Theorem transform_keeps_identity t obj obj' :
  transform t obj = Ok obj' →
  get obj' (Field "kind") = get obj (Field "kind")
  ∧ get obj' (Field "metadata") = get obj (Field "metadata")
  ∧ get_path obj' metadata_name = get_path obj metadata_name
  ∧ ∀ t', transformer_guard t' obj' = transformer_guard t' obj.
Proof.
  intros H. destruct (transform_frame _ _ _ H) as [Hk Hm].
  split_and!; [done..| |].
  - unfold metadata_name. cbn [get_path]. by rewrite Hm.
  - intros t'. by apply transformer_guard_frame.
Qed.

Lemma transform_keeps_identity_witness :
  ∃ obj',
    transform (Generated (TolerateDedicated "temporal"))
      (Sample.deployment "temporal-history") = Ok obj'
    ∧ obj' ≠ Sample.deployment "temporal-history"
    ∧ get obj' (Field "kind") = Ok (VStr "Deployment")
    ∧ get_path obj' metadata_name = Ok (VStr "temporal-history").
Proof.
  eexists. split; [reflexivity|]. split; [vm_compute; discriminate|].
  destruct (transform_keeps_identity (Generated (TolerateDedicated "temporal"))
              (Sample.deployment "temporal-history") _ eq_refl)
    as (Hk & _ & Hn & _).
  split; [by rewrite Hk|by rewrite Hn].
Defined.

(** X4: a transformation changes only the objects it is bound to: an object
    that comes out different has the kind of the transformation and, when
    the transformation is bound to a name, that name. *)
Theorem transform_changes_targets_only t obj obj' :
  transform t obj = Ok obj' → obj' ≠ obj →
  get obj (Field "kind") = Ok (VStr (target_kind t))
  ∧ ∀ name, target_name t = Some name → get_path obj metadata_name = Ok (VStr name).
Proof.
  rewrite transform_guard_actions. intros H Hne.
  apply bind_Ok in H as ([] & Hg & H).
  - by apply transformer_guard_true.
  - injection H as <-. done.
Qed.

Lemma transform_changes_targets_only_witness :
  ∃ obj',
    transform (Generated (ScaleDeployment "temporal-history" 4))
      (Sample.deployment "temporal-history") = Ok obj'
    ∧ obj' ≠ Sample.deployment "temporal-history"
    ∧ get (Sample.deployment "temporal-history") (Field "kind") = Ok (VStr "Deployment")
    ∧ get_path (Sample.deployment "temporal-history") metadata_name
      = Ok (VStr "temporal-history").
Proof.
  eexists. split; [reflexivity|].
  match goal with |- ?o' ≠ ?o ∧ _ => assert (o' ≠ o) as Hne by (vm_compute; discriminate) end.
  split; [exact Hne|].
  destruct (transform_changes_targets_only
              (Generated (ScaleDeployment "temporal-history" 4))
              (Sample.deployment "temporal-history") _ eq_refl Hne) as [Hk Hn].
  split; [exact Hk|]. by apply Hn.
Defined.

(** A write succeeds or fails whatever the value written. *)
Lemma set_path_Ok_any x p v y v' :
  set_path x p v = Ok y → ∃ y', set_path x p v' = Ok y'.
Proof.
  revert x y. induction p as [|s r IH]; intros x y; [by eexists|].
  rewrite set_path_cons. intros (c & c' & Hc & Hc' & H).
  destruct (IH _ _ Hc') as [c'' Hc''].
  destruct (put_is_ref_Ok x s c'') as [y' Hy']; [by destruct (put_is_ref _ _ _ _ H)|].
  exists y'. apply set_path_cons. eauto.
Qed.

Lemma set_path_override x p v v' :
  set_path x p v ≫= (λ y, set_path y p v') = set_path x p v'.
Proof.
  destruct (set_path x p v) as [y|e] eqn:Hy; bsimpl.
  - by apply (set_path_set_path_eq x p v).
  - destruct (set_path x p v') as [y'|e'] eqn:Hy'.
    + destruct (set_path_Ok_any _ _ _ _ v Hy') as [y Hy'']. congruence.
    + by rewrite (set_path_Throw _ _ _ _ Hy), (set_path_Throw _ _ _ _ Hy').
Qed.

(** Of two transformations with the same guard that assign to the same one
    path, the second overrides the first. *)
Lemma transform_override t1 t2 p v1 v2 obj :
  transformer_actions t1 = [Assign p v1] → transformer_actions t2 = [Assign p v2] →
  (∀ o, transformer_guard t1 o = transformer_guard t2 o) →
  transform t1 obj ≫= transform t2 = transform t2 obj.
Proof.
  intros H1 H2 Hg.
  destruct (transformer_guard t2 obj) as [b|e] eqn:Hb.
  - rewrite (transform_of_seq permitted permitted_run_frame transformer transform
               transformer_guard transformer_actions transform_guard_actions
               transformer_actions_permitted transformer_guard_frame t1 t2 obj b b);
      [|by rewrite Hg|done].
    rewrite (transform_guard_actions t2), Hb, H1, H2. bsimpl.
    destruct b; [|done]. cbn [app exec run]. rewrite bind_Ok_r.
    rewrite <-(set_path_override obj p v1 v2).
    destruct (set_path obj p v1); bsimpl; [by rewrite bind_Ok_r|done].
  - by rewrite (transform_guard_actions t1), (transform_guard_actions t2), Hg, Hb.
Qed.

(** X5: of two [scaleDeployment] for the same name, of two
    [tolerateDedicated], and of two [configureExternalGrafana] for the same
    name, the later one wins: the two in sequence do what the second does
    alone. *)
Theorem last_assignment_wins obj :
  (∀ name replicas1 replicas2,
     scaleDeployment name replicas1 obj ≫= scaleDeployment name replicas2
     = scaleDeployment name replicas2 obj)
  ∧ (∀ value1 value2,
       tolerateDedicated value1 obj ≫= tolerateDedicated value2
       = tolerateDedicated value2 obj)
  ∧ (∀ name endpoint1 endpoint2,
       configureExternalGrafana name endpoint1 obj ≫= configureExternalGrafana name endpoint2
       = configureExternalGrafana name endpoint2 obj).
Proof.
  split_and!.
  - intros name r1 r2.
    by apply (transform_override (Generated (ScaleDeployment name r1))
                (Generated (ScaleDeployment name r2)) spec_replicas (VNum r1) (VNum r2)).
  - intros v1 v2.
    by apply (transform_override (Generated (TolerateDedicated v1))
                (Generated (TolerateDedicated v2)) tolerations
                (VArr [toleration v1] ∅) (VArr [toleration v2] ∅)).
  - intros name e1 e2.
    by apply (transform_override (ConfigureExternalGrafana name e1)
                (ConfigureExternalGrafana name e2) external_url
                (VStr ("https://" +:+ e1)) (VStr ("https://" +:+ e2))).
Qed.

(** An assignment under a holder that is an object or an array: it succeeds,
    what it wrote reads back, and every diverging path reads as before. *)
Lemma set_path_holder obj p s v :
  holds_ref obj p →
  ∃ obj', set_path obj (p ++ [s]) v = Ok obj'
          ∧ get_path obj' (p ++ [s]) = Ok v
          ∧ ∀ q, diverge (p ++ [s]) q = true → get_path obj' q = get_path obj q.
Proof.
  intros H. destruct (set_path_snoc_Ok obj p s v H) as [obj' Hobj'].
  exists obj'. split_and!; [done|by eapply get_path_set_path_eq|].
  intros q Hq. by eapply get_path_set_path_diverge.
Qed.

(** X6: on a Deployment of its name that has a [spec], [scaleDeployment]
    sets [spec.replicas] to its replica count and leaves every other path of
    the object reading as before. *)
Theorem scaleDeployment_target name replicas obj :
  is_target obj "Deployment" name = Ok true →
  holds_ref obj [Field "spec"] →
  ∃ obj',
    scaleDeployment name replicas obj = Ok obj'
    ∧ get_path obj' spec_replicas = Ok (VNum replicas)
    ∧ ∀ q, diverge spec_replicas q = true → get_path obj' q = get_path obj q.
Proof.
  intros Ht Hspec. unfold scaleDeployment. rewrite Ht. bsimpl.
  apply (set_path_holder obj [Field "spec"] (Field "replicas") (VNum replicas) Hspec).
Qed.

Lemma scaleDeployment_target_witness :
  is_target (Sample.deployment "temporal-history") "Deployment" "temporal-history" = Ok true
  ∧ holds_ref (Sample.deployment "temporal-history") [Field "spec"]
  ∧ ∃ obj',
      scaleDeployment "temporal-history" 4 (Sample.deployment "temporal-history") = Ok obj'
      ∧ get_path obj' spec_replicas = Ok (VNum 4)
      ∧ get_path obj' requests_cpu = Ok (VStr "100m").
Proof.
  assert (holds_ref (Sample.deployment "temporal-history") [Field "spec"]) as Hspec
    by (eexists; split; reflexivity).
  split; [reflexivity|]. split; [exact Hspec|].
  destruct (scaleDeployment_target "temporal-history" 4
              (Sample.deployment "temporal-history") eq_refl Hspec)
    as (obj' & H & Hrep & Hframe).
  exists obj'. split_and!; [exact H|exact Hrep|].
  by rewrite (Hframe requests_cpu eq_refl).
Defined.

(** X7: on a Grafana of its name that has a [spec.external],
    [configureExternalGrafana] sets the URL to [https://] followed by the
    endpoint and leaves every other path of the object reading as before. *)
Theorem configureExternalGrafana_target name endpoint obj :
  is_target obj "Grafana" name = Ok true →
  holds_ref obj spec_external →
  ∃ obj',
    configureExternalGrafana name endpoint obj = Ok obj'
    ∧ get_path obj' external_url = Ok (VStr ("https://" +:+ endpoint))
    ∧ ∀ q, diverge external_url q = true → get_path obj' q = get_path obj q.
Proof.
  intros Ht Hext. unfold configureExternalGrafana. rewrite Ht. bsimpl.
  apply (set_path_holder obj spec_external (Field "url")
           (VStr ("https://" +:+ endpoint)) Hext).
Qed.

Lemma configureExternalGrafana_target_witness :
  is_target Manifest.grafana "Grafana" "external-grafana" = Ok true
  ∧ holds_ref Manifest.grafana spec_external
  ∧ ∃ obj',
      configureExternalGrafana "external-grafana" "g-1.grafana-workspace.example"
        Manifest.grafana = Ok obj'
      ∧ get_path obj' external_url = Ok (VStr "https://g-1.grafana-workspace.example")
      ∧ get_path obj' (spec_external ++ [Field "apiKey"]) = Ok (VStr "key").
Proof.
  assert (holds_ref Manifest.grafana spec_external) as Hext
    by (eexists; split; reflexivity).
  split; [reflexivity|]. split; [exact Hext|].
  destruct (configureExternalGrafana_target "external-grafana"
              "g-1.grafana-workspace.example" Manifest.grafana eq_refl Hext)
    as (obj' & H & Hurl & Hframe).
  exists obj'. split_and!; [exact H|exact Hurl|].
  by rewrite (Hframe (spec_external ++ [Field "apiKey"]) eq_refl).
Defined.

(** X8: on a Deployment of its name whose first container holds
    [resources.requests] and [resources.limits], [setLimits] returns, and
    each of the four resource fields whose source value is a string that is
    not empty reads as that string after the call. *)
Theorem setLimits_present name cpu memory obj :
  is_target obj "Deployment" name = Ok true →
  holds_ref obj requests → holds_ref obj limits →
  ∃ obj',
    setLimits name cpu memory obj = Ok obj'
    ∧ (∀ s, cpu ≫= CPULimits.request = Some s → s ≠ "" →
            get_path obj' requests_cpu = Ok (VStr s))
    ∧ (∀ s, cpu ≫= CPULimits.limit = Some s → s ≠ "" →
            get_path obj' limits_cpu = Ok (VStr s))
    ∧ (∀ s, memory ≫= MemoryLimits.request = Some s → s ≠ "" →
            get_path obj' requests_memory = Ok (VStr s))
    ∧ (∀ s, memory ≫= MemoryLimits.limit = Some s → s ≠ "" →
            get_path obj' limits_memory = Ok (VStr s)).
Proof.
  intros Ht Hr Hl.
  destruct (setLimits_Ok name cpu memory obj true Ht Hr Hl) as [obj' H].
  exists obj'. split; [done|]. by apply (setLimits_written name cpu memory obj).
Qed.

Lemma setLimits_present_witness :
  is_target (Sample.deployment "temporal-frontend") "Deployment" "temporal-frontend" = Ok true
  ∧ holds_ref (Sample.deployment "temporal-frontend") requests
  ∧ holds_ref (Sample.deployment "temporal-frontend") limits
  ∧ ∃ obj',
      setLimits "temporal-frontend"
        (Some (CPULimits.mk (Some "500m") (Some "")))
        (Some (MemoryLimits.mk None (Some "2Gi")))
        (Sample.deployment "temporal-frontend") = Ok obj'
      ∧ get_path obj' requests_cpu = Ok (VStr "500m")
      ∧ get_path obj' limits_memory = Ok (VStr "2Gi").
Proof.
  assert (holds_ref (Sample.deployment "temporal-frontend") requests) as Hr
    by (eexists; split; reflexivity).
  assert (holds_ref (Sample.deployment "temporal-frontend") limits) as Hl
    by (eexists; split; reflexivity).
  split; [reflexivity|]. split; [exact Hr|]. split; [exact Hl|].
  destruct (setLimits_present "temporal-frontend"
              (Some (CPULimits.mk (Some "500m") (Some "")))
              (Some (MemoryLimits.mk None (Some "2Gi")))
              (Sample.deployment "temporal-frontend") eq_refl Hr Hl)
    as (obj' & H & Hrc & _ & _ & Hlm).
  exists obj'. split_and!; [exact H|by apply Hrc|by apply Hlm].
Defined.

(** A write through a path that leads to [undefined] throws. *)
Lemma set_path_undefined x p s r v :
  get_path x p = Ok VUndef → set_path x (p ++ s :: r) v = Throw TypeError.
Proof.
  revert x. induction p as [|s0 p IH]; intros x.
  - by intros [= ->].
  - cbn [get_path]. intros H. apply bind_Ok in H as (c & Hc & H).
    rewrite <-app_comm_cons. cbn [set_path]. rewrite Hc. bsimpl.
    by rewrite (IH c H).
Qed.

Lemma get_path_undefined x p s r :
  get_path x p = Ok VUndef → get_path x (p ++ s :: r) = Throw TypeError.
Proof. intros H. rewrite get_path_app, H. done. Qed.

Lemma assign_if_undefined src p s r obj :
  get_path obj p = Ok VUndef →
  assign_if src (p ++ s :: r) obj = if truthy src then Throw TypeError else Ok obj.
Proof.
  intros H. unfold assign_if. destruct src as [t|]; [|done].
  destruct (truthy (Some t)); [|done]. by apply set_path_undefined.
Qed.

(** X9: what the transformations do to a Deployment of their name that
    lacks the structure they write to.  Without a [spec], [scaleDeployment]
    and [tolerateDedicated] throw.  Without [containers] in the pod spec,
    [setLimits] throws even when it is given no limit at all.  With an empty
    list of containers, [setLimits] returns the object as it is when no
    source value is present, and throws as soon as one is. *)
Theorem missing_structure name obj :
  is_target obj "Deployment" name = Ok true →
  (get obj (Field "spec") = Ok VUndef →
     ∀ replicas dedicatedValue,
       scaleDeployment name replicas obj = Throw TypeError
       ∧ tolerateDedicated dedicatedValue obj = Throw TypeError)
  ∧ (get_path obj pod_containers = Ok VUndef →
       ∀ cpu memory, setLimits name cpu memory obj = Throw TypeError)
  ∧ (get_path obj pod_containers = Ok (VArr [] ∅) →
       ∀ cpu memory,
         setLimits name cpu memory obj
         = if decide (assigned cpu memory = []) then Ok obj else Throw TypeError).
Proof.
  intros Ht. pose proof (is_target_kind_is _ _ _ Ht) as Hkind.
  split_and!.
  - intros Hspec replicas dedicatedValue. split.
    + unfold scaleDeployment. rewrite Ht. bsimpl.
      apply (set_path_undefined obj [Field "spec"] (Field "replicas") []).
      by rewrite get_path_singleton.
    + unfold tolerateDedicated, kind_is in *.
      destruct (get obj (Field "kind")) as [k|]; [|done]. bsimpl. rewrite Hkind.
      apply (set_path_undefined obj [Field "spec"] (Field "template")
               [Field "spec"; Field "tolerations"]).
      by rewrite get_path_singleton.
  - intros Hc cpu memory. unfold setLimits. rewrite Ht. bsimpl.
    assert (get_path obj container = Throw TypeError) as ->; [|done].
    apply (get_path_undefined obj pod_containers (Index 0) [] Hc).
  - intros Hc cpu memory. unfold setLimits. rewrite Ht. bsimpl.
    assert (get_path obj container = Ok VUndef) as Hcontainer.
    { change container with (pod_containers ++ [Index 0]).
      by rewrite get_path_app, Hc. }
    rewrite Hcontainer. bsimpl. unfold assigned.
    unfold requests_cpu, limits_cpu, requests_memory, limits_memory.
    rewrite (assign_if_undefined _ container _ _ obj Hcontainer).
    destruct (truthy (cpu ≫= CPULimits.request)); [by rewrite decide_False|]. bsimpl.
    rewrite (assign_if_undefined _ container _ _ obj Hcontainer).
    destruct (truthy (cpu ≫= CPULimits.limit)); [by rewrite decide_False|]. bsimpl.
    rewrite (assign_if_undefined _ container _ _ obj Hcontainer).
    destruct (truthy (memory ≫= MemoryLimits.request)); [by rewrite decide_False|]. bsimpl.
    rewrite (assign_if_undefined _ container _ _ obj Hcontainer).
    destruct (truthy (memory ≫= MemoryLimits.limit)); [by rewrite decide_False|].
    by rewrite decide_True.
Qed.

Lemma missing_structure_witness :
  is_target (Manifest.hollow "benchmark-workers") "Deployment" "benchmark-workers" = Ok true
  ∧ get_path (Manifest.hollow "benchmark-workers") pod_containers = Ok VUndef
  ∧ setLimits "benchmark-workers" None None (Manifest.hollow "benchmark-workers")
    = Throw TypeError.
Proof.
  split; [reflexivity|]. split; [reflexivity|].
  destruct (missing_structure "benchmark-workers" (Manifest.hollow "benchmark-workers")
              eq_refl) as (_ & H & _).
  by apply H.
Defined.

(** X10: a transformation bound to a name reads [metadata.name] only on
    objects of its kind.  An object of another kind is returned as it is,
    with or without [metadata]; a Deployment without [metadata] makes
    [scaleDeployment] and [setLimits] throw, whatever name they are bound to,
    where [tolerateDedicated] does not read it. *)
Theorem name_read_on_kind_only obj k :
  get obj (Field "kind") = Ok k →
  (k ≠ VStr "Deployment" →
     ∀ name replicas cpu memory dedicatedValue,
       scaleDeployment name replicas obj = Ok obj
       ∧ setLimits name cpu memory obj = Ok obj
       ∧ tolerateDedicated dedicatedValue obj = Ok obj)
  ∧ (k = VStr "Deployment" → get obj (Field "metadata") = Ok VUndef →
       ∀ name replicas cpu memory dedicatedValue,
         scaleDeployment name replicas obj = Throw TypeError
         ∧ setLimits name cpu memory obj = Throw TypeError
         ∧ tolerateDedicated dedicatedValue obj
           = set_path obj tolerations (VArr [toleration dedicatedValue] ∅)).
Proof.
  intros Hk. split.
  - intros Hne name replicas cpu memory dedicatedValue.
    assert (strict_eq_str k "Deployment" = false) as Hs.
    { destruct k; try done. simpl. apply String.eqb_neq. congruence. }
    unfold scaleDeployment, setLimits, tolerateDedicated, is_target.
    rewrite Hk. bsimpl. by rewrite Hs.
  - intros -> Hmd name replicas cpu memory dedicatedValue.
    unfold scaleDeployment, setLimits, tolerateDedicated, is_target.
    rewrite Hk, Hmd. done.
Qed.

Lemma name_read_on_kind_only_witness :
  get Manifest.anonymous (Field "kind") = Ok (VStr "Deployment")
  ∧ get Manifest.anonymous (Field "metadata") = Ok VUndef
  ∧ scaleDeployment "temporal-frontend" 3 Manifest.anonymous = Throw TypeError.
Proof.
  split; [reflexivity|]. split; [reflexivity|].
  destruct (name_read_on_kind_only Manifest.anonymous (VStr "Deployment") eq_refl)
    as [_ H].
  by destruct (H eq_refl eq_refl "temporal-frontend" 3%Z None None "temporal") as [? _].
Defined.

(** ** The manifest groups of the program *)

(** X11: the transformations of the [temporal] group on a Deployment whose
    first container holds [resources.requests] and [resources.limits].  They
    return; the result tolerates the [temporal] node group; its replicas are
    the pod count of the service it is named after, and the replicas it had
    when it is none of the three services. *)
Theorem temporalTransformations_workload temporalConfig name obj :
  workload name obj →
  ∃ obj',
    apply_obj (temporalTransformations temporalConfig) obj = Ok obj'
    ∧ get_path obj' tolerations = Ok (VArr [toleration "temporal"] ∅)
    ∧ (name = "temporal-frontend" →
         get_path obj' spec_replicas
         = Ok (VNum (FrontendConfig.Pods (TemporalConfig.Frontend temporalConfig))))
    ∧ (name = "temporal-history" →
         get_path obj' spec_replicas
         = Ok (VNum (HistoryConfig.Pods (TemporalConfig.History temporalConfig))))
    ∧ (name = "temporal-matching" →
         get_path obj' spec_replicas
         = Ok (VNum (MatchingConfig.Pods (TemporalConfig.Matching temporalConfig))))
    ∧ (name ∉ ["temporal-frontend"; "temporal-history"; "temporal-matching"] →
         get_path obj' spec_replicas = get_path obj spec_replicas).
Proof.
  intros Hw. unfold temporalTransformations. cbn [apply_obj].
  set (Frontend := TemporalConfig.Frontend temporalConfig).
  set (History := TemporalConfig.History temporalConfig).
  set (Matching := TemporalConfig.Matching temporalConfig).
  destruct (scaleDeployment_workload "temporal-frontend" (FrontendConfig.Pods Frontend)
              name obj Hw) as (o1 & -> & Hw1 & Hr1 & _). bsimpl.
  destruct (setLimits_workload "temporal-frontend" (FrontendConfig.CPU Frontend)
              (FrontendConfig.Memory Frontend) name o1 Hw1) as (o2 & -> & Hw2 & Hr2 & _).
  bsimpl.
  destruct (scaleDeployment_workload "temporal-history" (HistoryConfig.Pods History)
              name o2 Hw2) as (o3 & -> & Hw3 & Hr3 & _). bsimpl.
  destruct (setLimits_workload "temporal-history" (HistoryConfig.CPU History)
              (HistoryConfig.Memory History) name o3 Hw3) as (o4 & -> & Hw4 & Hr4 & _).
  bsimpl.
  destruct (scaleDeployment_workload "temporal-matching" (MatchingConfig.Pods Matching)
              name o4 Hw4) as (o5 & -> & Hw5 & Hr5 & _). bsimpl.
  destruct (setLimits_workload "temporal-matching" (MatchingConfig.CPU Matching)
              (MatchingConfig.Memory Matching) name o5 Hw5) as (o6 & -> & Hw6 & Hr6 & _).
  bsimpl.
  destruct (tolerateDedicated_workload "temporal" name o6 Hw6)
    as (o7 & -> & _ & Ht7 & Hf7). bsimpl.
  exists o7. split; [done|]. split; [done|].
  rewrite (Hf7 spec_replicas eq_refl), Hr6, Hr5, Hr4, Hr3, Hr2, Hr1.
  split_and!.
  - by intros ->.
  - by intros ->.
  - by intros ->.
  - intros Hn. rewrite !not_elem_of_cons in Hn. destruct Hn as (? & ? & ? & _).
    by rewrite !decide_False by done.
Qed.

Lemma temporalTransformations_workload_witness :
  workload "temporal-history" (Sample.deployment "temporal-history")
  ∧ ∃ obj',
      apply_obj (temporalTransformations Sample.temporalConfig)
        (Sample.deployment "temporal-history") = Ok obj'
      ∧ get_path obj' tolerations = Ok (VArr [toleration "temporal"] ∅)
      ∧ get_path obj' spec_replicas = Ok (VNum 2).
Proof.
  assert (workload "temporal-history" (Sample.deployment "temporal-history")) as Hw.
  { split; [reflexivity|]. split; eexists; split; reflexivity. }
  split; [exact Hw|].
  destruct (temporalTransformations_workload Sample.temporalConfig "temporal-history"
              (Sample.deployment "temporal-history") Hw)
    as (obj' & H & Ht & _ & Hh & _).
  exists obj'. split_and!; [exact H|exact Ht|exact (Hh eq_refl)].
Defined.

(** X12: the soak test covers the configured number of concurrent
    workflows.  With a positive number of frontend pods, and with both counts
    below [2^53], the [benchmark] group scales the [benchmark-soak-test]
    Deployment to that number of replicas, and the [CONCURRENT_WORKFLOWS]
    entry that each replica reads is the decimal form of a number [k] such
    that the replicas together run at least the configured number of
    workflows and fewer than one more per replica. *)
Theorem soak_test_capacity temporalConfig obj :
  let ConcurrentWorkflows :=
    SoakTestConfig.ConcurrentWorkflows (TemporalConfig.SoakTest temporalConfig) in
  let Pods := FrontendConfig.Pods (TemporalConfig.Frontend temporalConfig) in
  (0 < Pods < 2 ^ 53)%Z → (Z.abs ConcurrentWorkflows < 2 ^ 53)%Z →
  is_target obj "Deployment" "benchmark-soak-test" = Ok true →
  holds_ref obj [Field "spec"] →
  ∃ obj' k,
    apply_obj (benchmarkTransformations temporalConfig) obj = Ok obj'
    ∧ get_path obj' spec_replicas = Ok (VNum Pods)
    ∧ soakTestConfig temporalConfig !! "CONCURRENT_WORKFLOWS" = Some (Lit (pretty k))
    ∧ (ConcurrentWorkflows ≤ Pods * k < ConcurrentWorkflows + Pods)%Z.
Proof.
  intros a b Hb Ha Ht Hspec.
  unfold benchmarkTransformations. cbn [apply_obj]. fold b.
  rewrite (scaleDeployment_other "benchmark-workers" _ _ _ Ht) by done. bsimpl.
  rewrite (setLimits_other "benchmark-workers" _ _ _ _ Ht) by done. bsimpl.
  unfold scaleDeployment. rewrite Ht. bsimpl.
  destruct (set_path_snoc_Ok obj [Field "spec"] (Field "replicas") (VNum b) Hspec)
    as [obj' Hobj'].
  change ([Field "spec"] ++ [Field "replicas"]) with spec_replicas in Hobj'.
  rewrite Hobj'. bsimpl.
  destruct (ceiling_quotient a b ltac:(lia)) as [Hk _].
  exists obj', ((a + b - 1) / b)%Z. split_and!.
  - done.
  - by eapply get_path_set_path_eq.
  - by apply soakTestConfig_entry.
  - lia.
  - lia.
Qed.

Lemma soak_test_capacity_witness :
  (0 < FrontendConfig.Pods (TemporalConfig.Frontend Sample.temporalConfig) < 2 ^ 53)%Z
  ∧ (Z.abs (SoakTestConfig.ConcurrentWorkflows
              (TemporalConfig.SoakTest Sample.temporalConfig)) < 2 ^ 53)%Z
  ∧ is_target (Sample.deployment "benchmark-soak-test") "Deployment" "benchmark-soak-test"
    = Ok true
  ∧ holds_ref (Sample.deployment "benchmark-soak-test") [Field "spec"]
  ∧ soakTestConfig Sample.temporalConfig !! "CONCURRENT_WORKFLOWS" = Some (Lit "4")
  ∧ ∃ obj' k,
      apply_obj (benchmarkTransformations Sample.temporalConfig)
        (Sample.deployment "benchmark-soak-test") = Ok obj'
      ∧ get_path obj' spec_replicas = Ok (VNum 3)
      ∧ soakTestConfig Sample.temporalConfig !! "CONCURRENT_WORKFLOWS"
        = Some (Lit (pretty k))
      ∧ (10 ≤ 3 * k < 10 + 3)%Z.
Proof.
  assert (holds_ref (Sample.deployment "benchmark-soak-test") [Field "spec"]) as Hspec
    by (eexists; split; reflexivity).
  split; [by vm_compute|]. split; [by vm_compute|]. split; [reflexivity|].
  split; [exact Hspec|]. split; [by vm_compute|].
  exact (soak_test_capacity Sample.temporalConfig
           (Sample.deployment "benchmark-soak-test")
           ltac:(by vm_compute) ltac:(by vm_compute) eq_refl Hspec).
Defined.

(** X13: with no frontend pods the division of [soakTestConfig] is by zero,
    and the [CONCURRENT_WORKFLOWS] entry is no number of workflows: it reads
    [NaN] when no concurrent workflows are configured either, [Infinity] when
    their number is positive and [-Infinity] when it is negative. *)
Theorem soakTestConfig_zero_pods temporalConfig :
  let ConcurrentWorkflows :=
    SoakTestConfig.ConcurrentWorkflows (TemporalConfig.SoakTest temporalConfig) in
  FrontendConfig.Pods (TemporalConfig.Frontend temporalConfig) = 0%Z →
  soakTestConfig temporalConfig !! "CONCURRENT_WORKFLOWS"
  = Some (Lit (if decide (ConcurrentWorkflows = 0)%Z then "NaN"
               else if decide (0 < ConcurrentWorkflows)%Z then "Infinity"
               else "-Infinity")).
Proof.
  intros a Hb. unfold soakTestConfig. fold a. rewrite Hb, div_zero, lookup_singleton.
  do 2 f_equal. destruct (decide (a = 0%Z)); [done|]. by destruct (decide (0 < a)%Z).
Qed.

Lemma soakTestConfig_zero_pods_witness :
  soakTestConfig
    {| TemporalConfig.Frontend := FrontendConfig.mk 0 None None;
       TemporalConfig.History := HistoryConfig.mk 512 2 None None;
       TemporalConfig.Matching := MatchingConfig.mk 4 2 None None;
       TemporalConfig.Workers := WorkerConfig.mk 2 10 10 None None;
       TemporalConfig.SoakTest := SoakTestConfig.mk 10 |}
    !! "CONCURRENT_WORKFLOWS"
  = Some (Lit "Infinity").
Proof.
  exact (soakTestConfig_zero_pods
           {| TemporalConfig.Frontend := FrontendConfig.mk 0 None None;
              TemporalConfig.History := HistoryConfig.mk 512 2 None None;
              TemporalConfig.Matching := MatchingConfig.mk 4 2 None None;
              TemporalConfig.Workers := WorkerConfig.mk 2 10 10 None None;
              TemporalConfig.SoakTest := SoakTestConfig.mk 10 |} eq_refl).
Defined.

(** X14: the matching entries of [dynamicConfig] win over the
    [DynamicConfig] object of the configuration: the two partition keys read
    as the configured number of task queue partitions, whatever the object
    says under them, and every other key reads as in the object, or is absent
    when there is no object. *)
Theorem dynamicConfig_override DynamicConfig config k :
  dynamicConfig DynamicConfig config !! k
  = if decide (k ∈ ["matching.numTaskqueueReadPartitions";
                    "matching.numTaskqueueWritePartitions"])
    then Some (VArr [VObj {[ "value" :=
                 VNum (MatchingConfig.TaskQueuePartitions
                         (TemporalConfig.Matching config)) ]}] ∅)
    else DynamicConfig ≫= (.!! k).
Proof.
  unfold dynamicConfig, matchingConfig.
  set (partitions := VArr _ _).
  destruct (decide (k ∈ _)) as [Hk|Hk].
  - apply lookup_union_Some_l.
    rewrite !elem_of_cons, elem_of_nil in Hk. destruct Hk as [->|[->|[]]].
    + by rewrite lookup_insert_ne, lookup_insert_eq.
    + by rewrite lookup_insert_eq.
  - rewrite !not_elem_of_cons in Hk. destruct Hk as (? & ? & _).
    rewrite lookup_union_r by (by rewrite !lookup_insert_ne, lookup_empty).
    by destruct DynamicConfig.
Qed.


(** ** More on the resolution of the configuration *)

(** What [createCluster] registers for a populated EKS variant. *)
Lemma createCluster_registers stack eks persistenceConfig rs :
  ∃ cluster,
    createCluster stack (ClusterConfig.mk (Some eks)) persistenceConfig rs
    = (Ok cluster,
       rs ++ [ {| rtype := "eks:index:Cluster"; rname := stack |};
               {| rtype := "eks:index:NodeGroup"; rname := stack +:+ "-temporal" |} ]
          ++ match PersistenceConfig.Cassandra persistenceConfig with
             | Some _ => [ {| rtype := "eks:index:NodeGroup";
                              rname := stack +:+ "-cassandra" |} ]
             | None => []
             end).
Proof.
  unfold createCluster, eksCluster, mbind, Pulumi_bind, mret, Pulumi_ret, register.
  cbn [ClusterConfig.EKS].
  destruct (PersistenceConfig.Cassandra persistenceConfig);
    eexists; f_equal; rewrite <-?app_assoc; [done|]. by rewrite app_nil_r.
Qed.

Lemma resolve_EKS stack temporalConfig eks persistenceConfig rs :
  ∃ cluster,
    resolve stack temporalConfig (ClusterConfig.mk (Some eks)) persistenceConfig rs
    = createPersistence stack temporalConfig persistenceConfig cluster
        (rs ++ [ {| rtype := "eks:index:Cluster"; rname := stack |};
                 {| rtype := "eks:index:NodeGroup"; rname := stack +:+ "-temporal" |} ]
            ++ match PersistenceConfig.Cassandra persistenceConfig with
               | Some _ => [ {| rtype := "eks:index:NodeGroup";
                                rname := stack +:+ "-cassandra" |} ]
               | None => []
               end).
Proof.
  destruct (createCluster_registers stack eks persistenceConfig rs) as [cluster H].
  exists cluster. unfold resolve, mbind, Pulumi_bind at 1. by rewrite H.
Qed.

(** The registry only grows, by resources of the types of the function. *)
Lemma rdsPersistence_added temporalConfig name config securityGroup rs r rs' :
  rdsPersistence temporalConfig name config securityGroup rs = (r, rs') →
  ∃ added,
    rs' = rs ++ added
    ∧ Forall (λ x, rtype x ∈ ["aws:ec2:SecurityGroup"; "aws:ec2:SecurityGroupRule";
                              "aws:rds:Cluster"; "aws:rds:Instance"]) added.
Proof.
  unfold rdsPersistence, mbind, Pulumi_bind, mret, Pulumi_ret, register, throw.
  destruct (engineSettings _) as [[[[dbType dbPort] dbPrefix] dbExtras]|e].
  - destruct (_ || _); [|destruct (RDSPersistenceConfig.SingleAZ config)];
      intros [= <- <-]; eexists; (split; [by rewrite <-!app_assoc|]);
      repeat (apply Forall_cons; split; [cbn [rtype]; set_solver|]); apply Forall_nil_2.
  - intros [= <- <-]. exists []. by rewrite app_nil_r.
Qed.

Lemma createAdvancedVisibility_added config cluster rs r rs' :
  createAdvancedVisibility config cluster rs = (r, rs') →
  ∃ added,
    rs' = rs ++ added
    ∧ Forall (λ x, rtype x ∈ ["aws:ec2:SecurityGroup"; "aws:ec2:SecurityGroupRule";
                              "aws:opensearch:Domain"; "aws:iam:Policy";
                              "kubernetes:apps/v1:Deployment";
                              "kubernetes:core/v1:Service"]) added.
Proof.
  unfold createAdvancedVisibility.
  destruct (config ≫= VisibilityConfig.OpenSearch);
    unfold opensearchVisibility, mbind, Pulumi_bind, mret, Pulumi_ret, register.
  - intros [= <- <-]. eexists. split; [by rewrite <-!app_assoc|].
    repeat (apply Forall_cons; split; [cbn [rtype]; set_solver|]). apply Forall_nil_2.
  - intros [= <- <-]. exists []. by rewrite app_nil_r.
Qed.

Lemma not_elem_of_types (x : Resource) (types : list string) added :
  Forall (λ y, rtype y ∈ types) added → rtype x ∉ types → x ∉ added.
Proof. intros Hall Hx Hin. apply Hx. by apply (proj1 (Forall_forall _ _) Hall). Qed.

Ltac other_type H :=
  apply (not_elem_of_types _ _ _ H); cbn [rtype];
  rewrite !not_elem_of_cons; split_and!; try discriminate; apply not_elem_of_nil.

(** The persistence entries and the visibility entries of a resolved
    persistence configuration. *)
Lemma createPersistence_inv stack temporalConfig rds cassandra visibility cluster rs m rs' :
  createPersistence stack temporalConfig
    (PersistenceConfig.mk rds cassandra visibility) cluster rs = (Ok m, rs') →
  ∃ p rs1 v,
    createPersistence stack temporalConfig
      (PersistenceConfig.mk rds cassandra None) cluster rs = (Ok p, rs1)
    ∧ createAdvancedVisibility visibility cluster rs1 = (Ok v, rs')
    ∧ m = v ∪ p
    ∧ (∀ k, k ∈ ["ENABLE_ES"; "ES_SCHEMA"; "ES_SEEDS"; "ES_PORT"] → p !! k = None)
    ∧ p !! "NUM_HISTORY_SHARDS"
      = Some (Lit (toString (Num (HistoryConfig.Shards
                                    (TemporalConfig.History temporalConfig)))))
    ∧ p !! "DBNAME" = Some (Lit "temporal_persistence")
    ∧ (p !! "DB", p !! "DB_PORT")
      ∈ [ (Some (Lit "postgresql"), Some (Lit "5432"));
          (Some (Lit "mysql"), Some (Lit "3306"));
          (Some (Lit "cassandra"), Some (Lit "9042")) ].
Proof.
  assert (∀ (p : ConfigMapData) rs1,
            match createAdvancedVisibility None cluster rs1 with
            | (Ok vis, rs2) => (Ok (vis ∪ p), rs2)
            | (Throw e, rs2) => (Throw e, rs2)
            end = (Ok p, rs1)) as Hnone.
  { intros p rs1. cbn. by rewrite (left_id_L ∅ (∪)). }
  assert (∀ k : string, k ∈ ["ENABLE_ES"; "ES_SCHEMA"; "ES_SEEDS"; "ES_PORT"] →
            k = "ENABLE_ES" ∨ k = "ES_SCHEMA" ∨ k = "ES_SEEDS" ∨ k = "ES_PORT") as Hkeys.
  { intros k. rewrite !elem_of_cons, elem_of_nil. tauto. }
  destruct rds as [rds|]; [|destruct cassandra as [cassandra|]].
  - rewrite !createPersistence_RDS.
    destruct (decide (postgres_engine (RDSPersistenceConfig.Engine rds))) as [Hp|Hp];
      [|destruct (decide (mysql_engine (RDSPersistenceConfig.Engine rds))) as [Hm|Hm]].
    + destruct (rdsPersistence_postgres temporalConfig stack rds
                  (Cluster.securityGroup cluster) rs Hp) as (p & rs1 & ep & -> & ->).
      rewrite Hnone.
      destruct (createAdvancedVisibility visibility cluster rs1) as [[v|e] rs2] eqn:Hv;
        [|done].
      intros [= <- <-]. do 3 eexists. split; [done|]. split; [done|]. split; [done|].
      generalize (toString (Num (HistoryConfig.Shards
                                   (TemporalConfig.History temporalConfig)))).
      intros shards. split_and!; try reflexivity.
      * intros k Hk. by destruct (Hkeys k Hk) as [->|[->|[->| ->]]].
      * apply elem_of_cons; by left.
    + destruct (rdsPersistence_mysql temporalConfig stack rds
                  (Cluster.securityGroup cluster) rs Hm) as (p & rs1 & ep & -> & ->).
      rewrite Hnone.
      destruct (createAdvancedVisibility visibility cluster rs1) as [[v|e] rs2] eqn:Hv;
        [|done].
      intros [= <- <-]. do 3 eexists. split; [done|]. split; [done|]. split; [done|].
      generalize (toString (Num (HistoryConfig.Shards
                                   (TemporalConfig.History temporalConfig)))).
      intros shards. split_and!; try reflexivity.
      * intros k Hk. by destruct (Hkeys k Hk) as [->|[->|[->| ->]]].
      * apply elem_of_cons; right; apply elem_of_cons; by left.
    + by rewrite rdsPersistence_invalid.
  - rewrite !createPersistence_Cassandra.
    unfold cassandraPersistence, mbind, Pulumi_bind, mret, Pulumi_ret, register.
    rewrite Hnone.
    match goal with
    | |- context [createAdvancedVisibility visibility cluster ?r] =>
        destruct (createAdvancedVisibility visibility cluster r) as [[v|e] rs2] eqn:Hv;
          [|done]
    end.
    intros [= <- <-]. do 3 eexists. split; [done|]. split; [exact Hv|]. split; [done|].
    generalize (toString (Num (HistoryConfig.Shards
                                 (TemporalConfig.History temporalConfig)))).
    intros shards. split_and!; try reflexivity.
    + intros k Hk. by destruct (Hkeys k Hk) as [->|[->|[->| ->]]].
    + do 2 (apply elem_of_cons; right). apply elem_of_cons; by left.
  - by rewrite createPersistence_none.
Qed.

(** The entries of the advanced visibility: none, or the four of OpenSearch. *)
Lemma createAdvancedVisibility_entries config cluster rs v rs' :
  createAdvancedVisibility config cluster rs = (Ok v, rs') →
  (∀ k, k ∉ ["ENABLE_ES"; "ES_SCHEMA"; "ES_SEEDS"; "ES_PORT"] → v !! k = None)
  ∧ v !! "ENABLE_ES"
    = match config ≫= VisibilityConfig.OpenSearch with
      | Some _ => Some (Lit "true")
      | None => None
      end.
Proof.
  unfold createAdvancedVisibility.
  destruct (config ≫= VisibilityConfig.OpenSearch);
    unfold opensearchVisibility, mbind, Pulumi_bind, mret, Pulumi_ret, register;
    intros [= <- <-].
  - split; [|done]. intros k Hk. rewrite !not_elem_of_cons in Hk.
    destruct Hk as (? & ? & ? & ? & _).
    by rewrite !lookup_insert_ne, lookup_empty.
  - split; [|done]. intros k _. apply lookup_empty.
Qed.

(** X16: the database that [rdsPersistence] declares.  Besides the security
    group and its rule it registers one database: an Aurora engine gets a
    cluster whether or not [SingleAZ] is set, another engine gets an instance
    when [SingleAZ] is set and a cluster otherwise; the seeds entry is the
    [address] of the instance or the [endpoint] of the cluster. *)
Theorem rdsPersistence_database temporalConfig name config securityGroup rs m rs' :
  rdsPersistence temporalConfig name config securityGroup rs = (Ok m, rs') →
  let instance :=
    negb (aurora (RDSPersistenceConfig.Engine config))
    && RDSPersistenceConfig.SingleAZ config in
  rs' = rs ++ [ {| rtype := "aws:ec2:SecurityGroup"; rname := name +:+ "-rds" |};
                {| rtype := "aws:ec2:SecurityGroupRule"; rname := name +:+ "-rds" |};
                {| rtype := if instance then "aws:rds:Instance" else "aws:rds:Cluster";
                   rname := name |} ]
  ∧ ∃ dbType dbPort dbPrefix dbExtras,
      engineSettings (RDSPersistenceConfig.Engine config)
      = Ok (dbType, dbPort, dbPrefix, dbExtras)
      ∧ m !! (dbPrefix +:+ "_SEEDS")
        = Some (Deferred (OutputOf name (if instance then "address" else "endpoint"))).
Proof.
  destruct config as [env Engine version type SingleAZ].
  unfold rdsPersistence, engineSettings, aurora,
    mbind, Pulumi_bind, mret, Pulumi_ret, register, throw.
  cbn [RDSPersistenceConfig.Engine RDSPersistenceConfig.SingleAZ].
  generalize (toString (Num (HistoryConfig.Shards
                               (TemporalConfig.History temporalConfig)))).
  intros shards.
  destruct (String.eqb_spec Engine "postgres") as [->|_];
    [|destruct (String.eqb_spec Engine "aurora-postgresql") as [->|_];
      [|destruct (String.eqb_spec Engine "mysql") as [->|_];
        [|destruct (String.eqb_spec Engine "aurora-mysql") as [->|_]]]];
    cbn [orb negb andb String.eqb Ascii.eqb Bool.eqb]; try destruct SingleAZ;
    intros [= <- <-]; (split; [by rewrite <-!app_assoc|]);
    do 4 eexists; (split; [reflexivity|]); reflexivity.
Qed.

Lemma rdsPersistence_database_witness :
  ∃ m rs',
    rdsPersistence Sample.temporalConfig "benchmark" (Sample.rds "aurora-mysql")
      (Cluster.securityGroup Sample.cluster) [] = (Ok m, rs')
    ∧ RDSPersistenceConfig.SingleAZ (Sample.rds "aurora-mysql") = true
    ∧ {| rtype := "aws:rds:Cluster"; rname := "benchmark" |} ∈ rs'
    ∧ m !! "MYSQL_SEEDS" = Some (Deferred (OutputOf "benchmark" "endpoint")).
Proof.
  do 2 eexists. split; [reflexivity|]. split; [reflexivity|].
  destruct (rdsPersistence_database Sample.temporalConfig "benchmark"
              (Sample.rds "aurora-mysql") (Cluster.securityGroup Sample.cluster) []
              _ _ eq_refl) as [Hrs (dbType & dbPort & dbPrefix & dbExtras & He & Hm)].
  split.
  - match goal with
    | |- _ ∈ ?r => match type of Hrs with _ = ?l => assert (r = l) as -> by exact Hrs end
    end.
    cbn. do 2 (apply elem_of_cons; right). apply elem_of_cons; by left.
  - injection He as <- <- <- <-. exact Hm.
Defined.

(** X17: the ways in which [resolve] fails, and what it has registered by
    then.  Without a cluster variant it throws [invalid cluster config]
    and registers nothing, whatever the persistence configuration says.  With one, the cluster and its node groups are registered before
    the persistence configuration is looked at: it then throws
    [invalid persistence config] when neither variant is populated, and
    [invalid RDS config] when the relational variant has an engine that is
    not recognised.  There is no other failure. *)
Theorem resolve_failures stack temporalConfig clusterConfig persistenceConfig rs e rs' :
  resolve stack temporalConfig clusterConfig persistenceConfig rs = (Throw e, rs') →
  let cluster_resources :=
    [ {| rtype := "eks:index:Cluster"; rname := stack |};
      {| rtype := "eks:index:NodeGroup"; rname := stack +:+ "-temporal" |} ]
    ++ match PersistenceConfig.Cassandra persistenceConfig with
       | Some _ => [ {| rtype := "eks:index:NodeGroup"; rname := stack +:+ "-cassandra" |} ]
       | None => []
       end in
  (ClusterConfig.EKS clusterConfig = None
   ∧ e = InvalidConfiguration "invalid cluster config" ∧ rs' = rs)
  ∨ (is_Some (ClusterConfig.EKS clusterConfig)
     ∧ PersistenceConfig.RDS persistenceConfig = None
     ∧ PersistenceConfig.Cassandra persistenceConfig = None
     ∧ e = InvalidConfiguration "invalid persistence config"
     ∧ rs' = rs ++ cluster_resources)
  ∨ (is_Some (ClusterConfig.EKS clusterConfig)
     ∧ (∃ rds, PersistenceConfig.RDS persistenceConfig = Some rds
               ∧ ¬ postgres_engine (RDSPersistenceConfig.Engine rds)
               ∧ ¬ mysql_engine (RDSPersistenceConfig.Engine rds))
     ∧ e = InvalidConfiguration "invalid RDS config"
     ∧ rs' = rs ++ cluster_resources).
Proof.
  destruct clusterConfig as [[eks|]]; cbn [ClusterConfig.EKS].
  2: { intros [= <- <-]. by left. }
  destruct (resolve_EKS stack temporalConfig eks persistenceConfig rs) as [cluster ->].
  destruct persistenceConfig as [[rds|] cassandra visibility];
    cbn [PersistenceConfig.RDS PersistenceConfig.Cassandra].
  - rewrite createPersistence_RDS.
    destruct (decide (postgres_engine (RDSPersistenceConfig.Engine rds))) as [Hp|Hp];
      [|destruct (decide (mysql_engine (RDSPersistenceConfig.Engine rds))) as [Hm|Hm]].
    + match goal with
      | |- context [rdsPersistence _ _ _ _ ?r] =>
          destruct (rdsPersistence_postgres temporalConfig stack rds
                      (Cluster.securityGroup cluster) r Hp) as (p & rs1 & ep & -> & _)
      end.
      by destruct (createAdvancedVisibility_Ok visibility cluster rs1) as (v & rs2 & ->).
    + match goal with
      | |- context [rdsPersistence _ _ _ _ ?r] =>
          destruct (rdsPersistence_mysql temporalConfig stack rds
                      (Cluster.securityGroup cluster) r Hm) as (p & rs1 & ep & -> & _)
      end.
      by destruct (createAdvancedVisibility_Ok visibility cluster rs1) as (v & rs2 & ->).
    + rewrite rdsPersistence_invalid by done. intros [= <- <-].
      right; right. split_and!; [by eexists|by exists rds|done..].
  - destruct cassandra as [cassandra|].
    + rewrite createPersistence_Cassandra.
      unfold cassandraPersistence, mbind, Pulumi_bind, mret, Pulumi_ret, register.
      match goal with
      | |- context [createAdvancedVisibility visibility cluster ?r] =>
          by destruct (createAdvancedVisibility_Ok visibility cluster r) as (v & rs2 & ->)
      end.
    + rewrite createPersistence_none. intros [= <- <-].
      right; left. split_and!; [by eexists|done..].
Qed.

Lemma resolve_failures_witness :
  ∃ rs',
    resolve "benchmark" Sample.temporalConfig (ClusterConfig.mk (Some Sample.eks))
      (PersistenceConfig.mk (Some (Sample.rds "sqlserver-ee")) (Some Sample.cassandra) None)
      []
    = (Throw (InvalidConfiguration "invalid RDS config"), rs')
    ∧ rs' = [ {| rtype := "eks:index:Cluster"; rname := "benchmark" |};
              {| rtype := "eks:index:NodeGroup"; rname := "benchmark-temporal" |};
              {| rtype := "eks:index:NodeGroup"; rname := "benchmark-cassandra" |} ].
Proof.
  eexists. split; [reflexivity|].
  destruct (resolve_failures "benchmark" Sample.temporalConfig
              (ClusterConfig.mk (Some Sample.eks))
              (PersistenceConfig.mk (Some (Sample.rds "sqlserver-ee"))
                 (Some Sample.cassandra) None) [] _ _ eq_refl)
    as [(H & _)|[(_ & H & _)|(_ & _ & _ & H)]]; [discriminate H..|exact H].
Defined.

(** X18: the Cassandra resources of a resolved configuration.  The node
    group for Cassandra is registered whenever the Cassandra variant is
    populated, the Cassandra chart only when the relational variant is not
    populated as well: with both variants populated the program creates a
    Cassandra node group and deploys no Cassandra to it. *)
Theorem resolve_cassandra_resources stack temporalConfig eks persistenceConfig rs m rs' :
  resolve stack temporalConfig (ClusterConfig.mk (Some eks)) persistenceConfig rs
  = (Ok m, rs') →
  ∃ added,
    rs' = rs ++ added
    ∧ ({| rtype := "eks:index:NodeGroup"; rname := stack +:+ "-cassandra" |} ∈ added
       ↔ is_Some (PersistenceConfig.Cassandra persistenceConfig))
    ∧ ({| rtype := "kubernetes:helm.sh/v3:Chart"; rname := "cassandra" |} ∈ added
       ↔ is_Some (PersistenceConfig.Cassandra persistenceConfig)
         ∧ PersistenceConfig.RDS persistenceConfig = None).
Proof.
  destruct (resolve_EKS stack temporalConfig eks persistenceConfig rs) as [cluster ->].
  set (ng := {| rtype := "eks:index:NodeGroup"; rname := stack +:+ "-cassandra" |}).
  set (chart := {| rtype := "kubernetes:helm.sh/v3:Chart"; rname := "cassandra" |}).
  assert (ng ∈ [ {| rtype := "eks:index:Cluster"; rname := stack |};
                 {| rtype := "eks:index:NodeGroup"; rname := stack +:+ "-temporal" |} ]
                 ++ match PersistenceConfig.Cassandra persistenceConfig with
                    | Some _ => [ng]
                    | None => []
                    end
          ↔ is_Some (PersistenceConfig.Cassandra persistenceConfig)) as Hng.
  { destruct (PersistenceConfig.Cassandra persistenceConfig) as [c|].
    - split; [by eexists|]. intros _. rewrite elem_of_app. right. apply elem_of_cons; by left.
    - rewrite app_nil_r, !elem_of_cons, elem_of_nil. split.
      + intros [[=]|[[= H]|[]]]. by apply (inj (String.append stack)) in H.
      + by intros [? [=]]. }
  assert (chart ∉ [ {| rtype := "eks:index:Cluster"; rname := stack |};
                    {| rtype := "eks:index:NodeGroup"; rname := stack +:+ "-temporal" |} ]
                    ++ match PersistenceConfig.Cassandra persistenceConfig with
                       | Some _ => [ng]
                       | None => []
                       end) as Hchart.
  { destruct (PersistenceConfig.Cassandra persistenceConfig);
      rewrite ?app_nil_r; cbn [app]; rewrite !not_elem_of_cons;
      split_and!; try done; apply not_elem_of_nil. }
  revert Hng Hchart.
  generalize ([ {| rtype := "eks:index:Cluster"; rname := stack |};
                {| rtype := "eks:index:NodeGroup"; rname := stack +:+ "-temporal" |} ]
                ++ match PersistenceConfig.Cassandra persistenceConfig with
                   | Some _ => [ng]
                   | None => []
                   end).
  intros a0 Hng Hchart.
  destruct persistenceConfig as [[rds|] cassandra visibility];
    cbn [PersistenceConfig.RDS PersistenceConfig.Cassandra] in *.
  - rewrite createPersistence_RDS.
    destruct (rdsPersistence _ _ _ _ _) as [[p|e1] rs1] eqn:Hp; [|done].
    destruct (createAdvancedVisibility _ _ _) as [[v|e2] rs2] eqn:Hv; [|done].
    intros [= <- <-].
    apply rdsPersistence_added in Hp as (a1 & -> & Ha1).
    apply createAdvancedVisibility_added in Hv as (a2 & -> & Ha2).
    exists (a0 ++ a1 ++ a2). split; [by rewrite <-!app_assoc|].
    assert (ng ∉ a1) by other_type Ha1.
    assert (ng ∉ a2) by other_type Ha2.
    assert (chart ∉ a1) by other_type Ha1.
    assert (chart ∉ a2) by other_type Ha2.
    rewrite !elem_of_app. split; [tauto|]. split; [tauto|]. by intros [_ [=]].
  - destruct cassandra as [cassandra|]; [|by rewrite createPersistence_none].
    rewrite createPersistence_Cassandra.
    unfold cassandraPersistence, mbind, Pulumi_bind, mret, Pulumi_ret, register.
    destruct (createAdvancedVisibility _ _ _) as [[v|e2] rs2] eqn:Hv; [|done].
    intros [= <- <-].
    apply createAdvancedVisibility_added in Hv as (a2 & -> & Ha2).
    eexists. split; [by rewrite <-!app_assoc|].
    assert (ng ∉ a2) by other_type Ha2.
    assert (chart ∉ a2) by other_type Ha2.
    rewrite !elem_of_app, !elem_of_cons, !elem_of_nil. split.
    + split; [by eexists|]. intros _. left. by apply Hng.
    + split; [by split; [eexists|]|]. intros _. tauto.
Qed.

Lemma resolve_cassandra_resources_witness :
  ∃ m rs',
    resolve "benchmark" Sample.temporalConfig (ClusterConfig.mk (Some Sample.eks))
      (PersistenceConfig.mk (Some (Sample.rds "postgres")) (Some Sample.cassandra) None) []
    = (Ok m, rs')
    ∧ {| rtype := "eks:index:NodeGroup"; rname := "benchmark-cassandra" |} ∈ rs'
    ∧ {| rtype := "kubernetes:helm.sh/v3:Chart"; rname := "cassandra" |} ∉ rs'.
Proof.
  do 2 eexists. split; [reflexivity|].
  destruct (resolve_cassandra_resources "benchmark" Sample.temporalConfig Sample.eks
              (PersistenceConfig.mk (Some (Sample.rds "postgres"))
                 (Some Sample.cassandra) None) [] _ _ eq_refl)
    as (added & Hrs & Hng & Hchart).
  match goal with |- _ ∈ ?r ∧ _ => assert (r = added) as -> by exact Hrs end.
  split.
  - apply Hng. by eexists.
  - intros H. apply Hchart in H as [_ H]. discriminate H.
Defined.

(** X19: the advanced visibility only adds entries.  The map of a resolved
    persistence configuration holds every entry that the configuration has
    without its visibility, with the same value; it differs from it under the
    four OpenSearch keys only; and [ENABLE_ES] is there, set to [true], when
    and only when an OpenSearch visibility is configured. *)
Theorem createPersistence_visibility
    stack temporalConfig rds cassandra visibility cluster rs m rs' :
  createPersistence stack temporalConfig
    (PersistenceConfig.mk rds cassandra visibility) cluster rs = (Ok m, rs') →
  ∃ p rs0,
    createPersistence stack temporalConfig
      (PersistenceConfig.mk rds cassandra None) cluster rs = (Ok p, rs0)
    ∧ p ⊆ m
    ∧ (∀ k, k ∉ ["ENABLE_ES"; "ES_SCHEMA"; "ES_SEEDS"; "ES_PORT"] → m !! k = p !! k)
    ∧ m !! "ENABLE_ES"
      = match visibility ≫= VisibilityConfig.OpenSearch with
        | Some _ => Some (Lit "true")
        | None => None
        end.
Proof.
  intros H.
  apply createPersistence_inv in H as (p & rs1 & v & Hp & Hv & -> & Hes & _).
  apply createAdvancedVisibility_entries in Hv as [Hother Henable].
  exists p, rs1. split_and!; [done| | |].
  - apply map_union_subseteq_r. apply map_disjoint_alt. intros k.
    destruct (decide (k ∈ ["ENABLE_ES"; "ES_SCHEMA"; "ES_SEEDS"; "ES_PORT"])); auto.
  - intros k Hk. by rewrite lookup_union_r by auto.
  - rewrite lookup_union_l by (apply Hes; set_solver). done.
Qed.

Lemma createPersistence_visibility_witness :
  ∃ m rs',
    createPersistence "benchmark" Sample.temporalConfig
      (PersistenceConfig.mk None (Some Sample.cassandra)
         (Some (VisibilityConfig.mk (Some (OpenSearchConfig.mk "m6g.large.search" "2.5")))))
      Sample.cluster [] = (Ok m, rs')
    ∧ m !! "ENABLE_ES" = Some (Lit "true")
    ∧ m !! "CASSANDRA_SEEDS" = Some (Lit "cassandra.cassandra.svc.cluster.local").
Proof.
  do 2 eexists. split; [reflexivity|].
  destruct (createPersistence_visibility "benchmark" Sample.temporalConfig
              None (Some Sample.cassandra)
              (Some (VisibilityConfig.mk (Some (OpenSearchConfig.mk "m6g.large.search" "2.5"))))
              Sample.cluster [] _ _ eq_refl)
    as (p & rs0 & Hp & Hsub & Hother & Henable).
  split; [exact Henable|].
  injection Hp as <- <-.
  rewrite Hother; [reflexivity|]. rewrite !not_elem_of_cons. 
  split_and!; try discriminate. apply not_elem_of_nil.
Defined.

(** X20: the database of a resolved persistence configuration.  Whatever
    the variant and the visibility, the map names the [temporal_persistence]
    database, its [DB] and [DB_PORT] entries agree: [postgresql] with 5432,
    [mysql] with 3306 or [cassandra] with 9042; and [NUM_HISTORY_SHARDS] is
    the number of history shards of the Temporal configuration in decimal
    digits, for every number of shards up to [2^53], which the program holds
    exactly. *)
Theorem createPersistence_database stack temporalConfig config cluster rs m rs' :
  createPersistence stack temporalConfig config cluster rs = (Ok m, rs') →
  let Shards := HistoryConfig.Shards (TemporalConfig.History temporalConfig) in
  ((Z.abs Shards ≤ 2 ^ 53)%Z →
     m !! "NUM_HISTORY_SHARDS" = Some (Lit (pretty Shards)))
  ∧ m !! "DBNAME" = Some (Lit "temporal_persistence")
  ∧ (m !! "DB", m !! "DB_PORT")
    ∈ [ (Some (Lit "postgresql"), Some (Lit "5432"));
        (Some (Lit "mysql"), Some (Lit "3306"));
        (Some (Lit "cassandra"), Some (Lit "9042")) ].
Proof.
  destruct config as [rds cassandra visibility]. intros H Shards.
  apply createPersistence_inv in H as (p & rs1 & v & _ & Hv & -> & _ & Hs & Hn & Hdb).
  apply createAdvancedVisibility_entries in Hv as [Hother _].
  assert (∀ k : string, k ∈ ["NUM_HISTORY_SHARDS"; "DBNAME"; "DB"; "DB_PORT"] →
            (v ∪ p) !! k = p !! k) as Hk.
  { intros k Hk. apply lookup_union_r, Hother.
    rewrite !elem_of_cons, elem_of_nil in Hk. rewrite !not_elem_of_cons.
    destruct Hk as [->|[->|[->|[->|[]]]]]; split_and!; try discriminate;
      apply not_elem_of_nil. }
  rewrite !Hk by (rewrite !elem_of_cons; repeat first [by left | right]).
  split_and!; [|done..].
  intros Hsafe. by rewrite Hs, toString_safe.
Qed.

Lemma createPersistence_database_witness :
  ∃ m rs',
    createPersistence "benchmark" Sample.temporalConfig
      (PersistenceConfig.mk (Some (Sample.rds "aurora-mysql")) None None)
      Sample.cluster [] = (Ok m, rs')
    ∧ m !! "NUM_HISTORY_SHARDS" = Some (Lit "512")
    ∧ m !! "DBNAME" = Some (Lit "temporal_persistence").
Proof.
  do 2 eexists. split; [reflexivity|].
  destruct (createPersistence_database "benchmark" Sample.temporalConfig
              (PersistenceConfig.mk (Some (Sample.rds "aurora-mysql")) None None)
              Sample.cluster [] _ _ eq_refl) as (Hs & Hn & _).
  split; [exact (Hs ltac:(by vm_compute))|exact Hn].
Defined.
